(** * Kaleidoscope front end in plain C ([Silly/main.c]): lexer and parser

    A shallow embedding of the tokenizer [gettok], of the
    recursive-descent / precedence-climbing parser and of the driver
    ([MainLoop] and its handlers, [main]), followed by the properties of
    the specification that were checked against it and by further
    properties of the code.

    Conventions of the embedding.
    - A C [int] is a [Z]; a [char] is an [ascii]; a [char[64]] buffer is a
      [list ascii] written by index ([<[i:=c]>]); a store at an index
      outside the 64 slots is undefined behaviour ([Undefined]).
    - The globals of the C file are the fields of one record that is
      threaded through every function.
    - [stdin] is the text not yet read; [getchar] answers [EOF] for ever
      once it is empty.
    - A [void*] result is an [option]: [None] is [NULL].
    - An automatic array without initialiser holds indeterminate bytes:
      they come from an oracle of the state, which hands out a new
      buffer at every declaration reached and at every nested
      activation.
    - [malloc] is taken to succeed.
    - Functions whose recursion follows the input rather than a data
      structure take a [fuel] argument; [OutOfFuel] is not a behaviour of
      the program. *)

From Stdlib Require Import ZArith Ascii String Bool Lia QArith.
From stdpp Require Import base list.

Set Warnings "-register-all".

Local Open Scope string_scope.
Local Open Scope Z_scope.

(** ** Outcomes *)

Inductive result (A : Type) : Type :=
| Ok (a : A)
| Undefined
| OutOfFuel.
Arguments Ok {A} a.
Arguments Undefined {A}.
Arguments OutOfFuel {A}.

Definition bind {A B : Type} (r : result A) (k : A -> result B) : result B :=
  match r with
  | Ok a => k a
  | Undefined => Undefined
  | OutOfFuel => OutOfFuel
  end.

Notation "'let*' x ':=' r 'in' k" := (bind r (fun x => k))
  (at level 10, x pattern, r at level 200, k at level 200).

(** ** The C library, as far as the program uses it *)

Module Libc.

Definition EOF : Z := -1.

(** [unsigned char] to [int], the conversion [getchar] performs. *)
Definition int_of_char (c : ascii) : Z := Z.of_N (N_of_ascii c).

(** [int] to [char], the conversion of a store into a [char] slot. *)
Definition char_of_int (z : Z) : ascii := ascii_of_N (Z.to_N (z mod 256)).

Definition getchar (input : string) : Z * string :=
  match input with
  | EmptyString => (EOF, EmptyString)
  | String c rest => (int_of_char c, rest)
  end.

(** <ctype.h> in the "C" locale (the program never calls setlocale). *)
Definition isspace (c : Z) : bool := (c =? 32) || ((9 <=? c) && (c <=? 13)).
Definition isdigit (c : Z) : bool := (48 <=? c) && (c <=? 57).
Definition isalpha (c : Z) : bool :=
  ((65 <=? c) && (c <=? 90)) || ((97 <=? c) && (c <=? 122)).
Definition isalnum (c : Z) : bool := isalpha c || isdigit c.
(** [#define isascii(c) (((c) & ~0x7f) == 0)] *)
Definition isascii (c : Z) : bool := Z.land c (Z.lnot 127) =? 0.

Definition NUL : ascii := "000"%char.

(** The string a [char*] denotes: the bytes before the first NUL. *)
Fixpoint cstr (buf : list ascii) : string :=
  match buf with
  | [] => EmptyString
  | c :: buf' => if Ascii.eqb c NUL then EmptyString else String c (cstr buf')
  end.

(** Whether the buffer holds a NUL at all; without one every reader of
    the string runs off the end of the buffer. *)
Fixpoint has_NUL (buf : list ascii) : bool :=
  match buf with
  | [] => false
  | c :: buf' => Ascii.eqb c NUL || has_NUL buf'
  end.

(** Reading a buffer as a string ([strcpy] from it, [strcmp], [strtod]). *)
Definition read_cstr (buf : list ascii) : result string :=
  if has_NUL buf then Ok (cstr buf) else Undefined.

(** [strcmp(a, b) == 0] *)
Definition streq (a b : string) : bool := String.eqb a b.

End Libc.
Import Libc.

(** ** Tokens *)

Definition tok_eof : Z := -1.
Definition tok_def : Z := -2.
Definition tok_extern : Z := -3.
Definition tok_identifier : Z := -4.
Definition tok_number : Z := -5.

Definition NUM_BINOPS : nat := 4.

(** Size of every name buffer and of every argument array of the
    program. *)
Definition BUFSZ : nat := 64.

(** A character constant used as an [int]. *)
Definition chr (c : ascii) : Z := int_of_char c.

Section Frontend.

(** [double] and [strtod] come from the C library; the embedding is
    parametric in them. *)
Variable double : Type.
Variable strtod : string -> double.
(** The value [0.0] of a [static double] without initialiser. *)
Variable zero : double.

(** ** Global state *)

Record globals : Type := Globals {
  stdin : string;                          (* unread standard input *)
  LastChar : Z;                            (* static int LastChar *)
  IdentifierStr : list ascii;              (* static char IdentifierStr[64] *)
  NumVal : double;                         (* static double NumVal *)
  CurTok : Z;                              (* static int CurTok *)
  BinopPrecedenceOperators : list ascii;   (* static char [NUM_BINOPS] *)
  BinopPrecedencePrecedence : list Z;      (* static int [NUM_BINOPS] *)
  stderr : list string;                    (* one entry per fprintf *)
  (* [char NumStr[64]] is declared without initialiser: its bytes are
     indeterminate.  [indeterminate k i] is byte [i] of the [k]-th
     such buffer of the run; [NumStr_decls] counts them.  A nested
     activation of [gettok] has a buffer of its own, which is not the
     one its caller would have declared: the count moves on when one is
     entered ([nested_gettok]) as it does at a declaration. *)
  indeterminate : nat -> nat -> ascii;
  NumStr_decls : nat
}.

Definition set_lexer (st : globals) (input : string) (lc : Z) : globals :=
  {| stdin := input; LastChar := lc;
     IdentifierStr := IdentifierStr st; NumVal := NumVal st;
     CurTok := CurTok st;
     BinopPrecedenceOperators := BinopPrecedenceOperators st;
     BinopPrecedencePrecedence := BinopPrecedencePrecedence st;
     stderr := stderr st;
     indeterminate := indeterminate st; NumStr_decls := NumStr_decls st |}.

Definition set_IdentifierStr (st : globals) (buf : list ascii) : globals :=
  {| stdin := stdin st; LastChar := LastChar st;
     IdentifierStr := buf; NumVal := NumVal st;
     CurTok := CurTok st;
     BinopPrecedenceOperators := BinopPrecedenceOperators st;
     BinopPrecedencePrecedence := BinopPrecedencePrecedence st;
     stderr := stderr st;
     indeterminate := indeterminate st; NumStr_decls := NumStr_decls st |}.

Definition set_NumVal (st : globals) (v : double) : globals :=
  {| stdin := stdin st; LastChar := LastChar st;
     IdentifierStr := IdentifierStr st; NumVal := v;
     CurTok := CurTok st;
     BinopPrecedenceOperators := BinopPrecedenceOperators st;
     BinopPrecedencePrecedence := BinopPrecedencePrecedence st;
     stderr := stderr st;
     indeterminate := indeterminate st; NumStr_decls := NumStr_decls st |}.

Definition set_CurTok (st : globals) (t : Z) : globals :=
  {| stdin := stdin st; LastChar := LastChar st;
     IdentifierStr := IdentifierStr st; NumVal := NumVal st;
     CurTok := t;
     BinopPrecedenceOperators := BinopPrecedenceOperators st;
     BinopPrecedencePrecedence := BinopPrecedencePrecedence st;
     stderr := stderr st;
     indeterminate := indeterminate st; NumStr_decls := NumStr_decls st |}.

Definition set_binops (st : globals) (ops : list ascii) (precs : list Z)
  : globals :=
  {| stdin := stdin st; LastChar := LastChar st;
     IdentifierStr := IdentifierStr st; NumVal := NumVal st;
     CurTok := CurTok st;
     BinopPrecedenceOperators := ops;
     BinopPrecedencePrecedence := precs;
     stderr := stderr st;
     indeterminate := indeterminate st; NumStr_decls := NumStr_decls st |}.

(** [fprintf(stderr, ...)] *)
Definition fprintf_stderr (st : globals) (text : string) : globals :=
  {| stdin := stdin st; LastChar := LastChar st;
     IdentifierStr := IdentifierStr st; NumVal := NumVal st;
     CurTok := CurTok st;
     BinopPrecedenceOperators := BinopPrecedenceOperators st;
     BinopPrecedencePrecedence := BinopPrecedencePrecedence st;
     stderr := (stderr st ++ [text])%list;
     indeterminate := indeterminate st; NumStr_decls := NumStr_decls st |}.

(** Declaring [char NumStr[64];]: the next indeterminate buffer. *)
Definition declare_NumStr (st : globals) : list ascii * globals :=
  (map (indeterminate st (NumStr_decls st)) (seq 0 BUFSZ),
   {| stdin := stdin st; LastChar := LastChar st;
      IdentifierStr := IdentifierStr st; NumVal := NumVal st;
      CurTok := CurTok st;
      BinopPrecedenceOperators := BinopPrecedenceOperators st;
      BinopPrecedencePrecedence := BinopPrecedencePrecedence st;
      stderr := stderr st;
      indeterminate := indeterminate st;
      NumStr_decls := S (NumStr_decls st) |}).

(** Entering the nested activation of [return gettok();]: its automatic
    buffer is another object than the one of the activation that calls
    it. *)
Definition nested_gettok (st : globals) : globals :=
  {| stdin := stdin st; LastChar := LastChar st;
     IdentifierStr := IdentifierStr st; NumVal := NumVal st;
     CurTok := CurTok st;
     BinopPrecedenceOperators := BinopPrecedenceOperators st;
     BinopPrecedencePrecedence := BinopPrecedencePrecedence st;
     stderr := stderr st;
     indeterminate := indeterminate st;
     NumStr_decls := S (NumStr_decls st) |}.

(** ** Lexer *)

(** [while (isspace(LastChar)) LastChar = getchar();] *)
Fixpoint skip_whitespace (lc : Z) (input : string) : Z * string :=
  if isspace lc then
    match input with
    | EmptyString => (EOF, EmptyString)
    | String c rest => skip_whitespace (int_of_char c) rest
    end
  else (lc, input).

(** [while (isalnum((LastChar = getchar()))) { IdentifierStr[charIndex] =
    LastChar; charIndex++; }] — yields [LastChar], the unread input, the
    buffer and [charIndex]. *)
Fixpoint read_identifier (input : string) (buf : list ascii) (charIndex : nat)
  : result (Z * string * list ascii * nat) :=
  match input with
  | EmptyString => Ok (EOF, EmptyString, buf, charIndex)
  | String c rest =>
      let lc := int_of_char c in
      if isalnum lc then
        if (charIndex <? BUFSZ)%nat
        then read_identifier rest (<[charIndex := char_of_int lc]> buf)
                             (S charIndex)
        else Undefined
      else Ok (lc, rest, buf, charIndex)
  end.

(** [do { NumStr[charIndex] = LastChar; LastChar = getchar();
    charIndex++; } while (isdigit(LastChar) || LastChar == '.');] *)
Fixpoint read_number (lc : Z) (input : string) (NumStr : list ascii)
    (charIndex : nat) : result (Z * string * list ascii * nat) :=
  if (charIndex <? BUFSZ)%nat then
    let NumStr := <[charIndex := char_of_int lc]> NumStr in
    match input with
    | EmptyString => Ok (EOF, EmptyString, NumStr, S charIndex)
    | String c rest =>
        let lc' := int_of_char c in
        if isdigit lc' || (lc' =? chr ".")
        then read_number lc' rest NumStr (S charIndex)
        else Ok (lc', rest, NumStr, S charIndex)
    end
  else Undefined.

(** [do LastChar = getchar(); while (LastChar != EOF && LastChar != '\n'
    && LastChar != '\r');] *)
Fixpoint skip_comment (input : string) : Z * string :=
  match input with
  | EmptyString => (EOF, EmptyString)
  | String c rest =>
      let lc := int_of_char c in
      if negb (lc =? 10) && negb (lc =? 13)
      then skip_comment rest
      else (lc, rest)
  end.

(** The end of [gettok], from the end-of-file check on. *)
Definition gettok_rest (st : globals) (lc : Z) (input : string)
  : result (Z * globals) :=
  if lc =? EOF then Ok (tok_eof, set_lexer st input lc)
  else
    let ThisChar := lc in
    let '(lc, input) := getchar input in
    Ok (ThisChar, set_lexer st input lc).

Fixpoint gettok_rec (fuel : nat) (st : globals) : result (Z * globals) :=
  match fuel with
  | O => OutOfFuel
  | S fuel =>
      let '(lc, input) := skip_whitespace (LastChar st) (stdin st) in
      if isalpha lc then
        let buf := <[0%nat := char_of_int lc]> (IdentifierStr st) in
        let* (lc, input, buf, charIndex) := read_identifier input buf 1 in
        if (charIndex <? BUFSZ)%nat then
          let buf := <[charIndex := NUL]> buf in
          let st := set_IdentifierStr (set_lexer st input lc) buf in
          let* name := read_cstr buf in
          if streq name "def" then Ok (tok_def, st)
          else if streq name "extern" then Ok (tok_extern, st)
          else Ok (tok_identifier, st)
        else Undefined
      else if isdigit lc || (lc =? chr ".") then
        let '(NumStr, st) := declare_NumStr st in
        let* (lc, input, NumStr, charIndex) := read_number lc input NumStr 1 in
        if (charIndex <? BUFSZ)%nat then
          let NumStr := <[charIndex := NUL]> NumStr in
          (* [strtod] reads up to the NUL just stored *)
          Ok (tok_number,
              set_NumVal (set_lexer st input lc) (strtod (cstr NumStr)))
        else Undefined
      else if lc =? chr "#" then
        let '(lc, input) := skip_comment input in
        if negb (lc =? EOF)
        then gettok_rec fuel (nested_gettok (set_lexer st input lc))
        else gettok_rest st lc input
      else gettok_rest st lc input
  end.

(** Every recursive call has read at least one character, so the length
    of the unread input bounds the recursion. *)
Definition gettok (st : globals) : result (Z * globals) :=
  gettok_rec (S (String.length (stdin st))) st.

(** ** Abstract syntax tree

    The C structs, with a name buffer as the string it holds and an
    array of children as the list of its filled slots. *)

Inductive ExprAST : Type :=
| NumberExprAST (Val : double)
| VariableExprAST (Name : string)
| BinaryExprAST (Op : ascii) (LHS RHS : ExprAST)
| CallExprAST (Callee : string) (Args : list ExprAST) (NumArgs : nat).

Record PrototypeAST : Type := mkPrototypeAST {
  ProtoName : string;
  ProtoArgs : list string;
  ProtoNumArgs : nat
}.

Record FunctionAST : Type := mkFunctionAST {
  Proto : PrototypeAST;
  Body : ExprAST
}.

(** ** Parser *)

Definition getNextToken (st : globals) : result (Z * globals) :=
  let* (t, st) := gettok st in
  Ok (t, set_CurTok st t).

(** The [for] loop of [GetTokPrecedence], [n] iterations from index
    [i] on.  It runs only when [CurTok] is in 0..127, so a table entry
    above 127 matches under neither signedness of [char]; [(int) op] is
    read as unsigned. *)
Fixpoint GetTokPrecedence_loop (n i : nat) (st : globals) : result Z :=
  match n with
  | O => Ok (-1)
  | S n =>
      match BinopPrecedenceOperators st !! i,
            BinopPrecedencePrecedence st !! i with
      | Some op, Some TokPrec =>
          if CurTok st =? int_of_char op then
            if TokPrec <=? 0 then Ok (-1) else Ok TokPrec
          else GetTokPrecedence_loop n (S i) st
      | _, _ => Undefined
      end
  end.

Definition GetTokPrecedence (st : globals) : result Z :=
  if negb (isascii (CurTok st)) then Ok (-1)
  else GetTokPrecedence_loop NUM_BINOPS 0 st.

Definition newline : string := String "010"%char EmptyString.

Definition Error {A : Type} (Str : string) (st : globals)
  : result (option A * globals) :=
  Ok (None, fprintf_stderr st ("Error: " ++ Str ++ newline)%string).

Definition ErrorP (Str : string) (st : globals)
  : result (option PrototypeAST * globals) :=
  let* (_, st) := Error (A := unit) Str st in
  Ok (None, st).

Definition ParseNumberExpr (st : globals)
  : result (option ExprAST * globals) :=
  let Result := NumberExprAST (NumVal st) in
  let* (_, st) := getNextToken st in
  Ok (Some Result, st).

Fixpoint ParseExpression (fuel : nat) (st : globals)
  : result (option ExprAST * globals) :=
  match fuel with
  | O => OutOfFuel
  | S fuel =>
      let* (LHS, st) := ParsePrimary fuel st in
      match LHS with
      | None => Ok (None, st)
      | Some LHS => ParseBinOpRHS fuel 0 LHS st
      end
  end

with ParsePrimary (fuel : nat) (st : globals)
  : result (option ExprAST * globals) :=
  match fuel with
  | O => OutOfFuel
  | S fuel =>
      if CurTok st =? tok_identifier then ParseIdentifierExpr fuel st
      else if CurTok st =? tok_number then ParseNumberExpr st
      else if CurTok st =? chr "(" then ParseParenExpr fuel st
      else Error "unknown token when expecting an expression" st
  end

with ParseParenExpr (fuel : nat) (st : globals)
  : result (option ExprAST * globals) :=
  match fuel with
  | O => OutOfFuel
  | S fuel =>
      let* (_, st) := getNextToken st in
      let* (V, st) := ParseExpression fuel st in
      match V with
      | None => Ok (None, st)
      | Some V =>
          if negb (CurTok st =? chr ")") then Error "expected ')'" st
          else
            let* (_, st) := getNextToken st in
            Ok (Some V, st)
      end
  end

with ParseIdentifierExpr (fuel : nat) (st : globals)
  : result (option ExprAST * globals) :=
  match fuel with
  | O => OutOfFuel
  | S fuel =>
      let* IdName := read_cstr (IdentifierStr st) in
      let* (_, st) := getNextToken st in
      if negb (CurTok st =? chr "(") then
        Ok (Some (VariableExprAST IdName), st)
      else
        let* (_, st) := getNextToken st in
        let* (Result, st) :=
          if negb (CurTok st =? chr ")")
          then ParseCallArgs fuel IdName [] 0 st
          else Ok (Some (CallExprAST IdName [] 0), st) in
        match Result with
        | None => Ok (None, st)
        | Some Result =>
            let* (_, st) := getNextToken st in
            Ok (Some Result, st)
        end
  end

(** The [while (1)] loop over the arguments of a call; [Args] and
    [NumArgs] are the fields of the node under construction.  It ends
    with [Some] node at the [break]. *)
with ParseCallArgs (fuel : nat) (Callee : string) (Args : list ExprAST)
    (NumArgs : nat) (st : globals) : result (option ExprAST * globals) :=
  match fuel with
  | O => OutOfFuel
  | S fuel =>
      let* (Arg, st) := ParseExpression fuel st in
      match Arg with
      | None => Ok (None, st)
      | Some Arg =>
          if (NumArgs <? BUFSZ)%nat then
            let Args := (Args ++ [Arg])%list in
            let NumArgs := S NumArgs in
            if CurTok st =? chr ")" then
              Ok (Some (CallExprAST Callee Args NumArgs), st)
            else if negb (CurTok st =? chr ",") then
              Error "Expected ')' or ',' in argument list" st
            else
              let* (_, st) := getNextToken st in
              ParseCallArgs fuel Callee Args NumArgs st
          else Undefined
      end
  end

with ParseBinOpRHS (fuel : nat) (ExprPrec : Z) (LHS : ExprAST)
    (st : globals) : result (option ExprAST * globals) :=
  match fuel with
  | O => OutOfFuel
  | S fuel =>
      let* TokPrec := GetTokPrecedence st in
      if TokPrec <? ExprPrec then Ok (Some LHS, st)
      else
        let BinOp := CurTok st in
        let* (_, st) := getNextToken st in
        let* (RHS, st) := ParsePrimary fuel st in
        match RHS with
        | None => Ok (None, st)
        | Some RHS =>
            let* NextPrec := GetTokPrecedence st in
            let* (RHS, st) :=
              if TokPrec <? NextPrec
              then ParseBinOpRHS fuel (TokPrec + 1) RHS st
              else Ok (Some RHS, st) in
            match RHS with
            | None => Ok (None, st)
            | Some RHS =>
                let Result := BinaryExprAST (char_of_int BinOp) LHS RHS in
                ParseBinOpRHS fuel ExprPrec Result st
            end
        end
  end.

(** [while (getNextToken() == tok_identifier) { ... }] of
    [ParsePrototype]. *)
Fixpoint ParsePrototype_args (fuel : nat) (Args : list string)
    (NumArgs : nat) (st : globals)
  : result (list string * nat * globals) :=
  match fuel with
  | O => OutOfFuel
  | S fuel =>
      let* (t, st) := getNextToken st in
      if t =? tok_identifier then
        if (NumArgs <? BUFSZ)%nat then
          let* arg := read_cstr (IdentifierStr st) in
          ParsePrototype_args fuel (Args ++ [arg])%list (S NumArgs) st
        else Undefined
      else Ok (Args, NumArgs, st)
  end.

Definition ParsePrototype (fuel : nat) (st : globals)
  : result (option PrototypeAST * globals) :=
  if negb (CurTok st =? tok_identifier) then
    ErrorP "Expected function name in prototype" st
  else
    let* Name := read_cstr (IdentifierStr st) in
    let* (_, st) := getNextToken st in
    if negb (CurTok st =? chr "(") then
      ErrorP "Expected '(' in prototype" st
    else
      let* (Args, NumArgs, st) := ParsePrototype_args fuel [] 0 st in
      if negb (CurTok st =? chr ")") then
        ErrorP "Expected ')' in prototype" st
      else
        let* (_, st) := getNextToken st in
        Ok (Some (mkPrototypeAST Name Args NumArgs), st).

Definition ParseDefinition (fuel : nat) (st : globals)
  : result (option FunctionAST * globals) :=
  let* (_, st) := getNextToken st in
  let* (Proto, st) := ParsePrototype fuel st in
  match Proto with
  | None => Ok (None, st)
  | Some Proto =>
      let* (E, st) := ParseExpression fuel st in
      match E with
      | Some E => Ok (Some (mkFunctionAST Proto E), st)
      | None => Ok (None, st)
      end
  end.

Definition ParseTopLevelExpr (fuel : nat) (st : globals)
  : result (option FunctionAST * globals) :=
  let* (E, st) := ParseExpression fuel st in
  match E with
  | Some E =>
      let Proto := mkPrototypeAST "__anon_expr" [] 0 in
      Ok (Some (mkFunctionAST Proto E), st)
  | None => Ok (None, st)
  end.

Definition ParseExtern (fuel : nat) (st : globals)
  : result (option PrototypeAST * globals) :=
  let* (_, st) := getNextToken st in
  ParsePrototype fuel st.

(** ** Start of [main] *)

(** The program as loaded: statics zeroed, [LastChar] a blank. *)
Definition load (input : string) (junk : nat -> nat -> ascii) : globals :=
  {| stdin := input; LastChar := chr " ";
     IdentifierStr := replicate BUFSZ NUL; NumVal := zero;
     CurTok := 0;
     BinopPrecedenceOperators := replicate NUM_BINOPS NUL;
     BinopPrecedencePrecedence := replicate NUM_BINOPS 0;
     stderr := [];
     indeterminate := junk; NumStr_decls := 0 |}.

(** [for (int i = 0; i < NUM_BINOPS; i++) { BinopPrecedenceOperators[i]
    = binops[i]; BinopPrecedencePrecedence[i] = precedence[i]; }] *)
Fixpoint install_loop (n i : nat) (binops : list ascii)
    (precedence : list Z) (st : globals) : result globals :=
  match n with
  | O => Ok st
  | S n =>
      match binops !! i, precedence !! i with
      | Some op, Some prec =>
          if (i <? NUM_BINOPS)%nat then
            install_loop n (S i) binops precedence
              (set_binops st
                 (<[i := op]> (BinopPrecedenceOperators st))
                 (<[i := prec]> (BinopPrecedencePrecedence st)))
          else Undefined
      | _, _ => Undefined
      end
  end.

(** [char binops[] = "<+-*"; int precedence[] = {10, 20, 30, 40};] and
    the loop that installs them. *)
Definition install_binops (st : globals) : result globals :=
  let binops := ["<"; "+"; "-"; "*"; NUL]%char in
  let precedence := [10; 20; 30; 40] in
  install_loop NUM_BINOPS 0 binops precedence st.

(** [main] up to the call of [MainLoop]: the table is installed, the
    prompt printed and the first token read. *)
Definition main_prelude (input : string) (junk : nat -> nat -> ascii)
  : result globals :=
  let* st := install_binops (load input junk) in
  let st := fprintf_stderr st "ready> " in
  let* (_, st) := getNextToken st in
  Ok st.

(** ** Top-level parsing: the driver *)

Definition HandleDefinition (fuel : nat) (st : globals) : result globals :=
  let* (r, st) := ParseDefinition fuel st in
  match r with
  | Some _ =>
      Ok (fprintf_stderr st ("Parsed a function definition." ++ newline)%string)
  | None =>
      (* Skip token for error recovery. *)
      let* (_, st) := getNextToken st in
      Ok st
  end.

Definition HandleExtern (fuel : nat) (st : globals) : result globals :=
  let* (r, st) := ParseExtern fuel st in
  match r with
  | Some _ => Ok (fprintf_stderr st ("Parsed an extern" ++ newline)%string)
  | None =>
      let* (_, st) := getNextToken st in
      Ok st
  end.

Definition HandleTopLevelExpression (fuel : nat) (st : globals)
  : result globals :=
  let* (r, st) := ParseTopLevelExpr fuel st in
  match r with
  | Some _ =>
      Ok (fprintf_stderr st ("Parsed a top-level expr" ++ newline)%string)
  | None =>
      let* (_, st) := getNextToken st in
      Ok st
  end.

(** [while (1) { fprintf(stderr, "ready> "); switch (CurTok) ... }]; one
    unit of fuel per turn of the loop, the rest for the form it
    handles. *)
Fixpoint MainLoop (fuel : nat) (st : globals) : result globals :=
  match fuel with
  | O => OutOfFuel
  | S fuel =>
      let st := fprintf_stderr st "ready> " in
      if CurTok st =? tok_eof then Ok st
      else if CurTok st =? chr ";" then
        let* (_, st) := getNextToken st in
        MainLoop fuel st
      else if CurTok st =? tok_def then
        let* st := HandleDefinition fuel st in
        MainLoop fuel st
      else if CurTok st =? tok_extern then
        let* st := HandleExtern fuel st in
        MainLoop fuel st
      else
        let* st := HandleTopLevelExpression fuel st in
        MainLoop fuel st
  end.

(** The whole of [main]: its return value and the final state. *)
Definition main (fuel : nat) (input : string) (junk : nat -> nat -> ascii)
  : result (Z * globals) :=
  let* st := main_prelude input junk in
  let* st := MainLoop fuel st in
  Ok (0, st).

End Frontend.

Arguments Globals {double}.
Arguments stdin {double} _.
Arguments LastChar {double} _.
Arguments IdentifierStr {double} _.
Arguments NumVal {double} _.
Arguments CurTok {double} _.
Arguments BinopPrecedenceOperators {double} _.
Arguments BinopPrecedencePrecedence {double} _.
Arguments stderr {double} _.
Arguments indeterminate {double} _.
Arguments NumStr_decls {double} _.
Arguments set_lexer {double}.
Arguments set_IdentifierStr {double}.
Arguments set_NumVal {double}.
Arguments set_CurTok {double}.
Arguments set_binops {double}.
Arguments fprintf_stderr {double}.
Arguments declare_NumStr {double}.
Arguments nested_gettok {double}.
Arguments gettok_rest {double}.
Arguments gettok_rec {double}.
Arguments gettok {double}.
Arguments NumberExprAST {double}.
Arguments VariableExprAST {double}.
Arguments BinaryExprAST {double}.
Arguments CallExprAST {double}.
Arguments mkFunctionAST {double}.
Arguments Proto {double}.
Arguments Body {double}.
Arguments getNextToken {double}.
Arguments GetTokPrecedence_loop {double}.
Arguments GetTokPrecedence {double}.
Arguments Error {double A}.
Arguments ErrorP {double}.
Arguments ParseNumberExpr {double}.
Arguments ParseExpression {double}.
Arguments ParsePrimary {double}.
Arguments ParseParenExpr {double}.
Arguments ParseIdentifierExpr {double}.
Arguments ParseCallArgs {double}.
Arguments ParseBinOpRHS {double}.
Arguments ParsePrototype_args {double}.
Arguments ParsePrototype {double}.
Arguments ParseDefinition {double}.
Arguments ParseTopLevelExpr {double}.
Arguments ParseExtern {double}.
Arguments load {double}.
Arguments install_loop {double}.
Arguments install_binops {double}.
Arguments main_prelude {double}.
Arguments HandleDefinition {double}.
Arguments HandleExtern {double}.
Arguments HandleTopLevelExpression {double}.
Arguments MainLoop {double}.
Arguments main {double}.

(** ** A reading of [strtod] for the texts the lexer can hand to it

    The lexer passes one byte followed by characters of [[0-9.]]: no
    exponent, hexadecimal prefix, [inf] or [nan] can occur.  On such texts
    the C standard (7.22.1.3) makes [strtod] skip leading white space,
    accept one sign, and convert the longest run of decimal digits with at
    most one radix point that contains a digit; without such a run the
    result is zero.  [Decimal.strtod] yields the exact rational value of
    that run; the rounding to binary64 is left out. *)

Module Decimal.

Definition double : Type := Q.

Definition digit_val (c : ascii) : option Z :=
  let z := int_of_char c in
  if isdigit z then Some (z - 48) else None.

Fixpoint skip_space (s : string) : string :=
  match s with
  | String c rest => if isspace (int_of_char c) then skip_space rest else s
  | EmptyString => s
  end.

(** Digits after the radix point: numerator, denominator, digit seen. *)
Fixpoint fraction (s : string) (num : Z) (den : positive) (seen : bool)
  : Z * positive * bool :=
  match s with
  | String c rest =>
      match digit_val c with
      | Some d => fraction rest (10 * num + d) (10 * den)%positive true
      | None => (num, den, seen)
      end
  | EmptyString => (num, den, seen)
  end.

(** Digits before the radix point, then the fraction if there is one. *)
Fixpoint mantissa (s : string) (num : Z) (seen : bool)
  : Z * positive * bool :=
  match s with
  | String c rest =>
      match digit_val c with
      | Some d => mantissa rest (10 * num + d) true
      | None =>
          if Ascii.eqb c "." then fraction rest num 1 seen
          else (num, 1%positive, seen)
      end
  | EmptyString => (num, 1%positive, seen)
  end.

Definition strtod (s : string) : double :=
  let s := skip_space s in
  let '(neg, s) :=
    match s with
    | String "-" rest => (true, rest)
    | String "+" rest => (false, rest)
    | _ => (false, s)
    end in
  let '(num, den, seen) := mantissa s 0 false in
  if seen then Qred ((if neg then - num else num) # den) else 0%Q.

Definition zero : double := 0%Q.

End Decimal.

(** ** Derived notions used in the statements *)

(** The text [strtod] is given for a literal [lit]: the buffer is filled
    from index 1 on, so the text starts with the indeterminate byte [j]
    of slot 0 — and is empty when that byte is NUL. *)
Definition NumStr_text (j : ascii) (lit : string) : string :=
  if Ascii.eqb j NUL then EmptyString else String j lit.

(** The operator table [main] installs. *)
Definition standard_binops {double} (st : globals double) : Prop :=
  BinopPrecedenceOperators st = ["<"; "+"; "-"; "*"]%char /\
  BinopPrecedencePrecedence st = [10; 20; 30; 40].

(** The line [Error] prints for a message. *)
Definition error_line (msg : string) : string :=
  ("Error: " ++ msg ++ newline)%string.

(** The failure policy on one call of a parsing function that started in
    [st]: a non-null result printed nothing, a null result printed exactly
    one error line. *)
Definition error_policy {double A} (st : globals double)
    (r : result (option A * globals double)) : Prop :=
  match r with
  | Ok (Some _, st') => stderr st' = stderr st
  | Ok (None, st') => exists msg, stderr st' = (stderr st ++ [error_line msg])%list
  | Undefined | OutOfFuel => True
  end.

(** Parsing one expression as the first form of a program: [main] up to
    [MainLoop], then [ParseExpression]. *)
Definition parse_expression {double} (strtod : string -> double)
    (zero : double) (input : string) (junk : nat -> nat -> ascii)
    (fuel : nat) : result (option (ExprAST double)) :=
  let* st := main_prelude strtod zero input junk in
  let* (r, _) := ParseExpression strtod fuel st in
  Ok r.

(** Everything but the lexer's own variables. *)
Definition same_frame {double} (st st' : globals double) : Prop :=
  stderr st' = stderr st /\
  CurTok st' = CurTok st /\
  BinopPrecedenceOperators st' = BinopPrecedenceOperators st /\
  BinopPrecedencePrecedence st' = BinopPrecedencePrecedence st /\
  indeterminate st' = indeterminate st.

(** Every character of [s] satisfies [p]. *)
Fixpoint all_chars (p : Z -> bool) (s : string) : bool :=
  match s with
  | EmptyString => true
  | String c rest => p (int_of_char c) && all_chars p rest
  end.

(** A run of [p]-characters ends before [rest]: the input is exhausted or
    its next character fails [p]. *)
Definition stops (p : Z -> bool) (rest : string) : bool :=
  match rest with
  | EmptyString => true
  | String c _ => negb (p (int_of_char c))
  end.

(** [isdigit(c) || c == '.'] *)
Definition isnumchar (c : Z) : bool := isdigit c || (c =? chr ".").

(** Inside a comment: neither '\n' nor '\r'. *)
Definition incomment (c : Z) : bool := negb (c =? 10) && negb (c =? 13).

(** The buffer after the characters of [s] were stored from index [i]
    on. *)
Fixpoint store_string (s : string) (i : nat) (buf : list ascii) : list ascii :=
  match s with
  | EmptyString => buf
  | String c rest => store_string rest (S i) (<[i := c]> buf)
  end.

(** A state whose unread input is [input], the look-ahead unchanged. *)
Definition with_stdin {double} (st : globals double) (input : string)
  : globals double :=
  set_lexer st input (LastChar st).

(** The token [gettok] answers for the text of an identifier. *)
Definition word_token (name : string) : Z :=
  if streq name "def" then tok_def
  else if streq name "extern" then tok_extern
  else tok_identifier.

(** Two states in which the lexer reads the same thing. *)
Definition same_lexer {double} (st1 st2 : globals double) : Prop :=
  stdin st1 = stdin st2 /\
  LastChar st1 = LastChar st2 /\
  IdentifierStr st1 = IdentifierStr st2.

(** Two answers of the lexer that agree on the token and on what is left
    to read. *)
Definition same_answer {double} (r1 r2 : result (Z * globals double))
  : Prop :=
  match r1, r2 with
  | Ok (t1, st1), Ok (t2, st2) => t1 = t2 /\ same_lexer st1 st2
  | Undefined, Undefined => True
  | OutOfFuel, OutOfFuel => True
  | _, _ => False
  end.

(** The tokens of the next [n] calls of [gettok] (fewer if a call is
    undefined). *)
Fixpoint tokens {double} (strtod : string -> double) (n : nat)
    (st : globals double) : list Z :=
  match n with
  | O => []
  | S n =>
      match gettok strtod st with
      | Ok (t, st') => t :: tokens strtod n st'
      | Undefined | OutOfFuel => []
      end
  end.

(** The node of the [k]-th number of the input, whose text is [lit]. *)
Definition number_node {double} (strtod : string -> double)
    (junk : nat -> nat -> ascii) (k : nat) (lit : string) : ExprAST double :=
  NumberExprAST (strtod (NumStr_text (junk k 0%nat) lit)).

(** Slot 0 of every [NumStr] holds NUL. *)
Definition all_NUL : nat -> nat -> ascii := fun _ _ => NUL.

(** Slot 0 of every [NumStr] holds a blank, which [strtod] skips. *)
Definition all_blank : nat -> nat -> ascii := fun _ _ => " "%char.

(** The program on [input], stopped where [main] calls [MainLoop]. *)
Definition primed (input : string) (junk : nat -> nat -> ascii)
  : globals Decimal.double :=
  match main_prelude Decimal.strtod Decimal.zero input junk with
  | Ok st => st
  | Undefined | OutOfFuel => load Decimal.zero input junk
  end.

(** [r'] is the answer with more fuel than [r] had. *)
Definition fuel_stable {A : Type} (r r' : result A) : Prop :=
  r <> OutOfFuel -> r' = r.

(** The look-ahead character counts unless it is the end of file. *)
Definition lookahead_weight (lc : Z) : nat := if lc =? EOF then 0 else 1.

(** Characters the lexer has still to deal with. *)
Definition unread {double} (st : globals double) : nat :=
  String.length (stdin st) + lookahead_weight (LastChar st).

(** The same for the parser, whose current token counts too. *)
Definition pending {double} (st : globals double) : nat :=
  2 * unread st + (if CurTok st =? tok_eof then 0 else 1).

(** A call from [st] answered — with a node only after reading on
    ([strict]) or at least without reading back. *)
Definition answers {double A : Type} (st : globals double) (strict : bool)
    (r : result (option A * globals double)) : Prop :=
  match r with
  | OutOfFuel => False
  | Undefined => True
  | Ok (None, _) => True
  | Ok (Some _, st') =>
      if strict then (pending st' < pending st)%nat
      else (pending st' <= pending st)%nat
  end.

(** Fuel that is always enough for a call from [st]. *)
Definition enough_fuel {double} (st : globals double) : nat := 4 * pending st + 4.

(** *** Notions for the driver and for what the code never does *)

(** [rest] is what is left of [s] once a part of it was read. *)
Definition suffix_of (rest s : string) : Prop :=
  exists read, s = (read ++ rest)%string.

(** The outcome [r] of a call from [st] left a state that [R] relates to
    [st]. *)
Definition related {double A : Type}
    (R : globals double -> globals double -> Prop) (st : globals double)
    (r : result (A * globals double)) : Prop :=
  match r with
  | Ok (_, st') => R st st'
  | Undefined | OutOfFuel => True
  end.

(** The same for the functions of the driver, which return nothing. *)
Definition related_state {double : Type}
    (R : globals double -> globals double -> Prop) (st : globals double)
    (r : result (globals double)) : Prop :=
  match r with
  | Ok st' => R st st'
  | Undefined | OutOfFuel => True
  end.

(** The three acknowledgements of the driver. *)
Definition acknowledgement (text : string) : Prop :=
  text = ("Parsed a function definition." ++ newline)%string \/
  text = ("Parsed an extern" ++ newline)%string \/
  text = ("Parsed a top-level expr" ++ newline)%string.

(** Everything the program ever prints. *)
Definition driver_text (text : string) : Prop :=
  text = "ready> " \/ acknowledgement text \/
  exists msg, text = error_line msg.

(** A value [getchar] can return. *)
Definition getchar_value (c : Z) : Prop := -1 <= c <= 255.

(** A token that stands for itself: a byte that is no white space, no
    letter, no digit, no '.' and no '#'. *)
Definition character_token (t : Z) : Prop :=
  0 <= t <= 255 /\ isspace t = false /\ isalpha t = false /\
  isnumchar t = false /\ t <> chr "#".

(** Once [getchar] has answered [EOF] nothing is left to read. *)
Definition at_eof_consistent {double} (st : globals double) : Prop :=
  LastChar st = EOF -> stdin st = EmptyString.

(** A tree whose counters agree with its lists, none of which outgrows
    its array, and whose operators are ASCII characters of the operator
    table [ops]. *)
Fixpoint wf_expr {double} (ops : list ascii) (e : ExprAST double) : Prop :=
  match e with
  | NumberExprAST _ => True
  | VariableExprAST _ => True
  | BinaryExprAST Op LHS RHS =>
      In Op ops /\ int_of_char Op < 128 /\
      wf_expr ops LHS /\ wf_expr ops RHS
  | CallExprAST _ Args NumArgs =>
      NumArgs = length Args /\ (NumArgs <= BUFSZ)%nat /\
      (fix all (l : list (ExprAST double)) : Prop :=
         match l with
         | [] => True
         | a :: l => wf_expr ops a /\ all l
         end) Args
  end.

Definition wf_proto (P : PrototypeAST) : Prop :=
  ProtoNumArgs P = length (ProtoArgs P) /\ (ProtoNumArgs P <= BUFSZ)%nat.

(** The outcome of a parsing function that leaves the operators [ops] in
    the table and, when it returns a tree, a well-formed one. *)
Definition builds {double} (ops : list ascii)
    (r : result (option (ExprAST double) * globals double)) : Prop :=
  match r with
  | Ok (Some e, st') => BinopPrecedenceOperators st' = ops /\ wf_expr ops e
  | Ok (None, st') => BinopPrecedenceOperators st' = ops
  | Undefined | OutOfFuel => True
  end.

(** The unread input only shrinks. *)
Definition reads_on {double} (st st' : globals double) : Prop :=
  suffix_of (stdin st') (stdin st).

(** The operator table is the same. *)
Definition same_tables {double} (st st' : globals double) : Prop :=
  BinopPrecedenceOperators st' = BinopPrecedenceOperators st /\
  BinopPrecedencePrecedence st' = BinopPrecedencePrecedence st.

(** What was printed in between is made of prompts, acknowledgements and
    error lines. *)
Definition prints_only {double} (st st' : globals double) : Prop :=
  exists lines,
    stderr st' = (stderr st ++ lines)%list /\ Forall driver_text lines.

(** Not more is pending than before. *)
Definition not_more_pending {double} (st st' : globals double) : Prop :=
  (pending st' <= pending st)%nat.

(** The end of file, once seen, is final: nothing is left to read behind
    it, and the end-of-file token is the current one only when the
    look-ahead is the end of file. *)
Definition eof_invariant {double} (st : globals double) : Prop :=
  at_eof_consistent st /\ (CurTok st = tok_eof -> LastChar st = EOF).

(** An invariant is kept from one state to another. *)
Definition keeps {double} (I : globals double -> Prop)
    (st st' : globals double) : Prop :=
  I st -> I st'.

(** The outcome of a handler on a token that is not the end of file: it
    answers, and less is pending afterwards. *)
Definition progress {double} (st : globals double)
    (r : result (globals double)) : Prop :=
  match r with
  | Ok st' => (pending st' < pending st)%nat
  | Undefined => True
  | OutOfFuel => False
  end.

(** Fuel that is always enough for [main] on [input]. *)
Definition main_fuel (input : string) : nat := 8 * String.length input + 17.

(** *** Notions for the comparison of "(e)" with e *)

(** The text a lexer with look-ahead [lc] and unread input [input] has
    before it: the look-ahead character, then the input; nothing once the
    end of the file was seen. *)
Definition lexer_text (lc : Z) (input : string) (t : string) : Prop :=
  match t with
  | EmptyString => lc = EOF /\ input = EmptyString
  | String c s => lc = int_of_char c /\ input = s
  end.

(** No comment of the text runs into its end; [inside] tells whether the
    text starts inside a comment. *)
Fixpoint comments_closed (inside : bool) (t : string) : bool :=
  match t with
  | EmptyString => negb inside
  | String c s =>
      comments_closed
        (if inside then incomment (int_of_char c)
         else int_of_char c =? chr "#") s
  end.

(** The lexer of [stA] has before it the text that the lexer of [stB]
    has, then ")" and [rest]. *)
Definition lexer_wrapped {double} (rest : string)
    (stA stB : globals double) : Prop :=
  exists t,
    lexer_text (LastChar stB) (stdin stB) t /\
    lexer_text (LastChar stA) (stdin stA) (t ++ String ")" rest) /\
    comments_closed false t = true.

(** [stA] stands inside a pair of parentheses around the text that
    [stB] has as its whole input; both have the same name buffer and the
    operator table of [main]. *)
Definition wrapped {double} (rest : string) (stA stB : globals double)
  : Prop :=
  lexer_wrapped rest stA stB /\
  IdentifierStr stA = IdentifierStr stB /\
  standard_binops stA /\ standard_binops stB.

(** The two runs find the same bytes in the buffers [NumStr] they
    declare. *)
Definition same_bytes {double} (stA stB : globals double) : Prop :=
  indeterminate stA = indeterminate stB /\
  NumStr_decls stA = NumStr_decls stB.

(** [f] does not tell the numbers of the two runs apart: it tells no two
    numbers apart, or the runs find the same bytes. *)
Definition numbers_agree {double B : Type} (f : double -> B)
    (stA stB : globals double) : Prop :=
  (forall x y, f x = f y) \/ same_bytes stA stB.

(** The tree with [f] applied to the value of every number. *)
Fixpoint map_Val {A B : Type} (f : A -> B) (e : ExprAST A) : ExprAST B :=
  match e with
  | NumberExprAST Val => NumberExprAST (f Val)
  | VariableExprAST Name => VariableExprAST Name
  | BinaryExprAST Op LHS RHS =>
      BinaryExprAST Op (map_Val f LHS) (map_Val f RHS)
  | CallExprAST Callee Args NumArgs =>
      CallExprAST Callee (List.map (map_Val f) Args) NumArgs
  end.

(** The tree without the values of its numbers. *)
Definition shape {double} (e : ExprAST double) : ExprAST unit :=
  map_Val (fun _ => tt) e.

(** The parser of [stA] is where the parser of [stB] is, inside the
    parentheses: on the same token with the lexers as above, or on the
    closing parenthesis where [stB] is at the end of its input. *)
Definition parsing_wrapped {double B : Type} (f : double -> B)
    (rest : string) (stA stB : globals double) : Prop :=
  IdentifierStr stA = IdentifierStr stB /\
  standard_binops stA /\ standard_binops stB /\
  numbers_agree f stA stB /\
  (CurTok stB = tok_number -> f (NumVal stA) = f (NumVal stB)) /\
  ((lexer_wrapped rest stA stB /\ CurTok stA = CurTok stB /\
    CurTok stB <> tok_eof) \/
   (CurTok stB = tok_eof /\ CurTok stA = chr ")")).

(** Where the run outside the parentheses returns a tree, the run
    inside them returns a tree that [f] does not tell apart from it, and
    is where the other is. *)
Definition follows {double B : Type} (f : double -> B) (rest : string)
    (rA rB : result (option (ExprAST double) * globals double)) : Prop :=
  match rB with
  | Ok (Some V, stB') =>
      exists V' stA',
        rA = Ok (Some V', stA') /\
        map_Val f V' = map_Val f V /\
        parsing_wrapped f rest stA' stB'
  | Ok (None, _) | Undefined | OutOfFuel => True
  end.

(** ** Properties *)

Section Properties.

Context {double : Type} (strtod : string -> double) (zero : double).

Implicit Types st : globals double.

(** *** Operator precedences *)

Lemma install_binops_standard st :
  length (BinopPrecedenceOperators st) = NUM_BINOPS ->
  length (BinopPrecedencePrecedence st) = NUM_BINOPS ->
  exists st', install_binops st = Ok st' /\ standard_binops st'.
Proof.
  destruct st as [i l b n t ops precs e j k]; cbn.
  intros Ho Hp.
  destruct ops as [|o0 [|o1 [|o2 [|o3 [|? ?]]]]]; try discriminate.
  destruct precs as [|p0 [|p1 [|p2 [|p3 [|? ?]]]]]; try discriminate.
  eexists; split; [reflexivity | split; reflexivity].
Qed.

Lemma isascii_false_not (c k : Z) :
  isascii c = false -> isascii k = true -> (c =? k) = false.
Proof.
  intros Hc Hk. destruct (Z.eqb_spec c k); [congruence | reflexivity].
Qed.

(** C5: with the table of [main] installed, [GetTokPrecedence] answers
    10 for '<', 20 for '+', 30 for '-', 40 for '*' and the sentinel -1
    for every other value of [CurTok], whatever it is. *)
Theorem GetTokPrecedence_standard st0 :
  length (BinopPrecedenceOperators st0) = NUM_BINOPS ->
  length (BinopPrecedencePrecedence st0) = NUM_BINOPS ->
  exists st1, install_binops st0 = Ok st1 /\
    forall st,
      BinopPrecedenceOperators st = BinopPrecedenceOperators st1 ->
      BinopPrecedencePrecedence st = BinopPrecedencePrecedence st1 ->
      GetTokPrecedence st =
        Ok (if CurTok st =? chr "<" then 10
            else if CurTok st =? chr "+" then 20
            else if CurTok st =? chr "-" then 30
            else if CurTok st =? chr "*" then 40
            else -1).
Proof.
  intros Ho Hp.
  destruct (install_binops_standard st0 Ho Hp) as (st1 & Hinst & Hops & Hprecs).
  exists st1; split; [exact Hinst|].
  intros st Eo Ep. rewrite Hops in Eo. rewrite Hprecs in Ep.
  unfold GetTokPrecedence.
  destruct (isascii (CurTok st)) eqn:Hascii; cbn [negb].
  - unfold NUM_BINOPS, chr. cbn [GetTokPrecedence_loop]. rewrite Eo, Ep. cbn.
    repeat match goal with
           | |- context [?a =? ?b] => destruct (a =? b); [reflexivity|]
           end.
    reflexivity.
  - rewrite !(isascii_false_not (CurTok st)) by (exact Hascii || reflexivity).
    reflexivity.
Qed.

(** *** What a call of the lexer leaves alone *)

Lemma same_frame_refl st : same_frame st st.
Proof. repeat split. Qed.

Lemma same_frame_trans st1 st2 st3 :
  same_frame st1 st2 -> same_frame st2 st3 -> same_frame st1 st3.
Proof.
  unfold same_frame. intros (?&?&?&?&?) (?&?&?&?&?).
  repeat split; congruence.
Qed.

Lemma gettok_rest_frame st lc input t st' :
  gettok_rest st lc input = Ok (t, st') -> same_frame st st'.
Proof.
  unfold gettok_rest. destruct (lc =? EOF).
  - intros [= <- <-]. repeat split.
  - destruct (getchar input). intros [= <- <-]. repeat split.
Qed.

Lemma gettok_rec_frame fuel : forall st t st',
  gettok_rec strtod fuel st = Ok (t, st') -> same_frame st st'.
Proof.
  induction fuel as [|fuel IH]; intros st t st'; cbn [gettok_rec];
    [discriminate|].
  destruct (skip_whitespace _ _) as [lc input].
  destruct (isalpha lc).
  { destruct (read_identifier _ _ _) as [[[[lc' input'] buf] n]| |];
      cbn [bind]; try discriminate.
    destruct (n <? BUFSZ)%nat; [|discriminate].
    destruct (read_cstr _) as [name| |]; cbn [bind]; try discriminate.
    destruct (streq name "def"); [intros [= <- <-]; repeat split|].
    destruct (streq name "extern"); intros [= <- <-]; repeat split. }
  destruct (isdigit lc || (lc =? chr "."))%bool.
  { unfold declare_NumStr.
    destruct (read_number _ _ _ _) as [[[[lc' input'] buf] n]| |];
      cbn [bind]; try discriminate.
    destruct (n <? BUFSZ)%nat; [|discriminate].
    intros [= <- <-]; repeat split. }
  destruct (lc =? chr "#"); [|apply gettok_rest_frame].
  destruct (skip_comment input) as [lc' input'].
  destruct (negb (lc' =? EOF)); [|apply gettok_rest_frame].
  intros H. apply IH in H. destruct H as (?&?&?&?&?). repeat split; assumption.
Qed.

Lemma gettok_frame st t st' :
  gettok strtod st = Ok (t, st') -> same_frame st st'.
Proof. apply gettok_rec_frame. Qed.

Lemma getNextToken_stderr st t st' :
  getNextToken strtod st = Ok (t, st') -> stderr st' = stderr st.
Proof.
  unfold getNextToken.
  destruct (gettok strtod st) as [[t0 st0]| |] eqn:E; cbn [bind];
    try discriminate.
  intros [= <- <-]. apply gettok_frame in E. destruct E as (E & _). exact E.
Qed.

Lemma getNextToken_CurTok st t st' :
  getNextToken strtod st = Ok (t, st') -> CurTok st' = t.
Proof.
  unfold getNextToken.
  destruct (gettok strtod st) as [[t0 st0]| |]; cbn [bind]; try discriminate.
  intros [= <- <-]. reflexivity.
Qed.

(** *** The failure policy of the parser *)

Lemma error_policy_from {A} st0 st (r : result (option A * globals double)) :
  stderr st0 = stderr st -> error_policy st0 r -> error_policy st r.
Proof.
  intros E. destruct r as [[[a|] st']| |]; cbn; trivial.
  - congruence.
  - intros [m H]. exists m. congruence.
Qed.

Lemma Error_policy {A} st0 st msg :
  stderr st0 = stderr st -> error_policy (A := A) st (Error msg st0).
Proof.
  intros E. unfold Error, error_policy, fprintf_stderr; cbn [stderr].
  exists msg. rewrite E. reflexivity.
Qed.

Lemma ErrorP_policy st0 st msg :
  stderr st0 = stderr st -> error_policy st (ErrorP msg st0).
Proof.
  intros E. unfold ErrorP, Error, error_policy, fprintf_stderr;
    cbn [bind stderr].
  exists msg. rewrite E. reflexivity.
Qed.

Lemma Ok_Some_policy {A} st0 st (a : A) :
  stderr st0 = stderr st -> error_policy st (Ok (Some a, st0)).
Proof. intros E; exact E. Qed.

(** Reads the next token in the goal and records that it printed
    nothing. *)
Ltac eat_token :=
  match goal with
  | |- context [getNextToken strtod ?s] =>
      let E := fresh "Etok" in
      destruct (getNextToken strtod s) as [[? ?]| |] eqn:E;
      cbn [bind]; [apply getNextToken_stderr in E | exact I | exact I]
  end.

(** Splits on the result of a call that is known to obey the policy. *)
Tactic Notation "call_with" uconstr(H) :=
  match goal with
  | |- context [bind ?c _] =>
      let P := fresh "Hcall" in
      pose proof (H : error_policy _ c) as P;
      destruct c as [[[?|] ?]| |];
      cbn [bind]; cbn [error_policy] in P; [ | | exact I | exact I]
  end.

Ltac policy_close :=
  first
    [ exact I
    | apply Error_policy; congruence
    | apply ErrorP_policy; congruence
    | apply Ok_Some_policy; congruence
    | match goal with
      | P : exists msg, stderr ?s = _ |- error_policy _ (Ok (None, ?s)) =>
          let m := fresh "m" in
          destruct P as [m P]; exists m; congruence
      end ].

Lemma ParseNumberExpr_policy st :
  error_policy st (ParseNumberExpr strtod st).
Proof. unfold ParseNumberExpr. eat_token. policy_close. Qed.

Section Step.

Variable fuel : nat.
Hypothesis IHExpression :
  forall st, error_policy st (ParseExpression strtod fuel st).
Hypothesis IHPrimary :
  forall st, error_policy st (ParsePrimary strtod fuel st).
Hypothesis IHParen :
  forall st, error_policy st (ParseParenExpr strtod fuel st).
Hypothesis IHIdentifier :
  forall st, error_policy st (ParseIdentifierExpr strtod fuel st).
Hypothesis IHCallArgs : forall Callee Args NumArgs st,
  error_policy st (ParseCallArgs strtod fuel Callee Args NumArgs st).
Hypothesis IHBinOpRHS : forall ExprPrec LHS st,
  error_policy st (ParseBinOpRHS strtod fuel ExprPrec LHS st).

Lemma ParseExpression_step st :
  error_policy st (ParseExpression strtod (S fuel) st).
Proof.
  cbn [ParseExpression]. call_with (IHPrimary _).
  - eapply error_policy_from; [|apply IHBinOpRHS]. assumption.
  - policy_close.
Qed.

Lemma ParsePrimary_step st :
  error_policy st (ParsePrimary strtod (S fuel) st).
Proof.
  cbn [ParsePrimary].
  destruct (CurTok st =? tok_identifier); [apply IHIdentifier|].
  destruct (CurTok st =? tok_number); [apply ParseNumberExpr_policy|].
  destruct (CurTok st =? chr "("); [apply IHParen|].
  policy_close.
Qed.

Lemma ParseParenExpr_step st :
  error_policy st (ParseParenExpr strtod (S fuel) st).
Proof.
  cbn [ParseParenExpr]. eat_token.
  call_with (IHExpression _).
  - destruct (negb _); [policy_close|]. eat_token. policy_close.
  - policy_close.
Qed.

Lemma ParseIdentifierExpr_step st :
  error_policy st (ParseIdentifierExpr strtod (S fuel) st).
Proof.
  cbn [ParseIdentifierExpr].
  destruct (read_cstr _) as [IdName| |]; cbn [bind]; try exact I.
  eat_token.
  destruct (negb _); [policy_close|]. eat_token.
  destruct (negb _).
  - call_with (IHCallArgs _ _ _ _).
    + eat_token. policy_close.
    + policy_close.
  - cbn [bind]. eat_token. policy_close.
Qed.

Lemma ParseCallArgs_step Callee Args NumArgs st :
  error_policy st (ParseCallArgs strtod (S fuel) Callee Args NumArgs st).
Proof.
  cbn [ParseCallArgs]. call_with (IHExpression _).
  - destruct (NumArgs <? BUFSZ)%nat; [|exact I].
    destruct (_ =? chr ")"); [policy_close|].
    destruct (negb _); [policy_close|]. eat_token.
    eapply error_policy_from; [|apply IHCallArgs]. congruence.
  - policy_close.
Qed.

Lemma ParseBinOpRHS_step ExprPrec LHS st :
  error_policy st (ParseBinOpRHS strtod (S fuel) ExprPrec LHS st).
Proof.
  cbn [ParseBinOpRHS].
  destruct (GetTokPrecedence st) as [TokPrec| |]; cbn [bind]; try exact I.
  destruct (TokPrec <? ExprPrec); [policy_close|]. eat_token.
  call_with (IHPrimary _); [|policy_close].
  destruct (GetTokPrecedence _) as [NextPrec| |]; cbn [bind]; try exact I.
  destruct (TokPrec <? NextPrec).
  - call_with (IHBinOpRHS _ _ _); [|policy_close].
    eapply error_policy_from; [|apply IHBinOpRHS]. congruence.
  - cbn [bind]. eapply error_policy_from; [|apply IHBinOpRHS]. congruence.
Qed.

End Step.

Lemma parser_policy fuel :
  (forall st, error_policy st (ParseExpression strtod fuel st)) /\
  (forall st, error_policy st (ParsePrimary strtod fuel st)) /\
  (forall st, error_policy st (ParseParenExpr strtod fuel st)) /\
  (forall st, error_policy st (ParseIdentifierExpr strtod fuel st)) /\
  (forall Callee Args NumArgs st,
      error_policy st (ParseCallArgs strtod fuel Callee Args NumArgs st)) /\
  (forall ExprPrec LHS st,
      error_policy st (ParseBinOpRHS strtod fuel ExprPrec LHS st)).
Proof.
  induction fuel as [|fuel (IHe & IHp & IHpar & IHid & IHargs & IHrhs)].
  - repeat split; intros; exact I.
  - repeat split; intros.
    + apply ParseExpression_step; assumption.
    + apply ParsePrimary_step; assumption.
    + apply ParseParenExpr_step; assumption.
    + apply ParseIdentifierExpr_step; assumption.
    + apply ParseCallArgs_step; assumption.
    + apply ParseBinOpRHS_step; assumption.
Qed.

Lemma ParsePrototype_args_stderr fuel : forall Args NumArgs st r st',
  ParsePrototype_args strtod fuel Args NumArgs st = Ok (r, st') ->
  stderr st' = stderr st.
Proof.
  induction fuel as [|fuel IH]; intros Args NumArgs st r st';
    cbn [ParsePrototype_args]; [discriminate|].
  destruct (getNextToken strtod st) as [[t st1]| |] eqn:E; cbn [bind];
    try discriminate.
  apply getNextToken_stderr in E.
  destruct (t =? tok_identifier).
  - destruct (NumArgs <? BUFSZ)%nat; [|discriminate].
    destruct (read_cstr _); cbn [bind]; try discriminate.
    intros H. apply IH in H. congruence.
  - intros [= <- <-]. exact E.
Qed.

Lemma ParsePrototype_policy fuel st :
  error_policy st (ParsePrototype strtod fuel st).
Proof.
  unfold ParsePrototype.
  destruct (negb _); [policy_close|].
  destruct (read_cstr _); cbn [bind]; try exact I.
  eat_token.
  destruct (negb _); [policy_close|].
  destruct (ParsePrototype_args _ _ _ _ _) as [[[Args NumArgs] st2]| |] eqn:E;
    cbn [bind]; try exact I.
  apply ParsePrototype_args_stderr in E.
  destruct (negb _); [policy_close|].
  eat_token. policy_close.
Qed.

(** Every parsing function obeys the failure policy on every call. *)
Lemma parser_functions_policy fuel st :
  error_policy st (ParseDefinition strtod fuel st) /\
  error_policy st (ParseExtern strtod fuel st) /\
  error_policy st (ParseTopLevelExpr strtod fuel st) /\
  error_policy st (ParsePrototype strtod fuel st) /\
  error_policy st (ParseExpression strtod fuel st) /\
  error_policy st (ParsePrimary strtod fuel st) /\
  error_policy st (ParseNumberExpr strtod st) /\
  error_policy st (ParseParenExpr strtod fuel st) /\
  error_policy st (ParseIdentifierExpr strtod fuel st) /\
  (forall Callee Args NumArgs,
      error_policy st (ParseCallArgs strtod fuel Callee Args NumArgs st)) /\
  (forall ExprPrec LHS,
      error_policy st (ParseBinOpRHS strtod fuel ExprPrec LHS st)).
Proof.
  destruct (parser_policy fuel) as (He & Hp & Hpar & Hid & Hargs & Hrhs).
  repeat split; auto using ParsePrototype_policy, ParseNumberExpr_policy.
  - unfold ParseDefinition. eat_token.
    call_with (ParsePrototype_policy _ _); [|policy_close].
    call_with (He _); policy_close.
  - unfold ParseExtern. eat_token.
    eapply error_policy_from; [|apply ParsePrototype_policy]. assumption.
  - unfold ParseTopLevelExpr. call_with (He _); policy_close.
Qed.

(** *** Top-level expressions and parentheses *)

(** C8: when the expression parses, [ParseTopLevelExpr] returns a
    function whose prototype is named "__anon_expr" and has no
    parameter, and whose body is the parsed expression; it leaves the
    state where [ParseExpression] left it. *)
Theorem ParseTopLevelExpr_anon fuel st E st' :
  ParseExpression strtod fuel st = Ok (Some E, st') ->
  exists F,
    ParseTopLevelExpr strtod fuel st = Ok (Some F, st') /\
    ProtoName (Proto F) = "__anon_expr" /\
    ProtoArgs (Proto F) = [] /\
    ProtoNumArgs (Proto F) = 0%nat /\
    Body F = E.
Proof.
  intros H. unfold ParseTopLevelExpr. rewrite H. cbn [bind].
  eexists. split; [reflexivity|]. repeat split.
Qed.

(** Conversely, a function returned by [ParseTopLevelExpr] has no other
    origin. *)
Lemma ParseTopLevelExpr_inv fuel st F st' :
  ParseTopLevelExpr strtod fuel st = Ok (Some F, st') ->
  ParseExpression strtod fuel st = Ok (Some (Body F), st') /\
  Proto F = mkPrototypeAST "__anon_expr" [] 0.
Proof.
  unfold ParseTopLevelExpr.
  destruct (ParseExpression strtod fuel st) as [[[E|] st1]| |];
    cbn [bind]; try discriminate.
  intros [= <- <-]. split; reflexivity.
Qed.

Lemma ParseParenExpr_eq fuel st :
  ParseParenExpr strtod (S fuel) st =
    let* (_, st) := getNextToken strtod st in
    let* (V, st) := ParseExpression strtod fuel st in
    match V with
    | None => Ok (None, st)
    | Some V =>
        if negb (CurTok st =? chr ")") then Error "expected ')'" st
        else
          let* (_, st) := getNextToken strtod st in
          Ok (Some V, st)
    end.
Proof. reflexivity. Qed.

(** [ParseParenExpr] returns a node exactly when, after the '(',
    [ParseExpression] returns that node and stops on a ')' that can be
    read past; the node is handed on as it is. *)
Lemma ParseParenExpr_returns fuel st V st' :
  ParseParenExpr strtod (S fuel) st = Ok (Some V, st') <->
  exists t1 st1 st2 t2,
    getNextToken strtod st = Ok (t1, st1) /\
    ParseExpression strtod fuel st1 = Ok (Some V, st2) /\
    CurTok st2 = chr ")" /\
    getNextToken strtod st2 = Ok (t2, st').
Proof.
  rewrite ParseParenExpr_eq. split.
  - destruct (getNextToken strtod st) as [[t1 st1]| |] eqn:E0; cbn [bind];
      try discriminate.
    destruct (ParseExpression strtod fuel st1) as [[[W|] st2]| |] eqn:E1;
      cbn [bind]; try discriminate.
    destruct (CurTok st2 =? chr ")") eqn:Hc; cbn [negb];
      [|discriminate].
    destruct (getNextToken strtod st2) as [[t2 st3]| |] eqn:E2; cbn [bind];
      try discriminate.
    intros [= <- <-]. exists t1, st1, st2, t2.
    apply Z.eqb_eq in Hc. auto.
  - intros (t1 & st1 & st2 & t2 & E1 & E2 & Hc & E3).
    rewrite E1; cbn [bind]. rewrite E2; cbn [bind].
    rewrite Hc, Z.eqb_refl; cbn [negb]. rewrite E3. reflexivity.
Qed.

End Properties.

(** ** The parser on the specification's examples *)

Section Examples.

Context {double : Type} (strtod : string -> double) (zero : double).
Variable junk : nat -> nat -> ascii.

(** Precedence climbing gives the trees the specification names, up to
    the value of the number nodes. *)
Lemma parse_1_plus_2_times_3 :
  parse_expression strtod zero "1 + 2 * 3" junk 20 =
    Ok (Some (BinaryExprAST "+"
                (number_node strtod junk 0 "1")
                (BinaryExprAST "*"
                   (number_node strtod junk 1 "2")
                   (number_node strtod junk 2 "3")))).
Proof. vm_compute. reflexivity. Qed.

Lemma parse_1_times_2_plus_3 :
  parse_expression strtod zero "1 * 2 + 3" junk 20 =
    Ok (Some (BinaryExprAST "+"
                (BinaryExprAST "*"
                   (number_node strtod junk 0 "1")
                   (number_node strtod junk 1 "2"))
                (number_node strtod junk 2 "3"))).
Proof. vm_compute. reflexivity. Qed.

Lemma parse_1_minus_2_minus_3 :
  parse_expression strtod zero "1 - 2 - 3" junk 20 =
    Ok (Some (BinaryExprAST "-"
                (BinaryExprAST "-"
                   (number_node strtod junk 0 "1")
                   (number_node strtod junk 1 "2"))
                (number_node strtod junk 2 "3"))).
Proof. vm_compute. reflexivity. Qed.

Lemma parse_call_two_args :
  parse_expression strtod zero "foo(1, 2+3)" junk 20 =
    Ok (Some (CallExprAST "foo"
                [number_node strtod junk 0 "1";
                 BinaryExprAST "+"
                   (number_node strtod junk 1 "2")
                   (number_node strtod junk 2 "3")]
                2)).
Proof. vm_compute. reflexivity. Qed.

Lemma parse_call_no_args :
  parse_expression strtod zero "foo()" junk 20 =
    Ok (Some (CallExprAST "foo" [] 0)).
Proof. vm_compute. reflexivity. Qed.

Lemma parse_variable :
  parse_expression strtod zero "foo" junk 20 =
    Ok (Some (VariableExprAST "foo")).
Proof. vm_compute. reflexivity. Qed.

(** The same shapes with variables for operands, where no number is
    involved. *)
Lemma parse_a_plus_b_times_c :
  parse_expression strtod zero "a + b * c" junk 20 =
    Ok (Some (BinaryExprAST "+" (VariableExprAST "a")
                (BinaryExprAST "*" (VariableExprAST "b")
                   (VariableExprAST "c")))) /\
  parse_expression strtod zero "a * b + c" junk 20 =
    Ok (Some (BinaryExprAST "+"
                (BinaryExprAST "*" (VariableExprAST "a")
                   (VariableExprAST "b"))
                (VariableExprAST "c"))).
Proof. split; vm_compute; reflexivity. Qed.

(** For every two operators of the table, the one of higher precedence
    takes the operand between them, on either side. *)
Lemma parse_higher_binds_tighter (lo hi : ascii) :
  In (lo, hi) [("<", "+"); ("<", "-"); ("<", "*");
               ("+", "-"); ("+", "*"); ("-", "*")]%char ->
  parse_expression strtod zero
    (String "a" (String lo (String "b" (String hi "c")))) junk 20 =
    Ok (Some (BinaryExprAST lo (VariableExprAST "a")
                (BinaryExprAST hi (VariableExprAST "b")
                   (VariableExprAST "c")))) /\
  parse_expression strtod zero
    (String "a" (String hi (String "b" (String lo "c")))) junk 20 =
    Ok (Some (BinaryExprAST lo
                (BinaryExprAST hi (VariableExprAST "a") (VariableExprAST "b"))
                (VariableExprAST "c"))).
Proof.
  cbn [In].
  intros [E|[E|[E|[E|[E|[E|[]]]]]]]; injection E as <- <-;
    split; vm_compute; reflexivity.
Qed.

(** Two occurrences of any one operator of the table group to the
    left. *)
Lemma parse_same_operator_left (op : ascii) :
  In op ["<"; "+"; "-"; "*"]%char ->
  parse_expression strtod zero
    (String "a" (String op (String "b" (String op "c")))) junk 20 =
    Ok (Some (BinaryExprAST op
                (BinaryExprAST op (VariableExprAST "a") (VariableExprAST "b"))
                (VariableExprAST "c"))).
Proof.
  cbn [In]. intros [<-|[<-|[<-|[<-|[]]]]]; vm_compute; reflexivity.
Qed.

(** "(a+b)" and "a+b" give one and the same tree. *)
Lemma parse_parenthesised_same :
  parse_expression strtod zero "(a+b)" junk 20 =
  parse_expression strtod zero "a+b" junk 20.
Proof. vm_compute. reflexivity. Qed.

End Examples.

(** ** The lexer on identifiers, numbers and comments *)

Lemma int_of_char_range (c : ascii) : 0 <= int_of_char c < 256.
Proof.
  unfold int_of_char. pose proof (N_ascii_bounded c). lia.
Qed.

Lemma char_of_int_of_char (c : ascii) : char_of_int (int_of_char c) = c.
Proof.
  unfold char_of_int. rewrite Z.mod_small by apply int_of_char_range.
  unfold int_of_char. rewrite N2Z.id. apply ascii_N_embedding.
Qed.

Lemma int_of_char_not_EOF (c : ascii) : (int_of_char c =? EOF) = false.
Proof.
  apply Z.eqb_neq. pose proof (int_of_char_range c). unfold EOF. lia.
Qed.

Lemma int_of_NUL_inv (c : ascii) : int_of_char c <> 0 -> Ascii.eqb c NUL = false.
Proof.
  intros H. apply Ascii.eqb_neq. intros ->. apply H. reflexivity.
Qed.

Lemma isalnum_not_NUL (c : ascii) :
  isalnum (int_of_char c) = true -> Ascii.eqb c NUL = false.
Proof.
  intros H. apply int_of_NUL_inv. intros E. rewrite E in H. discriminate.
Qed.

Lemma isnumchar_not_NUL (c : ascii) :
  isnumchar (int_of_char c) = true -> Ascii.eqb c NUL = false.
Proof.
  intros H. apply int_of_NUL_inv. intros E. rewrite E in H. discriminate.
Qed.

Lemma length_list_ascii (s : string) :
  length (list_ascii_of_string s) = String.length s.
Proof.
  induction s as [|c s IH]; cbn; [reflexivity | rewrite IH; reflexivity].
Qed.

Lemma store_string_length (s : string) : forall i buf,
  length (store_string s i buf) = length buf.
Proof.
  induction s as [|c s IH]; intros i buf; cbn [store_string]; [reflexivity|].
  rewrite IH. apply length_insert.
Qed.

Lemma store_string_eq (s : string) : forall (i : nat) (buf : list ascii),
  (i + String.length s <= length buf)%nat ->
  store_string s i buf =
    (take i buf ++ list_ascii_of_string s ++ drop (i + String.length s) buf)%list.
Proof.
  induction s as [|c s IH]; intros i buf Hlen; cbn [store_string String.length
    list_ascii_of_string] in *.
  - rewrite Nat.add_0_r. cbn [app]. symmetry. apply take_drop.
  - rewrite IH by (rewrite length_insert; lia).
    assert (Hi : (i < length buf)%nat) by lia.
    rewrite (take_S_r _ i c) by (apply list_lookup_insert_eq; exact Hi).
    rewrite take_insert_ge by lia.
    rewrite drop_insert_lt by lia.
    rewrite <- app_assoc. cbn [app].
    replace (S i + String.length s)%nat with (i + S (String.length s))%nat by lia.
    reflexivity.
Qed.

Lemma cstr_app_NUL (l t : list ascii) :
  forallb (fun c => negb (Ascii.eqb c NUL)) l = true ->
  cstr (l ++ NUL :: t) = string_of_list_ascii l.
Proof.
  induction l as [|c l IH]; cbn [forallb app cstr string_of_list_ascii].
  - reflexivity.
  - intros H. apply andb_prop in H. destruct H as [Hc Hl].
    apply negb_true_iff in Hc. rewrite Hc, IH by exact Hl. reflexivity.
Qed.

Lemma has_NUL_app_NUL (l t : list ascii) : has_NUL (l ++ NUL :: t) = true.
Proof.
  induction l as [|c l IH]; cbn [app has_NUL].
  - reflexivity.
  - rewrite IH. apply orb_true_r.
Qed.

Lemma all_chars_not_NUL (p : Z -> bool) (s : string) :
  (forall c, p (int_of_char c) = true -> Ascii.eqb c NUL = false) ->
  all_chars p s = true ->
  forallb (fun c => negb (Ascii.eqb c NUL)) (list_ascii_of_string s) = true.
Proof.
  intros Hp. induction s as [|c s IH]; cbn [all_chars list_ascii_of_string forallb].
  - reflexivity.
  - intros H. apply andb_prop in H. destruct H as [Hc Hs].
    rewrite (Hp c Hc), IH by exact Hs. reflexivity.
Qed.

(** The buffer once a NUL closed the text [s] stored from index [i]. *)
Lemma store_string_NUL (s : string) (i : nat) (buf : list ascii) :
  (i + String.length s < length buf)%nat ->
  exists t,
    <[(i + String.length s)%nat := NUL]> (store_string s i buf) =
      (take i buf ++ list_ascii_of_string s ++ NUL :: t)%list.
Proof.
  intros Hlen. rewrite store_string_eq by lia.
  rewrite app_assoc.
  assert (Hl : length (take i buf ++ list_ascii_of_string s)%list
               = (i + String.length s)%nat).
  { rewrite length_app, length_take, length_list_ascii. lia. }
  rewrite insert_app_r_alt by lia. rewrite Hl, Nat.sub_diag.
  destruct (drop (i + String.length s) buf) as [|x t] eqn:E.
  - apply (f_equal (@length ascii)) in E. rewrite length_drop in E.
    cbn in E. lia.
  - exists t. rewrite <- app_assoc. reflexivity.
Qed.

Lemma getchar_stops (p : Z -> bool) (rest : string) :
  stops p rest = true -> p (fst (getchar rest)) = false \/ rest = EmptyString.
Proof.
  destruct rest as [|c r]; cbn; [right; reflexivity|].
  intros H. left. apply negb_true_iff. exact H.
Qed.

Lemma read_identifier_spec (s : string) : forall rest buf i,
  all_chars isalnum s = true ->
  stops isalnum rest = true ->
  (i + String.length s <= BUFSZ)%nat ->
  read_identifier (s ++ rest) buf i =
    Ok (fst (getchar rest), snd (getchar rest), store_string s i buf,
        (i + String.length s)%nat).
Proof.
  induction s as [|c s IH]; intros rest buf i Hs Hrest Hlen;
    cbn [String.append all_chars String.length store_string] in *.
  - rewrite Nat.add_0_r.
    destruct rest as [|c r]; cbn [read_identifier getchar fst snd];
      [reflexivity|].
    cbn [stops] in Hrest. apply negb_true_iff in Hrest. rewrite Hrest.
    reflexivity.
  - apply andb_prop in Hs. destruct Hs as [Hc Hs].
    cbn [read_identifier]. rewrite Hc.
    assert (Hi : (i <? BUFSZ)%nat = true) by (apply Nat.ltb_lt; lia).
    rewrite Hi, char_of_int_of_char.
    rewrite IH by (trivial; lia).
    replace (S i + String.length s)%nat with (i + S (String.length s))%nat
      by lia.
    reflexivity.
Qed.

Lemma read_number_spec (s : string) : forall c rest buf i,
  all_chars isnumchar s = true ->
  stops isnumchar rest = true ->
  (i + S (String.length s) <= BUFSZ)%nat ->
  read_number (int_of_char c) (s ++ rest) buf i =
    Ok (fst (getchar rest), snd (getchar rest), store_string (String c s) i buf,
        (i + S (String.length s))%nat).
Proof.
  induction s as [|d s IH]; intros c rest buf i Hs Hrest Hlen;
    cbn [String.append all_chars String.length] in *.
  - assert (Hi : (i <? BUFSZ)%nat = true) by (apply Nat.ltb_lt; lia).
    destruct rest as [|e r]; cbn [read_number getchar fst snd store_string];
      rewrite Hi, char_of_int_of_char, Nat.add_1_r; [reflexivity|].
    cbn [stops] in Hrest. apply negb_true_iff in Hrest.
    unfold isnumchar in Hrest. rewrite Hrest. reflexivity.
  - apply andb_prop in Hs. destruct Hs as [Hd Hs].
    assert (Hi : (i <? BUFSZ)%nat = true) by (apply Nat.ltb_lt; lia).
    cbn [read_number]. rewrite Hi, char_of_int_of_char.
    unfold isnumchar in Hd. rewrite Hd.
    rewrite IH by (trivial; lia).
    cbn [store_string].
    replace (S i + S (String.length s))%nat
      with (i + S (S (String.length s)))%nat by lia.
    reflexivity.
Qed.

Section LexerProperties.

Context {double : Type} (strtod : string -> double).

Implicit Types st : globals double.

Lemma gettok_word st c s rest :
  length (IdentifierStr st) = BUFSZ ->
  skip_whitespace (LastChar st) (stdin st) = (int_of_char c, (s ++ rest)%string) ->
  isalpha (int_of_char c) = true ->
  all_chars isalnum s = true ->
  stops isalnum rest = true ->
  (String.length (String c s) <= 63)%nat ->
  exists buf,
    gettok strtod st =
      Ok (word_token (String c s),
          set_IdentifierStr
            (set_lexer st (snd (getchar rest)) (fst (getchar rest))) buf) /\
    cstr buf = String c s /\ has_NUL buf = true /\ length buf = BUFSZ.
Proof.
  intros Hbuf Hskip Hc Hs Hrest Hlen. cbn [String.length] in Hlen.
  unfold gettok. cbn [gettok_rec]. rewrite Hskip, Hc.
  rewrite char_of_int_of_char.
  rewrite read_identifier_spec by (trivial; unfold BUFSZ; lia).
  cbn [bind fst snd].
  assert (Hn : (1 + String.length s <? BUFSZ)%nat = true)
    by (apply Nat.ltb_lt; unfold BUFSZ; lia).
  rewrite Hn.
  change (store_string s 1 (<[0%nat:=c]> (IdentifierStr st)))
    with (store_string (String c s) 0 (IdentifierStr st)).
  destruct (store_string_NUL (String c s) 0 (IdentifierStr st)) as [t Ht].
  { cbn [String.length]. rewrite Hbuf. unfold BUFSZ. lia. }
  change (take 0 (IdentifierStr st)) with (@nil ascii) in Ht.
  cbn [app] in Ht.
  change (0 + String.length (String c s))%nat with (1 + String.length s)%nat
    in Ht.
  set (buf := <[(1 + String.length s)%nat := NUL]>
                (store_string (String c s) 0 (IdentifierStr st))) in *.
  assert (Hcstr : cstr buf = String c s).
  { rewrite Ht, cstr_app_NUL.
    - apply string_of_list_ascii_of_string.
    - apply (all_chars_not_NUL isalnum); [apply isalnum_not_NUL|].
      cbn [all_chars]. rewrite Hs. unfold isalnum. rewrite Hc. reflexivity. }
  assert (HNUL : has_NUL buf = true).
  { rewrite Ht. apply has_NUL_app_NUL. }
  exists buf. split; [|split; [exact Hcstr|split; [exact HNUL|]]].
  - unfold read_cstr. rewrite HNUL, Hcstr. cbn [bind]. unfold word_token.
    destruct (streq (String c s) "def"); [reflexivity|].
    destruct (streq (String c s) "extern"); reflexivity.
  - unfold buf. rewrite length_insert, store_string_length. exact Hbuf.
Qed.

(** C4: an identifier [name] = [c s] ([a-zA-Z][a-zA-Z0-9]*, at most 63
    characters) that starts the next token and is followed by the end of
    the input or by a character that is not alphanumeric: [gettok] leaves
    exactly [name] in [IdentifierStr] and returns [tok_def] for "def",
    [tok_extern] for "extern" and [tok_identifier] for every other
    name. *)
Theorem gettok_identifier st c s rest :
  length (IdentifierStr st) = BUFSZ ->
  skip_whitespace (LastChar st) (stdin st) = (int_of_char c, (s ++ rest)%string) ->
  isalpha (int_of_char c) = true ->
  all_chars isalnum s = true ->
  stops isalnum rest = true ->
  (String.length (String c s) <= 63)%nat ->
  exists tok st',
    gettok strtod st = Ok (tok, st') /\
    cstr (IdentifierStr st') = String c s /\
    has_NUL (IdentifierStr st') = true /\
    (String c s = "def" -> tok = tok_def) /\
    (String c s = "extern" -> tok = tok_extern) /\
    (String c s <> "def" -> String c s <> "extern" -> tok = tok_identifier).
Proof.
  intros Hbuf Hskip Hc Hs Hrest Hlen.
  destruct (gettok_word st c s rest Hbuf Hskip Hc Hs Hrest Hlen)
    as (buf & Hget & Hcstr & HNUL & _).
  eexists _, _. split; [exact Hget|]. cbn [IdentifierStr set_IdentifierStr].
  split; [exact Hcstr|]. split; [exact HNUL|].
  unfold word_token, streq. repeat split.
  - intros ->. reflexivity.
  - intros ->. reflexivity.
  - intros Hd He.
    apply String.eqb_neq in Hd. apply String.eqb_neq in He.
    rewrite Hd, He. reflexivity.
Qed.

Lemma isnumchar_not_alpha (z : Z) : isnumchar z = true -> isalpha z = false.
Proof.
  unfold isnumchar, isdigit, isalpha, chr. intros H.
  apply orb_prop in H. destruct H as [H|H].
  - apply andb_prop in H. destruct H as [H1 H2].
    apply Z.leb_le in H1, H2.
    apply orb_false_iff; split; apply andb_false_iff; left;
      apply Z.leb_gt; lia.
  - apply Z.eqb_eq in H. subst z. reflexivity.
Qed.

(** X1: What [gettok] does on a numeric literal [c s] ([0-9.]+, at most 62
    characters) that starts the next token: it returns [tok_number], and
    [NumVal] is [strtod] of the literal behind the indeterminate byte of
    [NumStr[0]]. *)
Lemma gettok_number st c s rest :
  skip_whitespace (LastChar st) (stdin st) = (int_of_char c, (s ++ rest)%string) ->
  isnumchar (int_of_char c) = true ->
  all_chars isnumchar s = true ->
  stops isnumchar rest = true ->
  (String.length (String c s) <= 62)%nat ->
  gettok strtod st =
    Ok (tok_number,
        set_NumVal
          (set_lexer (snd (declare_NumStr st))
             (snd (getchar rest)) (fst (getchar rest)))
          (strtod (NumStr_text (indeterminate st (NumStr_decls st) 0)
                     (String c s)))).
Proof.
  intros Hskip Hc Hs Hrest Hlen. cbn [String.length] in Hlen.
  unfold gettok. cbn [gettok_rec]. rewrite Hskip.
  rewrite (isnumchar_not_alpha _ Hc).
  change (isdigit (int_of_char c) || (int_of_char c =? chr "."))%bool
    with (isnumchar (int_of_char c)).
  rewrite Hc. unfold declare_NumStr at 1. cbn [snd].
  rewrite read_number_spec by (trivial; unfold BUFSZ; lia).
  cbn [bind fst snd].
  assert (Hn : (1 + S (String.length s) <? BUFSZ)%nat = true)
    by (apply Nat.ltb_lt; unfold BUFSZ; lia).
  rewrite Hn.
  set (buf0 := map (indeterminate st (NumStr_decls st)) (seq 0 BUFSZ)).
  destruct (store_string_NUL (String c s) 1 buf0) as [t Ht].
  { unfold buf0. rewrite length_map, length_seq. cbn [String.length].
    unfold BUFSZ. lia. }
  cbn [String.length] in Ht. rewrite Ht.
  change (take 1 buf0) with [indeterminate st (NumStr_decls st) 0%nat].
  cbn [app cstr]. unfold NumStr_text.
  destruct (Ascii.eqb _ NUL); [reflexivity|].
  rewrite cstr_app_NUL.
  - rewrite string_of_list_ascii_of_string. reflexivity.
  - apply (all_chars_not_NUL isnumchar); [apply isnumchar_not_NUL|].
    cbn [all_chars]. rewrite Hc, Hs. reflexivity.
Qed.

End LexerProperties.

(** The text handed to [strtod] is never the literal itself. *)
Lemma NumStr_text_not_literal (j : ascii) (lit : string) :
  lit <> EmptyString -> NumStr_text j lit <> lit.
Proof.
  intros Hne. unfold NumStr_text. destruct (Ascii.eqb j NUL).
  - congruence.
  - intros E. apply (f_equal String.length) in E. cbn in E. lia.
Qed.

(** *** Comments *)

Lemma length_append (s1 s2 : string) :
  String.length (s1 ++ s2) = (String.length s1 + String.length s2)%nat.
Proof.
  induction s1 as [|c s1 IH]; cbn; [reflexivity | rewrite IH; reflexivity].
Qed.

Lemma skip_whitespace_length (input : string) : forall lc,
  (String.length (snd (skip_whitespace lc input)) <= String.length input)%nat.
Proof.
  induction input as [|c input IH]; intros lc; cbn [skip_whitespace];
    destruct (isspace lc); cbn [snd String.length]; try lia.
  specialize (IH (int_of_char c)). lia.
Qed.

Lemma skip_comment_length (input : string) :
  (fst (skip_comment input) =? EOF) = false ->
  (String.length (snd (skip_comment input)) < String.length input)%nat.
Proof.
  induction input as [|c input IH]; cbn [skip_comment].
  - cbn. discriminate.
  - destruct (negb (int_of_char c =? 10) && negb (int_of_char c =? 13))%bool;
      cbn [fst snd String.length]; intros H; [apply IH in H|]; lia.
Qed.

Lemma skip_comment_line (text : string) : forall eol rest,
  all_chars incomment text = true ->
  incomment (int_of_char eol) = false ->
  skip_comment (text ++ String eol rest) = (int_of_char eol, rest).
Proof.
  induction text as [|c text IH]; intros eol rest Ht He;
    cbn [String.append skip_comment all_chars] in *.
  - unfold incomment in He. rewrite He. reflexivity.
  - apply andb_prop in Ht. destruct Ht as [Hc Ht].
    unfold incomment in Hc. rewrite Hc. apply IH; assumption.
Qed.

Lemma skip_comment_eof (text : string) :
  all_chars incomment text = true ->
  skip_comment text = (EOF, EmptyString).
Proof.
  induction text as [|c text IH]; cbn [skip_comment all_chars].
  - reflexivity.
  - intros Ht. apply andb_prop in Ht. destruct Ht as [Hc Ht].
    unfold incomment in Hc. rewrite Hc. apply IH; assumption.
Qed.

Section Comments.

Context {double : Type} (strtod : string -> double).

Implicit Types st : globals double.

(** More fuel than the unread input is long never changes the answer. *)
Lemma gettok_rec_fuel (n : nat) : forall m st,
  (String.length (stdin st) < n)%nat ->
  (String.length (stdin st) < m)%nat ->
  gettok_rec strtod n st = gettok_rec strtod m st.
Proof.
  induction n as [|n IH]; intros m st Hn Hm; [lia|].
  destruct m as [|m]; [lia|].
  cbn [gettok_rec].
  pose proof (skip_whitespace_length (stdin st) (LastChar st)) as Hws.
  destruct (skip_whitespace (LastChar st) (stdin st)) as [lc input].
  cbn [snd] in Hws.
  destruct (isalpha lc); [reflexivity|].
  destruct (isdigit lc || (lc =? chr "."))%bool; [reflexivity|].
  destruct (lc =? chr "#"); [|reflexivity].
  pose proof (skip_comment_length input) as Hc.
  destruct (skip_comment input) as [lc' input']. cbn [fst snd] in Hc.
  destruct (lc' =? EOF); cbn [negb]; [reflexivity|].
  specialize (Hc eq_refl).
  apply IH; cbn [stdin set_lexer nested_gettok]; lia.
Qed.

(** The look-ahead character matters only through the white space
    skipped. *)
Lemma gettok_rec_lookahead (fuel : nat) st input lc1 lc2 :
  skip_whitespace lc1 input = skip_whitespace lc2 input ->
  gettok_rec strtod fuel (set_lexer st input lc1) =
  gettok_rec strtod fuel (set_lexer st input lc2).
Proof.
  intros H. destruct fuel as [|fuel]; [reflexivity|].
  cbn [gettok_rec]. cbn [stdin LastChar set_lexer]. rewrite H.
  reflexivity.
Qed.

Lemma skip_whitespace_blank (lc1 lc2 : Z) (input : string) :
  isspace lc1 = true -> isspace lc2 = true ->
  skip_whitespace lc1 input = skip_whitespace lc2 input.
Proof.
  intros H1 H2. destruct input; cbn [skip_whitespace]; rewrite H1, H2;
    reflexivity.
Qed.

Lemma skip_whitespace_nonblank (lc : Z) (input : string) :
  isspace lc = false -> skip_whitespace lc input = (lc, input).
Proof.
  intros H. destruct input; cbn [skip_whitespace]; rewrite H; reflexivity.
Qed.

(** One step of [gettok] when a comment starts the input. *)
Lemma gettok_rec_comment fuel st input :
  isspace (LastChar st) = true ->
  stdin st = String "#" input ->
  gettok_rec strtod (S fuel) st =
    if negb (fst (skip_comment input) =? EOF)
    then gettok_rec strtod fuel
           (nested_gettok
              (set_lexer st (snd (skip_comment input))
                 (fst (skip_comment input))))
    else gettok_rest st (fst (skip_comment input)) (snd (skip_comment input)).
Proof.
  intros Hsp Hin. cbn [gettok_rec]. rewrite Hin.
  cbn [skip_whitespace]. rewrite Hsp.
  rewrite skip_whitespace_nonblank by reflexivity.
  change (isalpha (int_of_char "#")) with false.
  change (isdigit (int_of_char "#") || (int_of_char "#" =? chr "."))%bool
    with false.
  change (int_of_char "#" =? chr "#") with true. cbn match.
  destruct (skip_comment input). reflexivity.
Qed.

Lemma gettok_comment_line st text eol rest :
  isspace (LastChar st) = true ->
  all_chars incomment text = true ->
  eol = "010"%char \/ eol = "013"%char ->
  gettok strtod (with_stdin st (String "#" (text ++ String eol rest))) =
  gettok strtod (with_stdin (nested_gettok st) rest).
Proof.
  intros Hsp Ht Heol.
  assert (He : incomment (int_of_char eol) = false)
    by (destruct Heol as [-> | ->]; reflexivity).
  assert (Hesp : isspace (int_of_char eol) = true)
    by (destruct Heol as [-> | ->]; reflexivity).
  unfold gettok at 1.
  rewrite (gettok_rec_comment _ _ (text ++ String eol rest))
    by (trivial; reflexivity).
  rewrite (skip_comment_line text eol rest Ht He). cbn [fst snd].
  rewrite int_of_char_not_EOF. cbn [negb].
  unfold gettok, with_stdin. cbn [stdin set_lexer].
  rewrite (gettok_rec_fuel _ (S (String.length rest)))
    by (cbn [stdin set_lexer nested_gettok String.length];
        rewrite ?length_append; cbn [String.length]; lia).
  change (nested_gettok
            (set_lexer (set_lexer st (String "#" (text ++ String eol rest))
                          (LastChar st)) rest (int_of_char eol)))
    with (set_lexer (nested_gettok st) rest (int_of_char eol)).
  cbn [LastChar nested_gettok].
  apply gettok_rec_lookahead, skip_whitespace_blank; assumption.
Qed.

Lemma gettok_comment_eof st text :
  isspace (LastChar st) = true ->
  all_chars incomment text = true ->
  gettok strtod (with_stdin st (String "#" text)) =
    Ok (tok_eof, set_lexer st EmptyString EOF).
Proof.
  intros Hsp Ht.
  unfold gettok.
  rewrite (gettok_rec_comment _ _ text) by (trivial; reflexivity).
  rewrite (skip_comment_eof text Ht). reflexivity.
Qed.

(** *** The lexer always answers *)

Lemma read_identifier_defined (input : string) : forall buf i,
  read_identifier input buf i <> OutOfFuel.
Proof.
  induction input as [|c input IH]; intros buf i; cbn [read_identifier];
    [discriminate|].
  destruct (isalnum _); [|discriminate].
  destruct (i <? BUFSZ)%nat; [apply IH | discriminate].
Qed.

Lemma read_number_defined (input : string) : forall lc buf i,
  read_number lc input buf i <> OutOfFuel.
Proof.
  induction input as [|c input IH]; intros lc buf i; cbn [read_number];
    destruct (i <? BUFSZ)%nat; try discriminate.
  destruct (_ || _)%bool; [apply IH | discriminate].
Qed.

Lemma gettok_rest_defined st lc input : gettok_rest st lc input <> OutOfFuel.
Proof.
  unfold gettok_rest. destruct (lc =? EOF); [discriminate|].
  destruct (getchar input). discriminate.
Qed.

Lemma gettok_rec_defined (n : nat) : forall st,
  (String.length (stdin st) < n)%nat -> gettok_rec strtod n st <> OutOfFuel.
Proof.
  induction n as [|n IH]; intros st Hn; [lia|].
  cbn [gettok_rec].
  pose proof (skip_whitespace_length (stdin st) (LastChar st)) as Hws.
  destruct (skip_whitespace (LastChar st) (stdin st)) as [lc input].
  cbn [snd] in Hws.
  destruct (isalpha lc).
  { pose proof (read_identifier_defined input
                  (<[0%nat := char_of_int lc]> (IdentifierStr st)) 1) as Hr.
    destruct (read_identifier _ _ _) as [[[[lc' input'] buf] k]| |];
      cbn [bind]; try congruence.
    destruct (k <? BUFSZ)%nat; [|discriminate].
    unfold read_cstr. destruct (has_NUL _); cbn [bind]; [|discriminate].
    destruct (streq _ "def"); [discriminate|].
    destruct (streq _ "extern"); discriminate. }
  destruct (isdigit lc || (lc =? chr "."))%bool.
  { unfold declare_NumStr.
    pose proof (read_number_defined input lc
                  (map (indeterminate st (NumStr_decls st)) (seq 0 BUFSZ)) 1)
      as Hr.
    destruct (read_number _ _ _ _) as [[[[lc' input'] buf] k]| |];
      cbn [bind]; try congruence.
    destruct (k <? BUFSZ)%nat; discriminate. }
  destruct (lc =? chr "#"); [|apply gettok_rest_defined].
  pose proof (skip_comment_length input) as Hc.
  destruct (skip_comment input) as [lc' input']. cbn [fst snd] in Hc.
  destruct (lc' =? EOF); cbn [negb]; [apply gettok_rest_defined|].
  specialize (Hc eq_refl). apply IH. cbn [stdin set_lexer nested_gettok]. lia.
Qed.

(** [gettok] returns a token or runs into undefined behaviour (a name or
    a number that overflows its buffer); it never lacks fuel. *)
Lemma gettok_defined st : gettok strtod st <> OutOfFuel.
Proof. apply gettok_rec_defined. lia. Qed.

Lemma getNextToken_defined st : getNextToken strtod st <> OutOfFuel.
Proof.
  unfold getNextToken. pose proof (gettok_defined st) as H.
  destruct (gettok strtod st) as [[t st']| |]; cbn [bind]; congruence.
Qed.

(** *** Tokens do not depend on the indeterminate bytes *)

Lemma read_number_buffer (input : string) : forall lc buf1 buf2 i,
  match read_number lc input buf1 i, read_number lc input buf2 i with
  | Ok (lc1, in1, _, n1), Ok (lc2, in2, _, n2) =>
      lc1 = lc2 /\ in1 = in2 /\ n1 = n2
  | Undefined, Undefined => True
  | _, _ => False
  end.
Proof.
  induction input as [|c input IH]; intros lc buf1 buf2 i;
    cbn [read_number]; destruct (i <? BUFSZ)%nat; auto.
  destruct (_ || _)%bool; [apply IH | auto].
Qed.

Lemma gettok_rest_same st1 st2 lc input :
  same_lexer st1 st2 ->
  same_answer (gettok_rest st1 lc input) (gettok_rest st2 lc input).
Proof.
  intros (_ & _ & Hid). unfold gettok_rest.
  destruct (lc =? EOF); [|destruct (getchar input)];
    cbn; repeat split; assumption.
Qed.

Lemma gettok_rec_same (fuel : nat) : forall st1 st2,
  same_lexer st1 st2 ->
  same_answer (gettok_rec strtod fuel st1) (gettok_rec strtod fuel st2).
Proof.
  induction fuel as [|fuel IH]; intros st1 st2 Hsame; [exact I|].
  pose proof Hsame as (Hin & Hlc & Hid).
  cbn [gettok_rec]. rewrite Hin, Hlc, Hid.
  destruct (skip_whitespace (LastChar st2) (stdin st2)) as [lc input].
  destruct (isalpha lc).
  { destruct (read_identifier _ _ _) as [[[[lc' input'] buf] k]| |];
      cbn [bind]; try exact I.
    destruct (k <? BUFSZ)%nat; [|exact I].
    destruct (read_cstr _) as [name| |]; cbn [bind]; try exact I.
    destruct (streq name "def"); [repeat split|].
    destruct (streq name "extern"); repeat split. }
  destruct (isdigit lc || (lc =? chr "."))%bool.
  { unfold declare_NumStr.
    pose proof (read_number_buffer input lc
      (map (indeterminate st1 (NumStr_decls st1)) (seq 0 BUFSZ))
      (map (indeterminate st2 (NumStr_decls st2)) (seq 0 BUFSZ)) 1) as Hr.
    destruct (read_number lc input
                (map (indeterminate st1 _) _) 1)
      as [[[[lc1 in1] b1] n1]| |];
      destruct (read_number lc input
                  (map (indeterminate st2 _) _) 1)
        as [[[[lc2 in2] b2] n2]| |]; cbn [bind]; try contradiction;
      try exact I.
    destruct Hr as (-> & -> & ->).
    destruct (n2 <? BUFSZ)%nat; [|exact I].
    repeat split. exact Hid. }
  destruct (lc =? chr "#"); [|apply gettok_rest_same; exact Hsame].
  destruct (skip_comment input) as [lc' input'].
  destruct (negb (lc' =? EOF)); [|apply gettok_rest_same; exact Hsame].
  apply IH. repeat split. exact Hid.
Qed.

Lemma gettok_same st1 st2 :
  same_lexer st1 st2 ->
  same_answer (gettok strtod st1) (gettok strtod st2).
Proof.
  intros Hsame. unfold gettok. destruct Hsame as (Hin & Hrest).
  rewrite Hin. apply gettok_rec_same. split; assumption.
Qed.

(** Runs that differ only in the indeterminate bytes, in [NumVal] or in
    the parser's variables see the same tokens. *)
Lemma tokens_same (n : nat) : forall st1 st2,
  same_lexer st1 st2 -> tokens strtod n st1 = tokens strtod n st2.
Proof.
  induction n as [|n IH]; intros st1 st2 Hsame; cbn [tokens]; [reflexivity|].
  pose proof (gettok_same st1 st2 Hsame) as H.
  destruct (gettok strtod st1) as [[t1 s1]| |];
    destruct (gettok strtod st2) as [[t2 s2]| |]; cbn in H;
    try contradiction; try reflexivity.
  destruct H as [-> H]. f_equal. apply IH. exact H.
Qed.

(** C9: with the look-ahead on white space (as at the start of the
    program), putting a comment line — '#', any text without line end,
    then '\n' or '\r' — in front of the input changes neither the first
    token nor the look-ahead, the unread input and [IdentifierStr] that
    [gettok] leaves, hence no token of the sequence: whatever
    indeterminate bytes the two runs meet.  [NumVal] is left out of the
    comparison: a number behind the comment is read by the nested call
    of [gettok], into a buffer of its own.  And a comment that runs into
    the end of the input yields [tok_eof], with the end of file as
    look-ahead, without a nested call. *)
Theorem comment_line_transparent st text eol rest :
  isspace (LastChar st) = true ->
  all_chars incomment text = true ->
  eol = "010"%char \/ eol = "013"%char ->
  (forall st2,
     same_lexer st st2 ->
     same_answer
       (gettok strtod
          (with_stdin st (String "#" (text ++ String eol rest))))
       (gettok strtod (with_stdin st2 rest))) /\
  (forall n st2,
     same_lexer st st2 ->
     tokens strtod n (with_stdin st (String "#" (text ++ String eol rest))) =
     tokens strtod n (with_stdin st2 rest)) /\
  gettok strtod (with_stdin st (String "#" text)) =
    Ok (tok_eof, set_lexer st EmptyString EOF).
Proof.
  intros Hsp Ht Heol.
  pose proof (gettok_comment_line st text eol rest Hsp Ht Heol) as H.
  assert (Hsame : forall st2, same_lexer st st2 ->
            same_lexer (with_stdin (nested_gettok st) rest)
                       (with_stdin st2 rest))
    by (intros st2 (_ & Hlc & Hid); repeat split; assumption).
  split; [|split].
  - intros st2 H2. rewrite H. apply gettok_same, Hsame, H2.
  - intros n st2 H2.
    transitivity (tokens strtod n (with_stdin (nested_gettok st) rest)).
    + destruct n as [|n]; cbn [tokens]; [reflexivity|]. rewrite H.
      reflexivity.
    + apply tokens_same, Hsame, H2.
  - apply gettok_comment_eof; assumption.
Qed.

End Comments.

(** ** Runs of the program

    The statements above hold for every [strtod]; the runs below read it
    as [Decimal.strtod]. *)

(** C1 at the failing input: the program reads "3.14" while [NumStr[0]]
    happens to hold NUL.  [gettok] returns [tok_number], but [strtod] is
    given the empty string and [NumVal] becomes 0, not the value 3.14
    (157/50) of the literal. *)
Theorem gettok_number_loses_literal :
  exists st',
    gettok Decimal.strtod (load Decimal.zero "3.14" all_NUL)
      = Ok (tok_number, st') /\
    NumVal st' = 0%Q /\
    Decimal.strtod "3.14" = (157 # 50)%Q /\
    NumVal st' <> Decimal.strtod "3.14".
Proof.
  eexists. split; [vm_compute; reflexivity|].
  cbn [NumVal set_NumVal]. repeat split. discriminate.
Qed.

(** Other contents of the slot: a digit is read as part of the number, a
    sign negates it, a blank is skipped. *)
Lemma gettok_number_other_bytes :
  NumVal (primed "3.14" (fun _ _ => "1"%char)) = (657 # 50)%Q /\
  NumVal (primed "3.14" (fun _ _ => "-"%char)) = (- 157 # 50)%Q /\
  NumVal (primed "3.14" all_blank) = (157 # 50)%Q.
Proof. repeat split. Qed.

(** C2 at the failing input: with NUL in slot 0 of each [NumStr], the two
    expressions get the trees the specification names, except that every
    number node holds 0. *)
Theorem precedence_examples_lose_numbers :
  parse_expression Decimal.strtod Decimal.zero "1 + 2 * 3" all_NUL 20 =
    Ok (Some (BinaryExprAST "+" (NumberExprAST 0%Q)
                (BinaryExprAST "*" (NumberExprAST 0%Q) (NumberExprAST 0%Q)))) /\
  parse_expression Decimal.strtod Decimal.zero "1 * 2 + 3" all_NUL 20 =
    Ok (Some (BinaryExprAST "+"
                (BinaryExprAST "*" (NumberExprAST 0%Q) (NumberExprAST 0%Q))
                (NumberExprAST 0%Q))).
Proof. split; vm_compute; reflexivity. Qed.

(** When the slot holds a blank the numbers come out as written. *)
Lemma precedence_examples_blank :
  parse_expression Decimal.strtod Decimal.zero "1 + 2 * 3" all_blank 20 =
    Ok (Some (BinaryExprAST "+" (NumberExprAST 1%Q)
                (BinaryExprAST "*" (NumberExprAST 2%Q) (NumberExprAST 3%Q)))) /\
  parse_expression Decimal.strtod Decimal.zero "1 * 2 + 3" all_blank 20 =
    Ok (Some (BinaryExprAST "+"
                (BinaryExprAST "*" (NumberExprAST 1%Q) (NumberExprAST 2%Q))
                (NumberExprAST 3%Q))).
Proof. split; vm_compute; reflexivity. Qed.

(** C3 at the failing input: "1 - 2 - 3" groups to the left, with 0 in
    every number node. *)
Theorem left_grouping_loses_numbers :
  parse_expression Decimal.strtod Decimal.zero "1 - 2 - 3" all_NUL 20 =
    Ok (Some (BinaryExprAST "-"
                (BinaryExprAST "-" (NumberExprAST 0%Q) (NumberExprAST 0%Q))
                (NumberExprAST 0%Q))).
Proof. vm_compute; reflexivity. Qed.

Lemma left_grouping_blank :
  parse_expression Decimal.strtod Decimal.zero "1 - 2 - 3" all_blank 20 =
    Ok (Some (BinaryExprAST "-"
                (BinaryExprAST "-" (NumberExprAST 1%Q) (NumberExprAST 2%Q))
                (NumberExprAST 3%Q))).
Proof. vm_compute; reflexivity. Qed.

(** C6 at the failing input: the variable reference and both calls have
    the shape the specification names, the arguments in source order and
    [NumArgs] 2 and 0; the number nodes of "foo(1, 2+3)" hold 0. *)
Theorem identifier_expr_loses_numbers :
  parse_expression Decimal.strtod Decimal.zero "foo" all_NUL 20 =
    Ok (Some (VariableExprAST "foo")) /\
  parse_expression Decimal.strtod Decimal.zero "foo()" all_NUL 20 =
    Ok (Some (CallExprAST "foo" [] 0)) /\
  parse_expression Decimal.strtod Decimal.zero "foo(1, 2+3)" all_NUL 20 =
    Ok (Some (CallExprAST "foo"
                [NumberExprAST 0%Q;
                 BinaryExprAST "+" (NumberExprAST 0%Q) (NumberExprAST 0%Q)]
                2)).
Proof. repeat split; vm_compute; reflexivity. Qed.

Lemma identifier_expr_blank :
  parse_expression Decimal.strtod Decimal.zero "foo(1, 2+3)" all_blank 20 =
    Ok (Some (CallExprAST "foo"
                [NumberExprAST 1%Q;
                 BinaryExprAST "+" (NumberExprAST 2%Q) (NumberExprAST 3%Q)]
                2)).
Proof. vm_compute; reflexivity. Qed.

(** An identifier that is followed by something else than '(' is a
    variable reference, whatever follows. *)
Lemma identifier_then_operator :
  parse_expression Decimal.strtod Decimal.zero "foo + bar" all_NUL 20 =
    Ok (Some (BinaryExprAST "+" (VariableExprAST "foo")
                (VariableExprAST "bar"))).
Proof. vm_compute; reflexivity. Qed.

(** "def 1 2": the prototype fails on its first token; the definition is
    null and one error line was printed after the prompt. *)
Lemma ParseDefinition_def_1_2 :
  exists st',
    ParseDefinition Decimal.strtod 40 (primed "def 1 2" all_NUL)
      = Ok (None, st') /\
    stderr st' =
      ["ready> "; error_line "Expected function name in prototype"].
Proof. eexists. split; vm_compute; reflexivity. Qed.

(** An error deep inside a definition: the unclosed parenthesis in the
    second argument of a call makes [ParseDefinition] itself return
    null, with the one line of the innermost function. *)
Lemma ParseDefinition_nested_error :
  exists st',
    ParseDefinition Decimal.strtod 200
      (primed "def f(x) g(x, (x+y ;" all_NUL)
      = Ok (None, st') /\
    stderr st' = ["ready> "; error_line "expected ')'"].
Proof. eexists. split; vm_compute; reflexivity. Qed.

(** Keywords are matched with their exact spelling only. *)
Lemma gettok_keywords :
  CurTok (primed "def" all_NUL) = tok_def /\
  CurTok (primed "extern" all_NUL) = tok_extern /\
  CurTok (primed "Def" all_NUL) = tok_identifier /\
  CurTok (primed "define" all_NUL) = tok_identifier /\
  CurTok (primed "EXTERN" all_NUL) = tok_identifier.
Proof. repeat split. Qed.

(** ** Instances of the conditional statements *)

(** C4 on "foo" followed by '(' at the start of the program. *)
Lemma gettok_identifier_witness :
  exists tok st',
    gettok Decimal.strtod (load Decimal.zero "foo(" all_NUL) = Ok (tok, st') /\
    cstr (IdentifierStr st') = "foo" /\
    has_NUL (IdentifierStr st') = true /\
    ("foo" = "def" -> tok = tok_def) /\
    ("foo" = "extern" -> tok = tok_extern) /\
    ("foo" <> "def" -> "foo" <> "extern" -> tok = tok_identifier).
Proof.
  apply (gettok_identifier Decimal.strtod
           (load Decimal.zero "foo(" all_NUL) "f" "oo" "(");
    try reflexivity.
  cbn. lia.
Defined.

(** C5 on the program as loaded. *)
Lemma GetTokPrecedence_standard_witness :
  exists st1,
    install_binops (load Decimal.zero "" all_NUL) = Ok st1 /\
    forall st : globals Decimal.double,
      BinopPrecedenceOperators st = BinopPrecedenceOperators st1 ->
      BinopPrecedencePrecedence st = BinopPrecedencePrecedence st1 ->
      GetTokPrecedence st =
        Ok (if CurTok st =? chr "<" then 10
            else if CurTok st =? chr "+" then 20
            else if CurTok st =? chr "-" then 30
            else if CurTok st =? chr "*" then 40
            else -1).
Proof.
  apply (GetTokPrecedence_standard (load Decimal.zero "" all_NUL));
    reflexivity.
Defined.

(** C8 on the top-level expression "a+b". *)
Lemma ParseTopLevelExpr_anon_witness :
  exists F st',
    ParseTopLevelExpr Decimal.strtod 20 (primed "a+b" all_NUL)
      = Ok (Some F, st') /\
    ProtoName (Proto F) = "__anon_expr" /\
    ProtoArgs (Proto F) = [] /\
    ProtoNumArgs (Proto F) = 0%nat /\
    Body F = BinaryExprAST "+" (VariableExprAST "a") (VariableExprAST "b").
Proof.
  edestruct (ParseTopLevelExpr_anon Decimal.strtod 20 (primed "a+b" all_NUL))
    as (F & H); [vm_compute; reflexivity|].
  exists F. eexists. exact H.
Defined.

(** C9 on the comment line "# comment" before "42". *)
Lemma comment_line_transparent_witness :
  let st := load Decimal.zero "" all_NUL in
  let nl := "010"%char in
  (forall st2,
     same_lexer st st2 ->
     same_answer
       (gettok Decimal.strtod
          (with_stdin st (String "#" (" comment" ++ String nl "42"))))
       (gettok Decimal.strtod (with_stdin st2 "42"))) /\
  (forall n st2,
     same_lexer st st2 ->
     tokens Decimal.strtod n
       (with_stdin st (String "#" (" comment" ++ String nl "42"))) =
     tokens Decimal.strtod n (with_stdin st2 "42")) /\
  gettok Decimal.strtod (with_stdin st (String "#" " comment")) =
    Ok (tok_eof, set_lexer st EmptyString EOF).
Proof.
  apply (comment_line_transparent Decimal.strtod
           (load Decimal.zero "" all_NUL) " comment" "010"%char "42").
  - reflexivity.
  - reflexivity.
  - left. reflexivity.
Defined.

(** What the comparison leaves out: read behind a comment line, "42" is
    stored in the buffer of the nested call; with a blank in the first
    buffer and NUL in the second, [NumVal] is 42 without the comment and
    0 with it. *)
Lemma NumVal_behind_comment :
  let junk := fun (k _ : nat) =>
                match k with O => " "%char | S _ => NUL end in
  NumVal (primed "42" junk) = 42%Q /\
  NumVal (primed (String "#" (" comment" ++ String "010" "42")) junk) = 0%Q /\
  CurTok (primed "42" junk) = tok_number /\
  CurTok (primed (String "#" (" comment" ++ String "010" "42")) junk)
    = tok_number.
Proof. repeat split. Qed.

(** The tokens of "# comment\n42 + x" and of "42 + x", one run with NUL
    and one with blanks in the indeterminate bytes. *)
Lemma tokens_after_comment :
  tokens Decimal.strtod 5
    (load Decimal.zero
       (String "#" (" comment" ++ String "010" "42 + x")) all_NUL) =
    [tok_number; chr "+"; tok_identifier; tok_eof; tok_eof] /\
  tokens Decimal.strtod 5 (load Decimal.zero "42 + x" all_blank) =
    [tok_number; chr "+"; tok_identifier; tok_eof; tok_eof].
Proof. split; vm_compute; reflexivity. Qed.

(** ** Fuel

    Fuel only bounds the recursion of the embedding: once a parsing
    function answers with some fuel, it gives the same answer with
    more. *)

Lemma fuel_stable_refl {A : Type} (r : result A) : fuel_stable r r.
Proof. intros _. reflexivity. Qed.

Lemma fuel_stable_bind {A B : Type} (r r' : result A) (k k' : A -> result B) :
  fuel_stable r r' ->
  (forall a, fuel_stable (k a) (k' a)) ->
  fuel_stable (bind r k) (bind r' k').
Proof.
  intros Hr Hk H. destruct r as [a| |]; cbn [bind] in *.
  - rewrite Hr by discriminate. cbn [bind]. apply Hk. exact H.
  - rewrite Hr by discriminate. reflexivity.
  - congruence.
Qed.

Section Fuel.

Context {double : Type} (strtod : string -> double).

Implicit Types st : globals double.

Lemma ParseExpression_eq fuel st :
  ParseExpression strtod (S fuel) st =
    let* (LHS, st) := ParsePrimary strtod fuel st in
    match LHS with
    | None => Ok (None, st)
    | Some LHS => ParseBinOpRHS strtod fuel 0 LHS st
    end.
Proof. reflexivity. Qed.

Lemma ParsePrimary_eq fuel st :
  ParsePrimary strtod (S fuel) st =
    if CurTok st =? tok_identifier then ParseIdentifierExpr strtod fuel st
    else if CurTok st =? tok_number then ParseNumberExpr strtod st
    else if CurTok st =? chr "(" then ParseParenExpr strtod fuel st
    else Error "unknown token when expecting an expression" st.
Proof. reflexivity. Qed.

Lemma ParseParenExpr_unfold fuel st :
  ParseParenExpr strtod (S fuel) st =
    let* (_, st) := getNextToken strtod st in
    let* (V, st) := ParseExpression strtod fuel st in
    match V with
    | None => Ok (None, st)
    | Some V =>
        if negb (CurTok st =? chr ")") then Error "expected ')'" st
        else
          let* (_, st) := getNextToken strtod st in
          Ok (Some V, st)
    end.
Proof. reflexivity. Qed.

Lemma ParseIdentifierExpr_eq fuel st :
  ParseIdentifierExpr strtod (S fuel) st =
    let* IdName := read_cstr (IdentifierStr st) in
    let* (_, st) := getNextToken strtod st in
    if negb (CurTok st =? chr "(") then
      Ok (Some (VariableExprAST IdName), st)
    else
      let* (_, st) := getNextToken strtod st in
      let* (Result, st) :=
        if negb (CurTok st =? chr ")")
        then ParseCallArgs strtod fuel IdName [] 0 st
        else Ok (Some (CallExprAST IdName [] 0), st) in
      match Result with
      | None => Ok (None, st)
      | Some Result =>
          let* (_, st) := getNextToken strtod st in
          Ok (Some Result, st)
      end.
Proof. reflexivity. Qed.

Lemma ParseCallArgs_eq fuel Callee Args NumArgs st :
  ParseCallArgs strtod (S fuel) Callee Args NumArgs st =
    let* (Arg, st) := ParseExpression strtod fuel st in
    match Arg with
    | None => Ok (None, st)
    | Some Arg =>
        if (NumArgs <? BUFSZ)%nat then
          let Args := (Args ++ [Arg])%list in
          let NumArgs := S NumArgs in
          if CurTok st =? chr ")" then
            Ok (Some (CallExprAST Callee Args NumArgs), st)
          else if negb (CurTok st =? chr ",") then
            Error "Expected ')' or ',' in argument list" st
          else
            let* (_, st) := getNextToken strtod st in
            ParseCallArgs strtod fuel Callee Args NumArgs st
        else Undefined
    end.
Proof. reflexivity. Qed.

Lemma ParseBinOpRHS_eq fuel ExprPrec LHS st :
  ParseBinOpRHS strtod (S fuel) ExprPrec LHS st =
    let* TokPrec := GetTokPrecedence st in
    if TokPrec <? ExprPrec then Ok (Some LHS, st)
    else
      let BinOp := CurTok st in
      let* (_, st) := getNextToken strtod st in
      let* (RHS, st) := ParsePrimary strtod fuel st in
      match RHS with
      | None => Ok (None, st)
      | Some RHS =>
          let* NextPrec := GetTokPrecedence st in
          let* (RHS, st) :=
            if TokPrec <? NextPrec
            then ParseBinOpRHS strtod fuel (TokPrec + 1) RHS st
            else Ok (Some RHS, st) in
          match RHS with
          | None => Ok (None, st)
          | Some RHS =>
              let Result := BinaryExprAST (char_of_int BinOp) LHS RHS in
              ParseBinOpRHS strtod fuel ExprPrec Result st
          end
      end.
Proof. reflexivity. Qed.

(** Descends through two bodies that differ only in the fuel of their
    calls. *)
Ltac stable_step :=
  first
    [ apply fuel_stable_refl
    | match goal with
      | H : forall st, fuel_stable (?f strtod ?n st) _
        |- fuel_stable (?f strtod ?n _) _ => apply H
      | H : forall a b c st, fuel_stable (?f strtod ?n a b c st) _
        |- fuel_stable (?f strtod ?n _ _ _ _) _ => apply H
      | H : forall a b st, fuel_stable (?f strtod ?n a b st) _
        |- fuel_stable (?f strtod ?n _ _ _) _ => apply H
      end
    | apply fuel_stable_bind; [ | intros ? ]
    | match goal with
      | |- fuel_stable (match ?x with _ => _ end) _ => destruct x
      | |- fuel_stable (let x := _ in _) _ => cbv zeta
      end ].

Section StableStep.

Variable fuel : nat.
Hypothesis IHExpression : forall st,
  fuel_stable (ParseExpression strtod fuel st)
              (ParseExpression strtod (S fuel) st).
Hypothesis IHPrimary : forall st,
  fuel_stable (ParsePrimary strtod fuel st) (ParsePrimary strtod (S fuel) st).
Hypothesis IHParen : forall st,
  fuel_stable (ParseParenExpr strtod fuel st)
              (ParseParenExpr strtod (S fuel) st).
Hypothesis IHIdentifier : forall st,
  fuel_stable (ParseIdentifierExpr strtod fuel st)
              (ParseIdentifierExpr strtod (S fuel) st).
Hypothesis IHCallArgs : forall Callee Args NumArgs st,
  fuel_stable (ParseCallArgs strtod fuel Callee Args NumArgs st)
              (ParseCallArgs strtod (S fuel) Callee Args NumArgs st).
Hypothesis IHBinOpRHS : forall ExprPrec LHS st,
  fuel_stable (ParseBinOpRHS strtod fuel ExprPrec LHS st)
              (ParseBinOpRHS strtod (S fuel) ExprPrec LHS st).

Lemma ParseExpression_stable_step st :
  fuel_stable (ParseExpression strtod (S fuel) st)
              (ParseExpression strtod (S (S fuel)) st).
Proof.
  rewrite (ParseExpression_eq fuel), (ParseExpression_eq (S fuel)).
  repeat stable_step.
Qed.

Lemma ParsePrimary_stable_step st :
  fuel_stable (ParsePrimary strtod (S fuel) st)
              (ParsePrimary strtod (S (S fuel)) st).
Proof.
  rewrite (ParsePrimary_eq fuel), (ParsePrimary_eq (S fuel)).
  repeat stable_step.
Qed.

Lemma ParseParenExpr_stable_step st :
  fuel_stable (ParseParenExpr strtod (S fuel) st)
              (ParseParenExpr strtod (S (S fuel)) st).
Proof.
  rewrite (ParseParenExpr_unfold fuel), (ParseParenExpr_unfold (S fuel)).
  repeat stable_step.
Qed.

Lemma ParseIdentifierExpr_stable_step st :
  fuel_stable (ParseIdentifierExpr strtod (S fuel) st)
              (ParseIdentifierExpr strtod (S (S fuel)) st).
Proof.
  rewrite (ParseIdentifierExpr_eq fuel), (ParseIdentifierExpr_eq (S fuel)).
  repeat stable_step.
Qed.

Lemma ParseCallArgs_stable_step Callee Args NumArgs st :
  fuel_stable (ParseCallArgs strtod (S fuel) Callee Args NumArgs st)
              (ParseCallArgs strtod (S (S fuel)) Callee Args NumArgs st).
Proof.
  rewrite (ParseCallArgs_eq fuel), (ParseCallArgs_eq (S fuel)).
  repeat stable_step.
Qed.

Lemma ParseBinOpRHS_stable_step ExprPrec LHS st :
  fuel_stable (ParseBinOpRHS strtod (S fuel) ExprPrec LHS st)
              (ParseBinOpRHS strtod (S (S fuel)) ExprPrec LHS st).
Proof.
  rewrite (ParseBinOpRHS_eq fuel), (ParseBinOpRHS_eq (S fuel)).
  repeat stable_step.
Qed.

End StableStep.

Lemma parser_fuel_step fuel :
  (forall st, fuel_stable (ParseExpression strtod fuel st)
                          (ParseExpression strtod (S fuel) st)) /\
  (forall st, fuel_stable (ParsePrimary strtod fuel st)
                          (ParsePrimary strtod (S fuel) st)) /\
  (forall st, fuel_stable (ParseParenExpr strtod fuel st)
                          (ParseParenExpr strtod (S fuel) st)) /\
  (forall st, fuel_stable (ParseIdentifierExpr strtod fuel st)
                          (ParseIdentifierExpr strtod (S fuel) st)) /\
  (forall Callee Args NumArgs st,
      fuel_stable (ParseCallArgs strtod fuel Callee Args NumArgs st)
                  (ParseCallArgs strtod (S fuel) Callee Args NumArgs st)) /\
  (forall ExprPrec LHS st,
      fuel_stable (ParseBinOpRHS strtod fuel ExprPrec LHS st)
                  (ParseBinOpRHS strtod (S fuel) ExprPrec LHS st)).
Proof.
  induction fuel as [|fuel (IHe & IHp & IHpar & IHid & IHargs & IHrhs)].
  - repeat split; intros; intros H; contradiction H; reflexivity.
  - repeat split; intros.
    + apply ParseExpression_stable_step; assumption.
    + apply ParsePrimary_stable_step; assumption.
    + apply ParseParenExpr_stable_step; assumption.
    + apply ParseIdentifierExpr_stable_step; assumption.
    + apply ParseCallArgs_stable_step; assumption.
    + apply ParseBinOpRHS_stable_step; assumption.
Qed.

(** From one more unit of fuel to any larger amount. *)
Lemma fuel_stable_le {A : Type} (f : nat -> result A) :
  (forall n, fuel_stable (f n) (f (S n))) ->
  forall n m, (n <= m)%nat -> fuel_stable (f n) (f m).
Proof.
  intros Hstep n m Hle. induction Hle as [|m Hle IH].
  - apply fuel_stable_refl.
  - intros H. rewrite <- (IH H). apply Hstep. rewrite (IH H). exact H.
Qed.

Lemma ParseExpression_fuel n m st :
  (n <= m)%nat ->
  fuel_stable (ParseExpression strtod n st) (ParseExpression strtod m st).
Proof.
  apply (fuel_stable_le (fun k => ParseExpression strtod k st)).
  intros k. apply parser_fuel_step.
Qed.

Lemma ParsePrototype_args_fuel_step fuel : forall Args NumArgs st,
  fuel_stable (ParsePrototype_args strtod fuel Args NumArgs st)
              (ParsePrototype_args strtod (S fuel) Args NumArgs st).
Proof.
  induction fuel as [|fuel IH]; intros Args NumArgs st.
  - intros H; contradiction H; reflexivity.
  - change (ParsePrototype_args strtod (S (S fuel)) Args NumArgs st) with
      (let* (t, st) := getNextToken strtod st in
       if t =? tok_identifier then
         if (NumArgs <? BUFSZ)%nat then
           let* arg := read_cstr (IdentifierStr st) in
           ParsePrototype_args strtod (S fuel) (Args ++ [arg])%list
             (S NumArgs) st
         else Undefined
       else Ok (Args, NumArgs, st)).
    cbn [ParsePrototype_args].
    repeat first
      [ apply fuel_stable_refl
      | apply IH
      | apply fuel_stable_bind; [ | intros ? ]
      | match goal with
        | |- fuel_stable (match ?x with _ => _ end) _ => destruct x
        end ].
Qed.

Lemma ParsePrototype_fuel_step fuel st :
  fuel_stable (ParsePrototype strtod fuel st)
              (ParsePrototype strtod (S fuel) st).
Proof.
  unfold ParsePrototype.
  repeat first
    [ apply fuel_stable_refl
    | apply ParsePrototype_args_fuel_step
    | apply fuel_stable_bind; [ | intros ? ]
    | match goal with
      | |- fuel_stable (match ?x with _ => _ end) _ => destruct x
      end ].
Qed.

(** The three top-level parsing functions give the same answer with one
    more unit of fuel, hence with any larger amount. *)
Lemma top_level_fuel_step fuel st :
  fuel_stable (ParseDefinition strtod fuel st)
              (ParseDefinition strtod (S fuel) st) /\
  fuel_stable (ParseExtern strtod fuel st)
              (ParseExtern strtod (S fuel) st) /\
  fuel_stable (ParseTopLevelExpr strtod fuel st)
              (ParseTopLevelExpr strtod (S fuel) st).
Proof.
  destruct (parser_fuel_step fuel) as (He & _).
  unfold ParseDefinition, ParseExtern, ParseTopLevelExpr.
  repeat split;
    repeat first
      [ apply fuel_stable_refl
      | apply He
      | apply ParsePrototype_fuel_step
      | apply fuel_stable_bind; [ | intros ? ]
      | match goal with
        | |- fuel_stable (match ?x with _ => _ end) _ => destruct x
        end ].
Qed.

End Fuel.

(** The examples above were run with fuel 20; any larger amount gives the
    same tree. *)
Lemma parse_expression_fuel {double} (strtod : string -> double) zero input
    junk (n m : nat) r :
  (n <= m)%nat ->
  parse_expression strtod zero input junk n = Ok r ->
  parse_expression strtod zero input junk m = Ok r.
Proof.
  unfold parse_expression. intros Hle.
  destruct (main_prelude strtod zero input junk) as [st| |]; cbn [bind];
    try discriminate.
  pose proof (ParseExpression_fuel strtod n m st Hle) as Hst.
  destruct (ParseExpression strtod n st) as [[a st']| |]; cbn [bind];
    try discriminate.
  rewrite Hst by discriminate. cbn [bind]. trivial.
Qed.

(** ** Termination of the parser

    What is left to read bounds the recursion of the parser: every
    token but the end-of-file token costs at least one character. *)

Lemma lookahead_weight_char (c : ascii) : lookahead_weight (int_of_char c) = 1%nat.
Proof. unfold lookahead_weight. rewrite int_of_char_not_EOF. reflexivity. Qed.

Lemma lookahead_weight_le (lc : Z) : (lookahead_weight lc <= 1)%nat.
Proof. unfold lookahead_weight. destruct (lc =? EOF); lia. Qed.

Lemma lookahead_weight_not_EOF (lc : Z) :
  (lc =? EOF) = false -> lookahead_weight lc = 1%nat.
Proof. unfold lookahead_weight. intros ->. reflexivity. Qed.

Lemma isspace_not_EOF lc : isspace lc = true -> (lc =? EOF) = false.
Proof.
  intros H. destruct (Z.eqb_spec lc EOF) as [->|]; [discriminate|reflexivity].
Qed.

Lemma isalpha_not_EOF lc : isalpha lc = true -> (lc =? EOF) = false.
Proof.
  intros H. destruct (Z.eqb_spec lc EOF) as [->|]; [discriminate|reflexivity].
Qed.

Lemma isnumchar_not_EOF lc : isnumchar lc = true -> (lc =? EOF) = false.
Proof.
  intros H. destruct (Z.eqb_spec lc EOF) as [->|]; [discriminate|reflexivity].
Qed.

Lemma skip_whitespace_unread (input : string) : forall lc,
  (String.length (snd (skip_whitespace lc input))
   + lookahead_weight (fst (skip_whitespace lc input))
   <= String.length input + lookahead_weight lc)%nat.
Proof.
  induction input as [|c input IH]; intros lc; cbn [skip_whitespace];
    destruct (isspace lc) eqn:Hsp; cbn [fst snd String.length]; try lia.
  - rewrite (lookahead_weight_not_EOF lc) by (apply isspace_not_EOF; exact Hsp).
    cbn. lia.
  - specialize (IH (int_of_char c)). rewrite lookahead_weight_char in IH.
    rewrite (lookahead_weight_not_EOF lc) by (apply isspace_not_EOF; exact Hsp).
    lia.
Qed.

Lemma read_identifier_unread (input : string) : forall buf i lc' input' buf' n,
  read_identifier input buf i = Ok (lc', input', buf', n) ->
  (String.length input' + lookahead_weight lc' <= String.length input)%nat.
Proof.
  induction input as [|c input IH]; intros buf i lc' input' buf' n;
    cbn [read_identifier].
  - intros [= <- <- _ _]. cbn. lia.
  - destruct (isalnum _).
    + destruct (i <? BUFSZ)%nat; [|discriminate].
      intros H. apply IH in H. cbn [String.length]. lia.
    + intros [= <- <- _ _]. rewrite lookahead_weight_char.
      cbn [String.length]. lia.
Qed.

Lemma read_number_unread (input : string) : forall lc buf i lc' input' buf' n,
  read_number lc input buf i = Ok (lc', input', buf', n) ->
  (String.length input' + lookahead_weight lc' <= String.length input)%nat.
Proof.
  induction input as [|c input IH]; intros lc buf i lc' input' buf' n;
    cbn [read_number]; destruct (i <? BUFSZ)%nat; try discriminate.
  - intros [= <- <- _ _]. cbn. lia.
  - destruct (_ || _)%bool.
    + intros H. apply IH in H. cbn [String.length]. lia.
    + intros [= <- <- _ _]. rewrite lookahead_weight_char.
      cbn [String.length]. lia.
Qed.

Lemma skip_comment_unread (input : string) :
  (String.length (snd (skip_comment input))
   + lookahead_weight (fst (skip_comment input)) <= String.length input)%nat.
Proof.
  induction input as [|c input IH]; cbn [skip_comment].
  - cbn. lia.
  - destruct (negb _ && negb _)%bool; cbn [fst snd String.length].
    + lia.
    + rewrite lookahead_weight_char. lia.
Qed.

Section Termination.

Context {double : Type} (strtod : string -> double).

Implicit Types st : globals double.

Lemma gettok_rest_unread st lc input t st' :
  gettok_rest st lc input = Ok (t, st') ->
  (unread st' <= String.length input + lookahead_weight lc)%nat /\
  (t <> tok_eof ->
   (unread st' < String.length input + lookahead_weight lc)%nat).
Proof.
  unfold gettok_rest, unread. destruct (lc =? EOF) eqn:E.
  - intros [= <- <-]. cbn [stdin LastChar set_lexer]. split; [lia|].
    intros H. contradiction H. reflexivity.
  - rewrite (lookahead_weight_not_EOF lc E).
    destruct input as [|c r]; cbn [getchar]; intros [= <- <-];
      cbn [stdin LastChar set_lexer String.length].
    + cbn. lia.
    + rewrite lookahead_weight_char. lia.
Qed.

Lemma gettok_rec_unread (fuel : nat) : forall st t st',
  gettok_rec strtod fuel st = Ok (t, st') ->
  (unread st' <= unread st)%nat /\
  (t <> tok_eof -> (unread st' < unread st)%nat).
Proof.
  induction fuel as [|fuel IH]; intros st t st'; cbn [gettok_rec];
    [discriminate|].
  pose proof (skip_whitespace_unread (stdin st) (LastChar st)) as Hws.
  fold (unread st) in Hws.
  destruct (skip_whitespace (LastChar st) (stdin st)) as [lc input].
  cbn [fst snd] in Hws.
  destruct (isalpha lc) eqn:Halpha.
  { rewrite (lookahead_weight_not_EOF lc) in Hws
      by (apply isalpha_not_EOF; exact Halpha).
    destruct (read_identifier _ _ _) as [[[[lc' input'] buf] k]| |] eqn:Hr;
      cbn [bind]; try discriminate.
    apply read_identifier_unread in Hr.
    destruct (k <? BUFSZ)%nat; [|discriminate].
    destruct (read_cstr _) as [name| |]; cbn [bind]; try discriminate.
    assert (Hu : (unread (set_IdentifierStr (set_lexer st input' lc')
                            (<[k := NUL]> buf)) < unread st)%nat)
      by (unfold unread at 1; cbn [stdin LastChar set_lexer set_IdentifierStr];
          lia).
    destruct (streq name "def"); [intros [= <- <-]; lia|].
    destruct (streq name "extern"); intros [= <- <-]; lia. }
  destruct (isdigit lc || (lc =? chr "."))%bool eqn:Hnum.
  { rewrite (lookahead_weight_not_EOF lc) in Hws
      by (apply isnumchar_not_EOF; exact Hnum).
    unfold declare_NumStr.
    destruct (read_number _ _ _ _) as [[[[lc' input'] buf] k]| |] eqn:Hr;
      cbn [bind]; try discriminate.
    apply read_number_unread in Hr.
    destruct (k <? BUFSZ)%nat; [|discriminate].
    intros [= <- <-]. unfold unread at 1 3.
    cbn [stdin LastChar set_lexer set_NumVal]. lia. }
  destruct (lc =? chr "#") eqn:Hhash.
  - apply Z.eqb_eq in Hhash. subst lc.
    change (lookahead_weight (chr "#")) with 1%nat in Hws.
    pose proof (skip_comment_unread input) as Hc.
    destruct (skip_comment input) as [lc' input']. cbn [fst snd] in Hc.
    destruct (negb (lc' =? EOF)).
    + intros H. apply IH in H. unfold unread at 2 4 in H.
      cbn [stdin LastChar set_lexer nested_gettok] in H. lia.
    + intros H. apply gettok_rest_unread in H. lia.
  - intros H. apply gettok_rest_unread in H. lia.
Qed.

Lemma getNextToken_pending st t st' :
  getNextToken strtod st = Ok (t, st') ->
  CurTok st' = t /\
  (pending st' <= pending st)%nat /\
  (CurTok st <> tok_eof -> (pending st' < pending st)%nat) /\
  (t <> tok_eof -> (pending st' < pending st)%nat).
Proof.
  unfold getNextToken.
  destruct (gettok strtod st) as [[t0 st0]| |] eqn:E; cbn [bind];
    try discriminate.
  intros [= <- <-].
  pose proof (gettok_frame strtod st t0 st0 E) as (_ & Hcur & _).
  apply gettok_rec_unread in E. destruct E as [Hle Hlt].
  unfold pending. cbn [CurTok set_CurTok].
  change (unread (set_CurTok st0 t0)) with (unread st0).
  split; [reflexivity|].
  destruct (Z.eqb_spec t0 tok_eof) as [->|Ht];
    destruct (Z.eqb_spec (CurTok st) tok_eof) as [Hc|Hc];
    repeat split; intros; try contradiction; try lia;
    specialize (Hlt Ht); lia.
Qed.

Lemma answers_lt {A} st1 st s1 (r : result (option A * globals double)) :
  answers st1 s1 r -> (pending st1 < pending st)%nat -> answers st true r.
Proof.
  destruct r as [[[a|] st']| |]; cbn; trivial. destruct s1; lia.
Qed.

Lemma answers_le {A} st1 st s1 s (r : result (option A * globals double)) :
  answers st1 s1 r -> (pending st1 <= pending st)%nat ->
  (s = true -> s1 = true) -> answers st s r.
Proof.
  destruct r as [[[a|] st']| |]; cbn; trivial.
  destruct s, s1; intros H1 H2 H3; try lia.
Qed.

Lemma GetTokPrecedence_ascii st v :
  GetTokPrecedence st = Ok v -> 0 <= v -> CurTok st <> tok_eof.
Proof.
  unfold GetTokPrecedence. intros H Hv Heof. rewrite Heof in H.
  cbn in H. injection H as <-. lia.
Qed.

Lemma GetTokPrecedence_loop_defined (n : nat) : forall i st,
  GetTokPrecedence_loop n i st <> OutOfFuel.
Proof.
  induction n as [|n IH]; intros i st; cbn [GetTokPrecedence_loop];
    [discriminate|].
  destruct (_ !! i); [|discriminate].
  destruct (_ !! i); [|discriminate].
  destruct (_ =? _); [destruct (_ <=? 0); discriminate | apply IH].
Qed.

Lemma GetTokPrecedence_defined st : GetTokPrecedence st <> OutOfFuel.
Proof.
  unfold GetTokPrecedence. destruct (negb _); [discriminate|].
  apply GetTokPrecedence_loop_defined.
Qed.

(** Reads the next token in the goal and records what it cost. *)
Ltac next_token :=
  match goal with
  | |- context [getNextToken strtod ?s] =>
      let E := fresh "Etok" in
      let H := fresh "Hnot" in
      pose proof (getNextToken_defined strtod s) as H;
      destruct (getNextToken strtod s) as [[? ?]| |] eqn:E;
      cbn [bind];
      [ clear H; apply getNextToken_pending in E;
        destruct E as (? & ? & ? & ?)
      | first [exact I | discriminate]
      | contradiction H; reflexivity ]
  end.

(** Splits on the result of a call known to answer. *)
Tactic Notation "answered_by" uconstr(H) :=
  match goal with
  | |- context [bind ?c _] =>
      let P := fresh "Hans" in
      assert (P : answers _ _ c) by (apply H; lia);
      destruct c as [[[?|] ?]| |];
      cbn [bind]; cbn [answers] in P; [ | | exact I | contradiction P]
  end.

Lemma ParseNumberExpr_answers st :
  CurTok st <> tok_eof -> answers st true (ParseNumberExpr strtod st).
Proof.
  intros Hc. unfold ParseNumberExpr. next_token. cbn [answers]. auto.
Qed.

Section Level.

(** Calls from states with less than [bound] pending answer with fuel
    [F]. *)
Variables (F bound : nat).
Hypothesis LowExpression : forall st fuel,
  (pending st < bound)%nat -> (F <= fuel)%nat ->
  answers st true (ParseExpression strtod fuel st).
Hypothesis LowPrimary : forall st fuel,
  (pending st < bound)%nat -> (F <= fuel)%nat ->
  answers st true (ParsePrimary strtod fuel st).
Hypothesis LowCallArgs : forall Callee Args NumArgs st fuel,
  (pending st < bound)%nat -> (F <= fuel)%nat ->
  answers st true (ParseCallArgs strtod fuel Callee Args NumArgs st).
Hypothesis LowBinOpRHS : forall ExprPrec LHS st fuel,
  (pending st < bound)%nat -> (F <= fuel)%nat -> 0 <= ExprPrec ->
  answers st false (ParseBinOpRHS strtod fuel ExprPrec LHS st).

Lemma ParseParenExpr_level st fuel :
  (pending st <= bound)%nat -> (F + 1 <= fuel)%nat ->
  CurTok st <> tok_eof ->
  answers st true (ParseParenExpr strtod fuel st).
Proof.
  intros Hb Hf Hc. destruct fuel as [|fuel]; [lia|].
  rewrite ParseParenExpr_unfold. next_token.
  answered_by LowExpression; [|exact I].
  destruct (negb _); [exact I|]. next_token. cbn [answers]. lia.
Qed.

Lemma ParseIdentifierExpr_level st fuel :
  (pending st <= bound)%nat -> (F + 1 <= fuel)%nat ->
  CurTok st <> tok_eof ->
  answers st true (ParseIdentifierExpr strtod fuel st).
Proof.
  intros Hb Hf Hc. destruct fuel as [|fuel]; [lia|].
  rewrite ParseIdentifierExpr_eq.
  unfold read_cstr. destruct (has_NUL _); cbn [bind]; [|exact I].
  next_token.
  destruct (negb (_ =? chr "(")) eqn:Hparen; [cbn [answers]; auto|].
  apply negb_false_iff, Z.eqb_eq in Hparen.
  next_token.
  destruct (negb _).
  - answered_by LowCallArgs; [|exact I].
    next_token. cbn [answers]. lia.
  - cbn [bind]. next_token. cbn [answers]. lia.
Qed.

Lemma ParsePrimary_level st fuel :
  (pending st <= bound)%nat -> (F + 2 <= fuel)%nat ->
  answers st true (ParsePrimary strtod fuel st).
Proof.
  intros Hb Hf. destruct fuel as [|fuel]; [lia|].
  rewrite ParsePrimary_eq.
  destruct (Z.eqb_spec (CurTok st) tok_identifier) as [E|_].
  { apply ParseIdentifierExpr_level; [lia|lia|]. rewrite E. discriminate. }
  destruct (Z.eqb_spec (CurTok st) tok_number) as [E|_].
  { apply ParseNumberExpr_answers. rewrite E. discriminate. }
  destruct (Z.eqb_spec (CurTok st) (chr "(")) as [E|_].
  { apply ParseParenExpr_level; [lia|lia|]. rewrite E. discriminate. }
  exact I.
Qed.

Lemma ParseBinOpRHS_level ExprPrec LHS st fuel :
  (pending st <= bound)%nat -> (F + 1 <= fuel)%nat -> 0 <= ExprPrec ->
  answers st false (ParseBinOpRHS strtod fuel ExprPrec LHS st).
Proof.
  intros Hb Hf Hprec. destruct fuel as [|fuel]; [lia|].
  rewrite ParseBinOpRHS_eq.
  pose proof (GetTokPrecedence_defined st) as Hdef.
  destruct (GetTokPrecedence st) as [TokPrec| |] eqn:Htok; cbn [bind];
    [ | exact I | contradiction Hdef; reflexivity ].
  clear Hdef.
  destruct (Z.ltb_spec TokPrec ExprPrec) as [_|Hge]; [cbn [answers]; lia|].
  assert (Hc : CurTok st <> tok_eof)
    by (apply (GetTokPrecedence_ascii st TokPrec); [exact Htok | lia]).
  next_token.
  answered_by LowPrimary; [|exact I].
  match goal with |- context [GetTokPrecedence ?s] =>
    pose proof (GetTokPrecedence_defined s) as Hdef;
    destruct (GetTokPrecedence s) as [NextPrec| |]; cbn [bind];
    [ | exact I | contradiction Hdef; reflexivity ]
  end.
  destruct (TokPrec <? NextPrec).
  - answered_by LowBinOpRHS; [|exact I].
    eapply answers_le; [apply LowBinOpRHS; lia | lia | discriminate].
  - cbn [bind].
    eapply answers_le; [apply LowBinOpRHS; lia | lia | discriminate].
Qed.

Lemma ParseExpression_level st fuel :
  (pending st <= bound)%nat -> (F + 3 <= fuel)%nat ->
  answers st true (ParseExpression strtod fuel st).
Proof.
  intros Hb Hf. destruct fuel as [|fuel]; [lia|].
  rewrite ParseExpression_eq.
  answered_by ParsePrimary_level; [|exact I].
  eapply answers_lt; [apply LowBinOpRHS; lia | lia].
Qed.

Lemma ParseCallArgs_level Callee Args NumArgs st fuel :
  (pending st <= bound)%nat -> (F + 4 <= fuel)%nat ->
  answers st true (ParseCallArgs strtod fuel Callee Args NumArgs st).
Proof.
  intros Hb Hf. destruct fuel as [|fuel]; [lia|].
  rewrite ParseCallArgs_eq.
  answered_by ParseExpression_level; [|exact I].
  destruct (NumArgs <? BUFSZ)%nat; [|exact I]. cbv zeta.
  destruct (_ =? chr ")"); [cbn [answers]; lia|].
  destruct (negb _); [exact I|].
  next_token.
  eapply answers_lt; [apply LowCallArgs; lia | lia].
Qed.

End Level.

(** With fuel [4 * k + 4] every call from a state with at most [k]
    pending answers. *)
Lemma parser_answers (k : nat) :
  (forall st fuel, (pending st <= k)%nat -> (4 * k + 4 <= fuel)%nat ->
     answers st true (ParseExpression strtod fuel st)) /\
  (forall st fuel, (pending st <= k)%nat -> (4 * k + 4 <= fuel)%nat ->
     answers st true (ParsePrimary strtod fuel st)) /\
  (forall Callee Args NumArgs st fuel,
     (pending st <= k)%nat -> (4 * k + 4 <= fuel)%nat ->
     answers st true (ParseCallArgs strtod fuel Callee Args NumArgs st)) /\
  (forall ExprPrec LHS st fuel,
     (pending st <= k)%nat -> (4 * k + 4 <= fuel)%nat -> 0 <= ExprPrec ->
     answers st false (ParseBinOpRHS strtod fuel ExprPrec LHS st)).
Proof.
  induction k as [|k (IHe & IHp & IHargs & IHrhs)].
  - repeat split; intros.
    + apply (ParseExpression_level 0 0); intros; lia.
    + apply (ParsePrimary_level 0 0); intros; lia.
    + apply (ParseCallArgs_level 0 0); intros; lia.
    + apply (ParseBinOpRHS_level 0 0); intros; lia.
  - assert (Le : forall st fuel, (pending st < S k)%nat ->
                   (4 * k + 4 <= fuel)%nat ->
                   answers st true (ParseExpression strtod fuel st))
      by (intros; apply IHe; lia).
    assert (Lp : forall st fuel, (pending st < S k)%nat ->
                   (4 * k + 4 <= fuel)%nat ->
                   answers st true (ParsePrimary strtod fuel st))
      by (intros; apply IHp; lia).
    assert (La : forall Callee Args NumArgs st fuel,
                   (pending st < S k)%nat -> (4 * k + 4 <= fuel)%nat ->
                   answers st true
                     (ParseCallArgs strtod fuel Callee Args NumArgs st))
      by (intros; apply IHargs; lia).
    assert (Lr : forall ExprPrec LHS st fuel,
                   (pending st < S k)%nat -> (4 * k + 4 <= fuel)%nat ->
                   0 <= ExprPrec ->
                   answers st false
                     (ParseBinOpRHS strtod fuel ExprPrec LHS st))
      by (intros; apply IHrhs; trivial; lia).
    repeat split; intros.
    + apply (ParseExpression_level (4 * k + 4) (S k)); trivial; lia.
    + apply (ParsePrimary_level (4 * k + 4) (S k)); trivial; lia.
    + apply (ParseCallArgs_level (4 * k + 4) (S k)); trivial; lia.
    + apply (ParseBinOpRHS_level (4 * k + 4) (S k)); trivial; lia.
Qed.

Lemma ParseExpression_answers st fuel :
  (enough_fuel st <= fuel)%nat ->
  answers st true (ParseExpression strtod fuel st).
Proof.
  intros H. destruct (parser_answers (pending st)) as (He & _).
  apply He; [lia | exact H].
Qed.

Lemma ParsePrototype_args_answers (fuel : nat) : forall Args NumArgs st,
  (pending st < fuel)%nat ->
  match ParsePrototype_args strtod fuel Args NumArgs st with
  | OutOfFuel => False
  | Undefined => True
  | Ok (_, _, st') => (pending st' <= pending st)%nat
  end.
Proof.
  induction fuel as [|fuel IH]; intros Args NumArgs st Hf; [lia|].
  cbn [ParsePrototype_args].
  pose proof (getNextToken_defined strtod st) as Hd.
  destruct (getNextToken strtod st) as [[t st1]| |] eqn:E; cbn [bind];
    [ | exact I | contradiction Hd; reflexivity ].
  apply getNextToken_pending in E. destruct E as (_ & Hle & _ & Hlt).
  destruct (Z.eqb_spec t tok_identifier) as [->|_]; [|exact Hle].
  destruct (NumArgs <? BUFSZ)%nat; [|exact I].
  unfold read_cstr. destruct (has_NUL _); cbn [bind]; [|exact I].
  assert (Hlt' : (pending st1 < pending st)%nat) by (apply Hlt; discriminate).
  specialize (IH (Args ++ [cstr (IdentifierStr st1)])%list (S NumArgs) st1).
  destruct (ParsePrototype_args strtod fuel _ _ st1) as [[[a n] st2]| |];
    try (apply IH; lia).
  assert (pending st2 <= pending st1)%nat by (apply IH; lia). lia.
Qed.

Lemma ParsePrototype_answers st fuel :
  (pending st < fuel)%nat ->
  answers st false (ParsePrototype strtod fuel st).
Proof.
  intros Hf. unfold ParsePrototype.
  destruct (negb _); [exact I|].
  unfold read_cstr. destruct (has_NUL _); cbn [bind]; [|exact I].
  next_token.
  destruct (negb _); [exact I|].
  match goal with |- context [ParsePrototype_args strtod fuel ?a ?n ?s] =>
    pose proof (ParsePrototype_args_answers fuel a n s) as Ha;
    destruct (ParsePrototype_args strtod fuel a n s) as [[[? ?] ?]| |];
    cbn [bind]; [ | exact I | apply Ha; lia ]
  end.
  destruct (negb _); [exact I|].
  next_token. cbn [answers]. specialize (Ha ltac:(lia)). lia.
Qed.

(** Every top-level parsing function returns — unless it runs into
    undefined behaviour — once the fuel covers what is left to read. *)
Lemma top_level_answers st fuel :
  (enough_fuel st <= fuel)%nat ->
  ParseDefinition strtod fuel st <> OutOfFuel /\
  ParseExtern strtod fuel st <> OutOfFuel /\
  ParseTopLevelExpr strtod fuel st <> OutOfFuel.
Proof.
  unfold enough_fuel. intros Hf. repeat split.
  - unfold ParseDefinition. next_token; try discriminate.
    match goal with |- context [ParsePrototype strtod fuel ?s] =>
      pose proof (ParsePrototype_answers s fuel ltac:(lia)) as Hp;
      destruct (ParsePrototype strtod fuel s) as [[[?|] ?]| |]; cbn [bind];
      try discriminate; try contradiction
    end.
    cbn [answers] in Hp.
    match goal with |- context [ParseExpression strtod fuel ?s] =>
      pose proof (ParseExpression_answers s fuel
                    ltac:(unfold enough_fuel; lia)) as He;
      destruct (ParseExpression strtod fuel s) as [[[?|] ?]| |]; cbn [bind];
      try discriminate; try contradiction
    end.
  - unfold ParseExtern. next_token; try discriminate.
    match goal with |- context [ParsePrototype strtod fuel ?s] =>
      pose proof (ParsePrototype_answers s fuel ltac:(lia)) as Hp;
      destruct (ParsePrototype strtod fuel s) as [[[?|] ?]| |];
      try discriminate; try contradiction
    end.
  - unfold ParseTopLevelExpr.
    pose proof (ParseExpression_answers st fuel Hf) as He.
    destruct (ParseExpression strtod fuel st) as [[[?|] ?]| |]; cbn [bind];
      try discriminate; try contradiction.
Qed.

End Termination.

(** ** The failure policy of a top-level parse *)

(** C7: every parsing function obeys the failure policy on every call: a
    call inside which an error was reported returns NULL, having printed
    exactly one line "Error: <description>", and a call that returns a
    node printed nothing.  So an error anywhere inside a definition, an
    extern or a top-level expression makes every function on the call
    chain, up to the top-level one, return NULL.  And the top-level
    functions do return (short of undefined behaviour) once the fuel
    covers what is left to read. *)
Theorem parse_failure_policy {double} (strtod : string -> double)
    (fuel : nat) (st : globals double) :
  (error_policy st (ParseDefinition strtod fuel st) /\
   error_policy st (ParseExtern strtod fuel st) /\
   error_policy st (ParseTopLevelExpr strtod fuel st) /\
   error_policy st (ParsePrototype strtod fuel st) /\
   error_policy st (ParseExpression strtod fuel st) /\
   error_policy st (ParsePrimary strtod fuel st) /\
   error_policy st (ParseNumberExpr strtod st) /\
   error_policy st (ParseParenExpr strtod fuel st) /\
   error_policy st (ParseIdentifierExpr strtod fuel st) /\
   (forall Callee Args NumArgs,
       error_policy st (ParseCallArgs strtod fuel Callee Args NumArgs st)) /\
   (forall ExprPrec LHS,
       error_policy st (ParseBinOpRHS strtod fuel ExprPrec LHS st))) /\
  ((enough_fuel st <= fuel)%nat ->
   ParseDefinition strtod fuel st <> OutOfFuel /\
   ParseExtern strtod fuel st <> OutOfFuel /\
   ParseTopLevelExpr strtod fuel st <> OutOfFuel).
Proof.
  split.
  - apply parser_functions_policy.
  - apply top_level_answers.
Qed.

(** The fuel of the runs [ParseDefinition_def_1_2] and
    [ParseDefinition_nested_error] meets the bound. *)
Lemma enough_fuel_examples :
  (enough_fuel (primed "def 1 2" all_NUL) <= 40)%nat /\
  (enough_fuel (primed "def f(x) g(x, (x+y ;" all_NUL) <= 200)%nat.
Proof. split; vm_compute; repeat constructor. Qed.

(** ** Further properties of the lexer *)

Lemma skip_whitespace_run (ws : string) : forall lc rest,
  isspace lc = true ->
  all_chars isspace ws = true ->
  skip_whitespace lc (ws ++ rest) = skip_whitespace lc rest.
Proof.
  induction ws as [|c ws IH]; intros lc rest Hlc Hws; [reflexivity|].
  cbn [all_chars] in Hws. apply andb_prop in Hws. destruct Hws as [Hc Hws].
  cbn [String.append skip_whitespace]. rewrite Hlc.
  rewrite IH by assumption.
  apply skip_whitespace_blank; assumption.
Qed.

Lemma skip_whitespace_not_space (input : string) : forall lc,
  isspace (fst (skip_whitespace lc input)) = false.
Proof.
  induction input as [|c input IH]; intros lc; cbn [skip_whitespace];
    destruct (isspace lc) eqn:E; cbn [fst]; trivial.
Qed.

Lemma skip_whitespace_value (input : string) : forall lc,
  getchar_value lc -> getchar_value (fst (skip_whitespace lc input)).
Proof.
  induction input as [|c input IH]; intros lc Hlc; cbn [skip_whitespace];
    destruct (isspace lc); cbn [fst]; trivial.
  - unfold getchar_value, EOF. lia.
  - apply IH. pose proof (int_of_char_range c). unfold getchar_value. lia.
Qed.

Lemma getchar_is_value (input : string) : getchar_value (fst (getchar input)).
Proof.
  destruct input as [|c r]; cbn; unfold getchar_value, EOF; [lia|].
  pose proof (int_of_char_range c). lia.
Qed.

Lemma read_identifier_value (input : string) : forall buf i lc' input' buf' n,
  read_identifier input buf i = Ok (lc', input', buf', n) ->
  getchar_value lc' /\ (i <= n)%nat /\ suffix_of input' input.
Proof.
  induction input as [|c input IH]; intros buf i lc' input' buf' n;
    cbn [read_identifier].
  - intros [= <- <- _ <-]. repeat split; [unfold EOF; lia..|].
    exists EmptyString. reflexivity.
  - destruct (isalnum _).
    + destruct (i <? BUFSZ)%nat; [|discriminate].
      intros H. apply IH in H. destruct H as (Hv & Hn & read & ->).
      repeat split; [apply Hv.. | lia |]. exists (String c read). reflexivity.
    + intros [= <- <- _ <-].
      split; [|split; [lia | exists (String c EmptyString); reflexivity]].
      pose proof (int_of_char_range c). unfold getchar_value. lia.
Qed.

Lemma read_number_value (input : string) : forall lc buf i lc' input' buf' n,
  read_number lc input buf i = Ok (lc', input', buf', n) ->
  getchar_value lc' /\ (i < n)%nat /\ suffix_of input' input.
Proof.
  induction input as [|c input IH]; intros lc buf i lc' input' buf' n;
    cbn [read_number]; destruct (i <? BUFSZ)%nat; try discriminate.
  - intros [= <- <- _ <-]. repeat split; [unfold EOF; lia..|].
    exists EmptyString. reflexivity.
  - destruct (_ || _)%bool.
    + intros H. apply IH in H. destruct H as (Hv & Hn & read & ->).
      repeat split; [apply Hv.. | lia |]. exists (String c read). reflexivity.
    + intros [= <- <- _ <-].
      split; [|split; [lia | exists (String c EmptyString); reflexivity]].
      pose proof (int_of_char_range c). unfold getchar_value. lia.
Qed.

Lemma skip_whitespace_suffix (input : string) : forall lc,
  suffix_of (snd (skip_whitespace lc input)) input.
Proof.
  induction input as [|c input IH]; intros lc; cbn [skip_whitespace];
    destruct (isspace lc); cbn [snd]; try (exists EmptyString; reflexivity).
  destruct (IH (int_of_char c)) as [read E].
  exists (String c read). cbn. rewrite <- E. reflexivity.
Qed.

Lemma skip_comment_value (input : string) :
  getchar_value (fst (skip_comment input)) /\
  suffix_of (snd (skip_comment input)) input.
Proof.
  induction input as [|c input [IHv [read IHs]]]; cbn [skip_comment].
  - split; [unfold getchar_value, EOF; cbn; lia|].
    exists EmptyString. reflexivity.
  - destruct (negb _ && negb _)%bool; cbn [fst snd].
    + split; [exact IHv|]. exists (String c read). cbn. rewrite <- IHs.
      reflexivity.
    + split; [|exists (String c EmptyString); reflexivity].
      pose proof (int_of_char_range c). unfold getchar_value. lia.
Qed.

Lemma suffix_of_refl (s : string) : suffix_of s s.
Proof. exists EmptyString. reflexivity. Qed.

Lemma append_assoc (a b c : string) : ((a ++ b) ++ c = a ++ (b ++ c))%string.
Proof.
  induction a as [|x a IH]; cbn; [reflexivity | rewrite IH; reflexivity].
Qed.

Lemma suffix_of_trans (a b c : string) :
  suffix_of a b -> suffix_of b c -> suffix_of a c.
Proof.
  intros [r1 ->] [r2 ->]. exists (r2 ++ r1)%string. apply eq_sym, append_assoc.
Qed.

Lemma getchar_suffix (input : string) : suffix_of (snd (getchar input)) input.
Proof.
  destruct input as [|c r]; cbn; [apply suffix_of_refl|].
  exists (String c EmptyString). reflexivity.
Qed.

Lemma read_identifier_overflow (s : string) : forall rest buf i,
  all_chars isalnum s = true ->
  (i <= BUFSZ)%nat -> (BUFSZ <= i + String.length s)%nat ->
  match read_identifier (s ++ rest) buf i with
  | Ok (_, _, _, n) => (BUFSZ <= n)%nat
  | Undefined => True
  | OutOfFuel => False
  end.
Proof.
  induction s as [|c s IH]; intros rest buf i Hs Hi Hlen;
    cbn [String.append all_chars String.length] in *.
  - pose proof (read_identifier_defined rest buf i) as Hd.
    destruct (read_identifier rest buf i) as [[[[lc' in'] b'] n]| |] eqn:E;
      [|exact I|congruence].
    apply read_identifier_value in E. lia.
  - apply andb_prop in Hs. destruct Hs as [Hc Hs].
    cbn [read_identifier]. rewrite Hc.
    destruct (Nat.ltb_spec i BUFSZ); [|exact I].
    apply IH; trivial; lia.
Qed.

Lemma read_number_overflow (s : string) : forall lc rest buf i,
  all_chars isnumchar s = true ->
  (i <= BUFSZ)%nat -> (BUFSZ <= i + S (String.length s))%nat ->
  match read_number lc (s ++ rest) buf i with
  | Ok (_, _, _, n) => (BUFSZ <= n)%nat
  | Undefined => True
  | OutOfFuel => False
  end.
Proof.
  induction s as [|c s IH]; intros lc rest buf i Hs Hi Hlen;
    cbn [String.append all_chars String.length] in *.
  - pose proof (read_number_defined rest lc buf i) as Hd.
    destruct (read_number lc rest buf i) as [[[[lc' in'] b'] n]| |] eqn:E;
      [|exact I|congruence].
    apply read_number_value in E. lia.
  - apply andb_prop in Hs. destruct Hs as [Hc Hs].
    cbn [read_number].
    destruct (Nat.ltb_spec i BUFSZ); [|exact I].
    unfold isnumchar in Hc. rewrite Hc.
    apply IH; trivial; lia.
Qed.

Section LexerMore.

Context {double : Type} (strtod : string -> double).

Implicit Types st : globals double.

Lemma gettok_rec_skip (fuel : nat) st in1 lc1 in2 lc2 :
  skip_whitespace lc1 in1 = skip_whitespace lc2 in2 ->
  gettok_rec strtod (S fuel) (set_lexer st in1 lc1) =
  gettok_rec strtod (S fuel) (set_lexer st in2 lc2).
Proof.
  intros H. cbn [gettok_rec]. cbn [stdin LastChar set_lexer]. rewrite H.
  reflexivity.
Qed.

(** X2: White space before a token is skipped: with the look-ahead on white
    space, a run [ws] of blanks, tabs and line ends in front of the input
    changes neither the next token nor the state [gettok] leaves. *)
Theorem gettok_skips_whitespace st ws rest :
  isspace (LastChar st) = true ->
  all_chars isspace ws = true ->
  gettok strtod (with_stdin st (ws ++ rest)) =
  gettok strtod (with_stdin st rest).
Proof.
  intros Hlc Hws. unfold gettok, with_stdin. cbn [stdin set_lexer].
  rewrite (gettok_rec_fuel strtod (S (String.length rest))
             (S (String.length (ws ++ rest))))
    by (cbn [stdin set_lexer]; rewrite ?length_append; lia).
  apply gettok_rec_skip, skip_whitespace_run; assumption.
Qed.

Lemma gettok_rest_eof_form st lc input st' :
  gettok_rest st lc input = Ok (tok_eof, st') ->
  st' = set_lexer st input EOF.
Proof.
  unfold gettok_rest. destruct (Z.eqb_spec lc EOF) as [->|Hne].
  - intros [= <-]. reflexivity.
  - destruct (getchar input). intros [= E _]. contradiction Hne.
Qed.

Lemma gettok_rec_eof_form (fuel : nat) : forall st st',
  gettok_rec strtod fuel st = Ok (tok_eof, st') ->
  LastChar st' = EOF.
Proof.
  induction fuel as [|fuel IH]; intros st st'; cbn [gettok_rec];
    [discriminate|].
  destruct (skip_whitespace (LastChar st) (stdin st)) as [lc input].
  destruct (isalpha lc).
  { destruct (read_identifier _ _ _) as [[[[lc' input'] buf] n]| |];
      cbn [bind]; try discriminate.
    destruct (n <? BUFSZ)%nat; [|discriminate].
    destruct (read_cstr _) as [name| |]; cbn [bind]; try discriminate.
    destruct (streq name "def"); [discriminate|].
    destruct (streq name "extern"); discriminate. }
  destruct (isdigit lc || (lc =? chr "."))%bool.
  { unfold declare_NumStr.
    destruct (read_number _ _ _ _) as [[[[lc' input'] buf] n]| |];
      cbn [bind]; try discriminate.
    destruct (n <? BUFSZ)%nat; discriminate. }
  destruct (lc =? chr "#").
  - destruct (skip_comment input) as [lc' input'].
    destruct (negb (lc' =? EOF)).
    + apply IH.
    + intros H. apply gettok_rest_eof_form in H. subst st'. reflexivity.
  - intros H. apply gettok_rest_eof_form in H. subst st'. reflexivity.
Qed.

(** X3: The end of file is not eaten: once [gettok] has answered [tok_eof],
    it answers [tok_eof] again, from the state it left and back into
    it, for ever. *)
Theorem gettok_eof_sticky st st' :
  gettok strtod st = Ok (tok_eof, st') ->
  gettok strtod st' = Ok (tok_eof, st').
Proof.
  intros H. apply gettok_rec_eof_form in H.
  unfold gettok. cbn [gettok_rec]. rewrite H.
  rewrite skip_whitespace_nonblank by reflexivity.
  destruct st'. cbn in H. subst. reflexivity.
Qed.

Lemma gettok_rest_kinds st lc input t st' :
  gettok_rest st lc input = Ok (t, st') ->
  getchar_value (LastChar st') /\
  suffix_of (stdin st') input /\
  (t = tok_eof \/ t = lc /\ lc <> EOF).
Proof.
  unfold gettok_rest. destruct (Z.eqb_spec lc EOF) as [->|Hne].
  - intros [= <- <-]. cbn [LastChar stdin set_lexer].
    split; [unfold getchar_value, EOF; lia|].
    split; [apply suffix_of_refl | left; reflexivity].
  - pose proof (getchar_is_value input) as Hv.
    pose proof (getchar_suffix input) as Hs.
    destruct (getchar input) as [lc' input']. intros [= <- <-].
    cbn [LastChar stdin set_lexer]. auto.
Qed.

Lemma gettok_rec_kinds (fuel : nat) : forall st t st',
  gettok_rec strtod fuel st = Ok (t, st') ->
  getchar_value (LastChar st') /\
  suffix_of (stdin st') (stdin st) /\
  (getchar_value (LastChar st) ->
   t = tok_eof \/ t = tok_def \/ t = tok_extern \/ t = tok_identifier \/
   t = tok_number \/ character_token t).
Proof.
  induction fuel as [|fuel IH]; intros st t st'; cbn [gettok_rec];
    [discriminate|].
  pose proof (skip_whitespace_not_space (stdin st) (LastChar st)) as Hns.
  pose proof (skip_whitespace_value (stdin st) (LastChar st)) as Hval.
  pose proof (skip_whitespace_suffix (stdin st) (LastChar st)) as Hsuf.
  destruct (skip_whitespace (LastChar st) (stdin st)) as [lc input].
  cbn [fst snd] in *.
  destruct (isalpha lc) eqn:Halpha.
  { destruct (read_identifier _ _ _) as [[[[lc' input'] buf] n]| |] eqn:Hr;
      cbn [bind]; try discriminate.
    apply read_identifier_value in Hr. destruct Hr as (Hv & _ & Hs).
    destruct (n <? BUFSZ)%nat; [|discriminate].
    destruct (read_cstr _) as [name| |]; cbn [bind]; try discriminate.
    assert (Hs' : suffix_of input' (stdin st))
      by (eapply suffix_of_trans; eassumption).
    destruct (streq name "def"); [intros [= <- <-]; cbn; auto 7|].
    destruct (streq name "extern"); intros [= <- <-]; cbn; auto 7. }
  destruct (isdigit lc || (lc =? chr "."))%bool eqn:Hnum.
  { unfold declare_NumStr.
    destruct (read_number _ _ _ _) as [[[[lc' input'] buf] n]| |] eqn:Hr;
      cbn [bind]; try discriminate.
    apply read_number_value in Hr. destruct Hr as (Hv & _ & Hs).
    destruct (n <? BUFSZ)%nat; [|discriminate].
    intros [= <- <-]. cbn.
    split; [exact Hv|]. split; [eapply suffix_of_trans; eassumption|].
    auto 7. }
  destruct (Z.eqb_spec lc (chr "#")) as [Hhash|Hhash].
  - destruct (skip_comment_value input) as [Hcv Hcs].
    destruct (skip_comment input) as [lc' input']. cbn [fst snd] in *.
    destruct (Z.eqb_spec lc' EOF) as [Heof|Heof]; cbn [negb].
    + (* the comment ran into the end of the input *)
      intros H. apply gettok_rest_kinds in H. destruct H as (Hv & Hs & Hk).
      split; [exact Hv|].
      split; [eapply suffix_of_trans; [exact Hs|];
              eapply suffix_of_trans; eassumption|].
      intros _. destruct Hk as [->|[_ Hne]]; [auto | contradiction].
    + intros H. apply IH in H. cbn [LastChar stdin set_lexer] in H.
      destruct H as (Hv & Hs & Hk).
      split; [exact Hv|].
      split; [eapply suffix_of_trans; [exact Hs|];
              eapply suffix_of_trans; eassumption|].
      intros _. apply Hk. exact Hcv.
  - intros H. apply gettok_rest_kinds in H. destruct H as (Hv & Hs & Hk).
    split; [exact Hv|]. split; [eapply suffix_of_trans; eassumption|].
    intros Hin. destruct Hk as [->|[-> Hne]]; [auto|].
    do 5 right. specialize (Hval Hin).
    unfold character_token, isnumchar. unfold getchar_value, EOF in *.
    repeat split; trivial; lia.
Qed.

(** X4: What [gettok] can return and leave: the look-ahead it leaves is a
    value of [getchar]; what is left to read is an end piece of what
    was; and, when the look-ahead it found was a value of [getchar], the
    token is one of the five negative markers or a byte that is neither
    white space, nor a letter, a digit, '.' or '#'. *)
Theorem gettok_token_kinds st t st' :
  gettok strtod st = Ok (t, st') ->
  getchar_value (LastChar st') /\
  suffix_of (stdin st') (stdin st) /\
  (getchar_value (LastChar st) ->
   t = tok_eof \/ t = tok_def \/ t = tok_extern \/ t = tok_identifier \/
   t = tok_number \/ character_token t).
Proof. apply gettok_rec_kinds. Qed.

(** X5: A byte that is no white space, letter, digit, '.' or '#' is its own
    token: [gettok] returns its code and reads one character further. *)
Theorem gettok_character st c rest :
  skip_whitespace (LastChar st) (stdin st) = (int_of_char c, rest) ->
  character_token (int_of_char c) ->
  gettok strtod st =
    Ok (int_of_char c,
        set_lexer st (snd (getchar rest)) (fst (getchar rest))).
Proof.
  intros Hskip (_ & _ & Halpha & Hnum & Hhash).
  unfold gettok. cbn [gettok_rec]. rewrite Hskip, Halpha.
  unfold isnumchar in Hnum. rewrite Hnum.
  destruct (Z.eqb_spec (int_of_char c) (chr "#")); [contradiction|].
  unfold gettok_rest. rewrite int_of_char_not_EOF.
  destruct (getchar rest). reflexivity.
Qed.

(** X6: A name of 64 characters or more overflows [IdentifierStr]: the
    behaviour of [gettok] is undefined. *)
Theorem gettok_identifier_overflow st c s rest :
  skip_whitespace (LastChar st) (stdin st) = (int_of_char c, (s ++ rest)%string) ->
  isalpha (int_of_char c) = true ->
  all_chars isalnum s = true ->
  (64 <= String.length (String c s))%nat ->
  gettok strtod st = Undefined.
Proof.
  intros Hskip Hc Hs Hlen. cbn [String.length] in Hlen.
  unfold gettok. cbn [gettok_rec]. rewrite Hskip, Hc.
  pose proof (read_identifier_overflow s rest
                (<[0%nat := char_of_int (int_of_char c)]> (IdentifierStr st))
                1 Hs) as H.
  destruct (read_identifier _ _ _) as [[[[lc' in'] b'] n]| |]; cbn [bind].
  - destruct (Nat.ltb_spec n BUFSZ); [|reflexivity].
    unfold BUFSZ in *. specialize (H ltac:(lia) ltac:(lia)). lia.
  - reflexivity.
  - unfold BUFSZ in *. specialize (H ltac:(lia) ltac:(lia)). contradiction.
Qed.

(** X7: A numeric literal of 63 characters or more overflows [NumStr]: the
    behaviour of [gettok] is undefined. *)
Theorem gettok_number_overflow st c s rest :
  skip_whitespace (LastChar st) (stdin st) = (int_of_char c, (s ++ rest)%string) ->
  isnumchar (int_of_char c) = true ->
  all_chars isnumchar s = true ->
  (63 <= String.length (String c s))%nat ->
  gettok strtod st = Undefined.
Proof.
  intros Hskip Hc Hs Hlen. cbn [String.length] in Hlen.
  unfold gettok. cbn [gettok_rec]. rewrite Hskip.
  rewrite (isnumchar_not_alpha _ Hc).
  change (isdigit (int_of_char c) || (int_of_char c =? chr "."))%bool
    with (isnumchar (int_of_char c)).
  rewrite Hc. unfold declare_NumStr.
  pose proof (read_number_overflow s (int_of_char c) rest
                (map (indeterminate st (NumStr_decls st)) (seq 0 BUFSZ))
                1 Hs) as H.
  destruct (read_number _ _ _ _) as [[[[lc' in'] b'] n]| |]; cbn [bind].
  - destruct (Nat.ltb_spec n BUFSZ); [|reflexivity].
    unfold BUFSZ in *. specialize (H ltac:(lia) ltac:(lia)). lia.
  - reflexivity.
  - unfold BUFSZ in *. specialize (H ltac:(lia) ltac:(lia)). contradiction.
Qed.

End LexerMore.

(** ** Further properties of the parser and of the driver *)

Lemma isascii_range (z : Z) : isascii z = true -> 0 <= z < 128.
Proof.
  unfold isascii. intros H. apply Z.eqb_eq in H.
  assert (E : Z.land z (Z.lor 127 (Z.lnot 127)) = z)
    by exact (Z.land_m1_r z).
  rewrite Z.land_lor_distr_r, H, Z.lor_0_r in E. symmetry in E.
  change 127 with (Z.ones 7) in E. rewrite Z.land_ones in E by lia.
  pose proof (Z.mod_pos_bound z (2 ^ 7) ltac:(lia)). change (2 ^ 7) with 128 in *.
  lia.
Qed.

Section ParserMore.

Context {double : Type} (strtod : string -> double).

Implicit Types st : globals double.

Lemma GetTokPrecedence_loop_range (n : nat) : forall i st v,
  GetTokPrecedence_loop n i st = Ok v ->
  v = -1 \/
  (0 < v /\
   exists k op, (i <= k < i + n)%nat /\
     BinopPrecedenceOperators st !! k = Some op /\
     BinopPrecedencePrecedence st !! k = Some v /\
     CurTok st = int_of_char op).
Proof.
  induction n as [|n IH]; intros i st v; cbn [GetTokPrecedence_loop].
  - intros [= <-]. left. reflexivity.
  - destruct (BinopPrecedenceOperators st !! i) as [op|] eqn:Eo;
      [|discriminate].
    destruct (BinopPrecedencePrecedence st !! i) as [p|] eqn:Ep;
      [|discriminate].
    destruct (Z.eqb_spec (CurTok st) (int_of_char op)) as [Ec|_].
    + destruct (Z.leb_spec p 0); intros [= <-]; [left; reflexivity|].
      right. split; [lia|]. exists i, op. repeat split; trivial; lia.
    + intros H. apply IH in H. destruct H as [H|(Hv & k & o & Hk & H)];
        [left; exact H|].
      right. split; [exact Hv|]. exists k, o. split; [lia | exact H].
Qed.

(** A precedence that is not -1 is positive and belongs to an operator
    of the table, which is the current token. *)
Lemma GetTokPrecedence_operator st v :
  GetTokPrecedence st = Ok v ->
  v = -1 \/
  (0 < v /\ exists op,
     In op (BinopPrecedenceOperators st) /\
     CurTok st = int_of_char op /\ int_of_char op < 128).
Proof.
  unfold GetTokPrecedence.
  destruct (isascii (CurTok st)) eqn:Ha; cbn [negb].
  - intros H. apply GetTokPrecedence_loop_range in H.
    destruct H as [H|(Hv & k & op & _ & Hk & _ & Hc)]; [left; exact H|].
    right. split; [exact Hv|]. exists op.
    split; [apply list_elem_of_In; eapply list_elem_of_lookup_2; exact Hk|].
    split; [exact Hc|]. apply isascii_range in Ha. lia.
  - intros [= <-]. left. reflexivity.
Qed.

(** X8: [GetTokPrecedence] answers -1 or a positive precedence, never 0 or
    another negative number; a positive answer is the entry of the table
    for the current token, which is an ASCII character. *)
Theorem GetTokPrecedence_range st v :
  GetTokPrecedence st = Ok v ->
  v = -1 \/
  (0 < v /\ 0 <= CurTok st < 128 /\
   exists k op, (k < NUM_BINOPS)%nat /\
     BinopPrecedenceOperators st !! k = Some op /\
     BinopPrecedencePrecedence st !! k = Some v /\
     CurTok st = int_of_char op).
Proof.
  unfold GetTokPrecedence.
  destruct (isascii (CurTok st)) eqn:Ha; cbn [negb].
  - intros H. apply GetTokPrecedence_loop_range in H.
    destruct H as [H|(Hv & k & op & Hk & H)]; [left; exact H|].
    right. split; [exact Hv|]. split; [apply isascii_range; exact Ha|].
    exists k, op. split; [lia | exact H].
  - intros [= <-]. left. reflexivity.
Qed.

Lemma ParseBinOpRHS_stop (fuel : nat) : forall ExprPrec LHS st e st',
  ParseBinOpRHS strtod fuel ExprPrec LHS st = Ok (Some e, st') ->
  exists p, GetTokPrecedence st' = Ok p /\ p < ExprPrec.
Proof.
  induction fuel as [|fuel IH]; intros ExprPrec LHS st e st';
    [discriminate|].
  rewrite ParseBinOpRHS_eq.
  destruct (GetTokPrecedence st) as [TokPrec| |] eqn:Htok; cbn [bind];
    try discriminate.
  destruct (Z.ltb_spec TokPrec ExprPrec).
  - intros [= <- <-]. exists TokPrec. split; assumption.
  - destruct (getNextToken strtod st) as [[t st1]| |]; cbn [bind];
      try discriminate.
    destruct (ParsePrimary strtod fuel st1) as [[[RHS|] st2]| |]; cbn [bind];
      try discriminate.
    destruct (GetTokPrecedence st2) as [NextPrec| |]; cbn [bind];
      try discriminate.
    destruct (TokPrec <? NextPrec).
    + destruct (ParseBinOpRHS strtod fuel (TokPrec + 1) RHS st2)
        as [[[RHS'|] st3]| |]; cbn [bind]; try discriminate.
      apply IH.
    + cbn [bind]. apply IH.
Qed.

(** X9: Precedence climbing stops only where it must: when [ParseBinOpRHS]
    returns a node, the token it stopped on has a precedence below
    [ExprPrec]. *)
Theorem ParseBinOpRHS_stops_below fuel ExprPrec LHS st e st' :
  ParseBinOpRHS strtod fuel ExprPrec LHS st = Ok (Some e, st') ->
  exists p, GetTokPrecedence st' = Ok p /\ p < ExprPrec.
Proof. apply ParseBinOpRHS_stop. Qed.

(** X10: After an expression was parsed the current token is no binary
    operator of the table. *)
Theorem ParseExpression_stops_at_non_operator fuel st e st' :
  ParseExpression strtod fuel st = Ok (Some e, st') ->
  GetTokPrecedence st' = Ok (-1).
Proof.
  destruct fuel as [|fuel]; [discriminate|].
  rewrite ParseExpression_eq.
  destruct (ParsePrimary strtod fuel st) as [[[LHS|] st1]| |]; cbn [bind];
    try discriminate.
  intros H. apply ParseBinOpRHS_stop in H.
  destruct H as (p & Hp & Hlt).
  destruct (GetTokPrecedence_operator _ _ Hp) as [->|[Hpos _]];
    [exact Hp | lia].
Qed.

End ParserMore.

(** *** What no parsing function and no handler changes

    Whatever relation between states holds across a call of
    [getNextToken] and across a print of the program holds across every
    function of the parser and of the driver. *)

Section Frame.

Context {double : Type} (strtod : string -> double).

Implicit Types st : globals double.

Variable R : globals double -> globals double -> Prop.
Hypothesis R_refl : forall st, R st st.
Hypothesis R_trans : forall st1 st2 st3, R st1 st2 -> R st2 st3 -> R st1 st3.
Hypothesis R_token : forall st t st',
  getNextToken strtod st = Ok (t, st') -> R st st'.
Hypothesis R_print : forall st text,
  driver_text text -> R st (fprintf_stderr st text).

Lemma related_from {A} st1 st (r : result (A * globals double)) :
  related R st1 r -> R st st1 -> related R st r.
Proof.
  destruct r as [[a st2]| |]; cbn; trivial. intros H1 H2.
  eapply R_trans; eassumption.
Qed.

Lemma related_bind {A B} st st1 (c : result (A * globals double))
    (k : A * globals double -> result (B * globals double)) :
  R st st1 -> related R st1 c ->
  (forall a st2, R st st2 -> related R st (k (a, st2))) ->
  related R st (bind c k).
Proof.
  intros H1 H2 H3. destruct c as [[a st2]| |]; cbn [bind]; try exact I.
  apply H3. eapply R_trans; eassumption.
Qed.

Lemma getNextToken_related st : related R st (getNextToken strtod st).
Proof.
  destruct (getNextToken strtod st) as [[t st']| |] eqn:E; cbn; trivial.
  eapply R_token; eassumption.
Qed.

Lemma Error_related {A} st st1 msg :
  R st st1 -> related (A := option A) R st (Error msg st1).
Proof.
  intros H. unfold Error. cbn [related]. eapply R_trans; [exact H|].
  apply R_print. right. right. exists msg. reflexivity.
Qed.

Lemma ErrorP_related st st1 msg :
  R st st1 -> related R st (ErrorP msg st1).
Proof.
  intros H. unfold ErrorP, Error. cbn [bind related].
  eapply R_trans; [exact H|].
  apply R_print. right. right. exists msg. reflexivity.
Qed.

(** A call in the goal whose outcome is known to be related. *)
Ltac frame_call :=
  first [ apply getNextToken_related
        | match goal with H : _ |- _ => apply H end ].

Ltac frame :=
  repeat first
    [ exact I
    | assumption
    | apply Error_related; assumption
    | apply ErrorP_related; assumption
    | eapply related_bind; [ | frame_call | intros ? ? ? ]; [ eassumption | ]
    | eapply related_from; [ frame_call | eassumption ]
    | progress cbv beta iota zeta
    | progress cbn [related bind]
    | match goal with
      | |- related _ _ (match ?x with _ => _ end) => destruct x
      | |- related _ _ (bind (if ?c then _ else _) _) => destruct c
      | |- related _ _ (bind (read_cstr ?b) _) => destruct (read_cstr b)
      | |- related _ _ (bind (GetTokPrecedence ?s) _) =>
          destruct (GetTokPrecedence s)
      end ].

Lemma ParseNumberExpr_related st : related R st (ParseNumberExpr strtod st).
Proof.
  pose proof (R_refl st). unfold ParseNumberExpr. frame.
Qed.

Section FrameStep.

Variable fuel : nat.
Hypothesis IHExpression :
  forall st, related R st (ParseExpression strtod fuel st).
Hypothesis IHPrimary :
  forall st, related R st (ParsePrimary strtod fuel st).
Hypothesis IHParen :
  forall st, related R st (ParseParenExpr strtod fuel st).
Hypothesis IHIdentifier :
  forall st, related R st (ParseIdentifierExpr strtod fuel st).
Hypothesis IHCallArgs : forall Callee Args NumArgs st,
  related R st (ParseCallArgs strtod fuel Callee Args NumArgs st).
Hypothesis IHBinOpRHS : forall ExprPrec LHS st,
  related R st (ParseBinOpRHS strtod fuel ExprPrec LHS st).

Lemma ParseExpression_related_step st :
  related R st (ParseExpression strtod (S fuel) st).
Proof.
  pose proof (R_refl st). rewrite ParseExpression_eq. frame.
Qed.

Lemma ParsePrimary_related_step st :
  related R st (ParsePrimary strtod (S fuel) st).
Proof.
  pose proof (R_refl st). rewrite ParsePrimary_eq.
  destruct (_ =? tok_identifier); [apply IHIdentifier|].
  destruct (_ =? tok_number); [apply ParseNumberExpr_related|].
  destruct (_ =? chr "("); [apply IHParen|].
  frame.
Qed.

Lemma ParseParenExpr_related_step st :
  related R st (ParseParenExpr strtod (S fuel) st).
Proof.
  pose proof (R_refl st). rewrite ParseParenExpr_unfold. frame.
Qed.

Lemma ParseIdentifierExpr_related_step st :
  related R st (ParseIdentifierExpr strtod (S fuel) st).
Proof.
  pose proof (R_refl st). rewrite ParseIdentifierExpr_eq. frame.
Qed.

Lemma ParseCallArgs_related_step Callee Args NumArgs st :
  related R st (ParseCallArgs strtod (S fuel) Callee Args NumArgs st).
Proof.
  pose proof (R_refl st). rewrite ParseCallArgs_eq. frame.
Qed.

Lemma ParseBinOpRHS_related_step ExprPrec LHS st :
  related R st (ParseBinOpRHS strtod (S fuel) ExprPrec LHS st).
Proof.
  pose proof (R_refl st). rewrite ParseBinOpRHS_eq. frame.
Qed.

End FrameStep.

Lemma parser_related fuel :
  (forall st, related R st (ParseExpression strtod fuel st)) /\
  (forall st, related R st (ParsePrimary strtod fuel st)) /\
  (forall st, related R st (ParseParenExpr strtod fuel st)) /\
  (forall st, related R st (ParseIdentifierExpr strtod fuel st)) /\
  (forall Callee Args NumArgs st,
      related R st (ParseCallArgs strtod fuel Callee Args NumArgs st)) /\
  (forall ExprPrec LHS st,
      related R st (ParseBinOpRHS strtod fuel ExprPrec LHS st)).
Proof.
  induction fuel as [|fuel (IHe & IHp & IHpar & IHid & IHargs & IHrhs)].
  - repeat split; intros; exact I.
  - repeat split; intros.
    + apply ParseExpression_related_step; assumption.
    + apply ParsePrimary_related_step; assumption.
    + apply ParseParenExpr_related_step; assumption.
    + apply ParseIdentifierExpr_related_step; assumption.
    + apply ParseCallArgs_related_step; assumption.
    + apply ParseBinOpRHS_related_step; assumption.
Qed.

Lemma ParseExpression_related fuel st :
  related R st (ParseExpression strtod fuel st).
Proof. apply parser_related. Qed.

Lemma ParsePrototype_args_related fuel : forall Args NumArgs st,
  related R st (ParsePrototype_args strtod fuel Args NumArgs st).
Proof.
  induction fuel as [|fuel IH]; intros Args NumArgs st; [exact I|].
  pose proof (R_refl st). cbn [ParsePrototype_args]. frame.
Qed.

Lemma ParsePrototype_related fuel st :
  related R st (ParsePrototype strtod fuel st).
Proof.
  pose proof (R_refl st).
  pose proof (ParsePrototype_args_related fuel) as Hargs.
  unfold ParsePrototype. frame.
Qed.

Lemma ParseDefinition_related fuel st :
  related R st (ParseDefinition strtod fuel st).
Proof.
  pose proof (R_refl st).
  pose proof (ParsePrototype_related fuel) as Hp.
  pose proof (ParseExpression_related fuel) as He.
  unfold ParseDefinition. frame.
Qed.

Lemma ParseExtern_related fuel st :
  related R st (ParseExtern strtod fuel st).
Proof.
  pose proof (R_refl st).
  pose proof (ParsePrototype_related fuel) as Hp.
  unfold ParseExtern. frame.
Qed.

Lemma ParseTopLevelExpr_related fuel st :
  related R st (ParseTopLevelExpr strtod fuel st).
Proof.
  pose proof (R_refl st).
  pose proof (ParseExpression_related fuel) as He.
  unfold ParseTopLevelExpr. frame.
Qed.

Lemma handlers_related fuel st :
  related_state R st (HandleDefinition strtod fuel st) /\
  related_state R st (HandleExtern strtod fuel st) /\
  related_state R st (HandleTopLevelExpression strtod fuel st).
Proof.
  unfold HandleDefinition, HandleExtern, HandleTopLevelExpression.
  pose proof (ParseDefinition_related fuel st) as Hd.
  pose proof (ParseExtern_related fuel st) as He.
  pose proof (ParseTopLevelExpr_related fuel st) as Ht.
  repeat split.
  - destruct (ParseDefinition strtod fuel st) as [[[F|] st1]| |];
      cbn [bind related related_state] in *; trivial.
    + eapply R_trans; [exact Hd|]. apply R_print. right. left. left.
      reflexivity.
    + pose proof (getNextToken_related st1) as Hn.
      destruct (getNextToken strtod st1) as [[t st2]| |];
        cbn [bind related related_state] in *; trivial.
      eapply R_trans; eassumption.
  - destruct (ParseExtern strtod fuel st) as [[[F|] st1]| |];
      cbn [bind related related_state] in *; trivial.
    + eapply R_trans; [exact He|]. apply R_print. right. left. right. left.
      reflexivity.
    + pose proof (getNextToken_related st1) as Hn.
      destruct (getNextToken strtod st1) as [[t st2]| |];
        cbn [bind related related_state] in *; trivial.
      eapply R_trans; eassumption.
  - destruct (ParseTopLevelExpr strtod fuel st) as [[[F|] st1]| |];
      cbn [bind related related_state] in *; trivial.
    + eapply R_trans; [exact Ht|]. apply R_print. right. left. right. right.
      reflexivity.
    + pose proof (getNextToken_related st1) as Hn.
      destruct (getNextToken strtod st1) as [[t st2]| |];
        cbn [bind related related_state] in *; trivial.
      eapply R_trans; eassumption.
Qed.

Lemma MainLoop_related fuel : forall st,
  related_state R st (MainLoop strtod fuel st).
Proof.
  induction fuel as [|fuel IH]; intros st; [exact I|].
  cbn [MainLoop].
  assert (Hp : R st (fprintf_stderr st "ready> "))
    by (apply R_print; left; reflexivity).
  set (st0 := fprintf_stderr st "ready> ") in *.
  assert (Hloop : forall st1, R st st1 ->
            related_state R st (MainLoop strtod fuel st1)).
  { intros st1 H1. specialize (IH st1).
    destruct (MainLoop strtod fuel st1); cbn in *; trivial.
    eapply R_trans; eassumption. }
  assert (Hhandle : forall (h : result (globals double)),
            related_state R st0 h ->
            related_state R st
              (bind h (fun st1 => MainLoop strtod fuel st1))).
  { intros h Hh. destruct h as [st1| |]; cbn [bind]; trivial.
    apply Hloop. eapply R_trans; [exact Hp | exact Hh]. }
  destruct (CurTok st0 =? tok_eof); [exact Hp|].
  destruct (CurTok st0 =? chr ";").
  { pose proof (getNextToken_related st0) as Hn.
    destruct (getNextToken strtod st0) as [[t st1]| |]; cbn [bind]; trivial.
    apply Hloop. eapply R_trans; [exact Hp | exact Hn]. }
  destruct (handlers_related fuel st0) as (Hd & He & Ht).
  destruct (CurTok st0 =? tok_def); [apply Hhandle; exact Hd|].
  destruct (CurTok st0 =? tok_extern); apply Hhandle; assumption.
Qed.

End Frame.

(** *** Instances: input, table, output *)

Section Driver.

Context {double : Type} (strtod : string -> double).

Implicit Types st : globals double.

Lemma getNextToken_inv st t st' :
  getNextToken strtod st = Ok (t, st') ->
  exists st0, gettok strtod st = Ok (t, st0) /\ st' = set_CurTok st0 t.
Proof.
  unfold getNextToken.
  destruct (gettok strtod st) as [[t0 st0]| |] eqn:E; cbn [bind];
    try discriminate.
  intros [= <- <-]. eauto.
Qed.

Lemma reads_on_facts :
  (forall st, reads_on st st) /\
  (forall st1 st2 st3,
      reads_on st1 st2 -> reads_on st2 st3 -> reads_on st1 st3) /\
  (forall st t st', getNextToken strtod st = Ok (t, st') -> reads_on st st') /\
  (forall st text, driver_text text -> reads_on st (fprintf_stderr st text)).
Proof.
  unfold reads_on. repeat split; intros.
  - apply suffix_of_refl.
  - eapply suffix_of_trans; eassumption.
  - apply getNextToken_inv in H. destruct H as (st0 & H & ->).
    unfold gettok in H. apply gettok_rec_kinds in H. apply H.
  - apply suffix_of_refl.
Qed.

(** X11: No backtracking: whatever a parsing function, a handler or the main
    loop returns, the input left to read afterwards is an end piece of
    the input that was left before. *)
Theorem parser_never_reads_back fuel st :
  related reads_on st (ParseExpression strtod fuel st) /\
  related reads_on st (ParsePrototype strtod fuel st) /\
  related reads_on st (ParseDefinition strtod fuel st) /\
  related reads_on st (ParseExtern strtod fuel st) /\
  related reads_on st (ParseTopLevelExpr strtod fuel st) /\
  related_state reads_on st (HandleDefinition strtod fuel st) /\
  related_state reads_on st (HandleExtern strtod fuel st) /\
  related_state reads_on st (HandleTopLevelExpression strtod fuel st) /\
  related_state reads_on st (MainLoop strtod fuel st).
Proof.
  destruct reads_on_facts as (Hrefl & Htrans & Htok & Hprint).
  repeat split.
  - apply ParseExpression_related; assumption.
  - apply ParsePrototype_related; assumption.
  - apply ParseDefinition_related; assumption.
  - apply ParseExtern_related; assumption.
  - apply ParseTopLevelExpr_related; assumption.
  - apply handlers_related; assumption.
  - apply handlers_related; assumption.
  - apply handlers_related; assumption.
  - apply MainLoop_related; assumption.
Qed.

Lemma same_tables_facts :
  (forall st, same_tables st st) /\
  (forall st1 st2 st3,
      same_tables st1 st2 -> same_tables st2 st3 -> same_tables st1 st3) /\
  (forall st t st',
      getNextToken strtod st = Ok (t, st') -> same_tables st st') /\
  (forall st text,
      driver_text text -> same_tables st (fprintf_stderr st text)).
Proof.
  unfold same_tables. repeat split; intros; try (intuition congruence).
  - apply getNextToken_inv in H. destruct H as (st0 & H & ->).
    apply gettok_frame in H. apply H.
  - apply getNextToken_inv in H. destruct H as (st0 & H & ->).
    apply gettok_frame in H. apply H.
Qed.

(** X12: Only [main] writes the operator table: no parsing function, handler
    or turn of the main loop changes an operator or a precedence, so
    what [GetTokPrecedence] answers for a token stays the same
    throughout a run. *)
Theorem table_is_never_changed fuel st :
  related same_tables st (ParseExpression strtod fuel st) /\
  related same_tables st (ParseDefinition strtod fuel st) /\
  related same_tables st (ParseExtern strtod fuel st) /\
  related same_tables st (ParseTopLevelExpr strtod fuel st) /\
  related_state same_tables st (MainLoop strtod fuel st) /\
  (forall st', same_tables st st' -> CurTok st' = CurTok st ->
     GetTokPrecedence st' = GetTokPrecedence st).
Proof.
  destruct same_tables_facts as (Hrefl & Htrans & Htok & Hprint).
  repeat split.
  - apply ParseExpression_related; assumption.
  - apply ParseDefinition_related; assumption.
  - apply ParseExtern_related; assumption.
  - apply ParseTopLevelExpr_related; assumption.
  - apply MainLoop_related; assumption.
  - intros st' (Ho & Hp) Hc. unfold GetTokPrecedence. rewrite Hc.
    destruct (negb _); [reflexivity|].
    generalize 0%nat. generalize NUM_BINOPS.
    induction n as [|n IH]; intros i; cbn [GetTokPrecedence_loop];
      [reflexivity|].
    rewrite Ho, Hp, Hc, IH. reflexivity.
Qed.

Lemma prints_only_facts :
  (forall st, prints_only st st) /\
  (forall st1 st2 st3,
      prints_only st1 st2 -> prints_only st2 st3 -> prints_only st1 st3) /\
  (forall st t st',
      getNextToken strtod st = Ok (t, st') -> prints_only st st') /\
  (forall st text,
      driver_text text -> prints_only st (fprintf_stderr st text)).
Proof.
  unfold prints_only. repeat split.
  - intros st. exists []. rewrite app_nil_r. split; constructor.
  - intros st1 st2 st3 (l1 & E1 & F1) (l2 & E2 & F2).
    exists (l1 ++ l2)%list. rewrite E2, E1, app_assoc.
    split; [reflexivity | apply Forall_app; split; assumption].
  - intros st t st' H. apply getNextToken_stderr in H.
    exists []. rewrite app_nil_r. split; [exact H | constructor].
  - intros st text H. exists [text]. split; [reflexivity|].
    constructor; [exact H | constructor].
Qed.

Lemma MainLoop_ends_at_eof (fuel : nat) : forall st st',
  MainLoop strtod fuel st = Ok st' ->
  CurTok st' = tok_eof /\ last (stderr st') = Some "ready> ".
Proof.
  induction fuel as [|fuel IH]; intros st st'; cbn [MainLoop];
    [discriminate|].
  set (st0 := fprintf_stderr st "ready> ").
  destruct (Z.eqb_spec (CurTok st0) tok_eof) as [E|_].
  { intros [= <-]. split; [exact E|].
    unfold st0. cbn [stderr fprintf_stderr]. apply last_snoc. }
  destruct (CurTok st0 =? chr ";").
  { destruct (getNextToken strtod st0) as [[t st1]| |]; cbn [bind];
      try discriminate.
    apply IH. }
  destruct (CurTok st0 =? tok_def).
  { destruct (HandleDefinition strtod fuel st0); cbn [bind];
      try discriminate. apply IH. }
  destruct (CurTok st0 =? tok_extern).
  { destruct (HandleExtern strtod fuel st0); cbn [bind];
      try discriminate. apply IH. }
  destruct (HandleTopLevelExpression strtod fuel st0); cbn [bind];
    try discriminate. apply IH.
Qed.

(** X13: The main loop returns only at the end of the input, right after a
    prompt, and all it printed are prompts, acknowledgements and error
    lines. *)
Theorem MainLoop_returns_at_eof fuel st st' :
  MainLoop strtod fuel st = Ok st' ->
  CurTok st' = tok_eof /\
  last (stderr st') = Some "ready> " /\
  prints_only st st'.
Proof.
  intros H. destruct (MainLoop_ends_at_eof fuel st st' H) as [Hc Hl].
  split; [exact Hc|]. split; [exact Hl|].
  destruct prints_only_facts as (Hrefl & Htrans & Htok & Hprint).
  pose proof (MainLoop_related strtod prints_only Hrefl Htrans Htok Hprint
                fuel st) as Hr.
  rewrite H in Hr. exact Hr.
Qed.

(** X14: A handler prints exactly one line for the form it handles: its
    acknowledgement when — and only when — the form was parsed, and
    when the parse failed nothing but the error line of that parse, the
    token skipped for recovery printing nothing. *)
Theorem handlers_print_one_line fuel st :
  (forall st', HandleDefinition strtod fuel st = Ok st' ->
     (exists F st1,
        ParseDefinition strtod fuel st = Ok (Some F, st1) /\
        stderr st' =
          (stderr st ++ [("Parsed a function definition." ++ newline)%string])%list)
     \/
     (exists st1 msg,
        ParseDefinition strtod fuel st = Ok (None, st1) /\
        stderr st1 = (stderr st ++ [error_line msg])%list /\
        (exists t, getNextToken strtod st1 = Ok (t, st')) /\
        stderr st' = stderr st1)) /\
  (forall st', HandleExtern strtod fuel st = Ok st' ->
     (exists P st1,
        ParseExtern strtod fuel st = Ok (Some P, st1) /\
        stderr st' =
          (stderr st ++ [("Parsed an extern" ++ newline)%string])%list)
     \/
     (exists st1 msg,
        ParseExtern strtod fuel st = Ok (None, st1) /\
        stderr st1 = (stderr st ++ [error_line msg])%list /\
        (exists t, getNextToken strtod st1 = Ok (t, st')) /\
        stderr st' = stderr st1)) /\
  (forall st', HandleTopLevelExpression strtod fuel st = Ok st' ->
     (exists F st1,
        ParseTopLevelExpr strtod fuel st = Ok (Some F, st1) /\
        stderr st' =
          (stderr st ++ [("Parsed a top-level expr" ++ newline)%string])%list)
     \/
     (exists st1 msg,
        ParseTopLevelExpr strtod fuel st = Ok (None, st1) /\
        stderr st1 = (stderr st ++ [error_line msg])%list /\
        (exists t, getNextToken strtod st1 = Ok (t, st')) /\
        stderr st' = stderr st1)).
Proof.
  destruct (parser_functions_policy strtod fuel st)
    as (Hd & He & Ht & _).
  unfold HandleDefinition, HandleExtern, HandleTopLevelExpression.
  repeat split; intros st'.
  - destruct (ParseDefinition strtod fuel st) as [[[F|] st1]| |];
      cbn [bind error_policy] in *; try discriminate.
    + intros [= <-]. left. exists F, st1. split; [reflexivity|].
      cbn [stderr fprintf_stderr]. rewrite Hd. reflexivity.
    + destruct (getNextToken strtod st1) as [[t st2]| |] eqn:E;
        cbn [bind]; try discriminate.
      intros [= <-]. pose proof (getNextToken_stderr strtod _ _ _ E).
      destruct Hd as [msg Hd]. right. exists st1, msg. eauto.
  - destruct (ParseExtern strtod fuel st) as [[[P|] st1]| |];
      cbn [bind error_policy] in *; try discriminate.
    + intros [= <-]. left. exists P, st1. split; [reflexivity|].
      cbn [stderr fprintf_stderr]. rewrite He. reflexivity.
    + destruct (getNextToken strtod st1) as [[t st2]| |] eqn:E;
        cbn [bind]; try discriminate.
      intros [= <-]. pose proof (getNextToken_stderr strtod _ _ _ E).
      destruct He as [msg He]. right. exists st1, msg. eauto.
  - destruct (ParseTopLevelExpr strtod fuel st) as [[[F|] st1]| |];
      cbn [bind error_policy] in *; try discriminate.
    + intros [= <-]. left. exists F, st1. split; [reflexivity|].
      cbn [stderr fprintf_stderr]. rewrite Ht. reflexivity.
    + destruct (getNextToken strtod st1) as [[t st2]| |] eqn:E;
        cbn [bind]; try discriminate.
      intros [= <-]. pose proof (getNextToken_stderr strtod _ _ _ E).
      destruct Ht as [msg Ht]. right. exists st1, msg. eauto.
Qed.

End Driver.

(** *** The main loop comes to an end *)

Section DriverTermination.

Context {double : Type} (strtod : string -> double).

Implicit Types st : globals double.

Lemma pending_fprintf st text : pending (fprintf_stderr st text) = pending st.
Proof. reflexivity. Qed.

Lemma not_more_pending_facts :
  (forall st, not_more_pending st st) /\
  (forall st1 st2 st3,
      not_more_pending st1 st2 -> not_more_pending st2 st3 ->
      not_more_pending st1 st3) /\
  (forall st t st',
      getNextToken strtod st = Ok (t, st') -> not_more_pending st st') /\
  (forall st text,
      driver_text text -> not_more_pending st (fprintf_stderr st text)).
Proof.
  unfold not_more_pending. repeat split; intros; try lia.
  - apply getNextToken_pending in H. lia.
  - rewrite pending_fprintf. lia.
Qed.

Lemma skip_token_progress st0 st1 :
  (pending st1 <= pending st0)%nat ->
  CurTok st0 <> tok_eof ->
  progress st0 (let* (_, st) := getNextToken strtod st1 in Ok st).
Proof.
  intros Hle Hc0.
  pose proof (getNextToken_defined strtod st1) as Hd.
  destruct (getNextToken strtod st1) as [[t st2]| |] eqn:E; cbn [bind];
    [ | exact I | contradiction Hd; reflexivity ].
  apply getNextToken_pending in E. destruct E as (_ & Hle2 & Hlt & _).
  cbn [progress].
  destruct (Z.eq_dec (CurTok st1) tok_eof) as [E1|E1].
  - (* the parse stopped on the end of file: it has read on *)
    unfold pending in *. rewrite E1 in *.
    destruct (Z.eqb_spec (CurTok st0) tok_eof); [contradiction|].
    change (tok_eof =? tok_eof) with true in *. cbv iota in *. lia.
  - specialize (Hlt E1). lia.
Qed.

Lemma ParseDefinition_progress fuel st :
  CurTok st <> tok_eof ->
  related (fun a b => (pending b < pending a)%nat) st
    (ParseDefinition strtod fuel st) /\
  related (fun a b => (pending b < pending a)%nat) st
    (ParseExtern strtod fuel st).
Proof.
  intros Hc.
  destruct not_more_pending_facts as (Hrefl & Htrans & Htok & Hprint).
  unfold ParseDefinition, ParseExtern.
  destruct (getNextToken strtod st) as [[t st1]| |] eqn:E; cbn [bind];
    [ | split; exact I | split; exact I ].
  apply getNextToken_pending in E. destruct E as (_ & _ & Hlt & _).
  specialize (Hlt Hc).
  pose proof (ParsePrototype_related strtod not_more_pending
                Hrefl Htrans Htok Hprint fuel st1) as Hp.
  unfold not_more_pending in *.
  destruct (ParsePrototype strtod fuel st1) as [[[P|] st2]| |];
    cbn [bind related] in *; try (split; (exact I || lia)).
  split; [|lia].
  pose proof (ParseExpression_related strtod not_more_pending
                Hrefl Htrans Htok Hprint fuel st2) as He.
  unfold not_more_pending in *.
  destruct (ParseExpression strtod fuel st2) as [[[e|] st3]| |];
    cbn [bind related] in *; trivial; lia.
Qed.

Lemma handlers_progress fuel st :
  CurTok st <> tok_eof ->
  (enough_fuel st <= fuel)%nat ->
  progress st (HandleDefinition strtod fuel st) /\
  progress st (HandleExtern strtod fuel st) /\
  progress st (HandleTopLevelExpression strtod fuel st).
Proof.
  intros Hc Hf.
  destruct (top_level_answers strtod st fuel Hf) as (Dd & De & Dt).
  destruct (ParseDefinition_progress fuel st Hc) as (Pd & Pe).
  unfold HandleDefinition, HandleExtern, HandleTopLevelExpression.
  repeat split.
  - destruct (ParseDefinition strtod fuel st) as [[[F|] st1]| |];
      cbn [bind related] in *; [ | | exact I | contradiction Dd; reflexivity ].
    + cbn [progress]. rewrite pending_fprintf. exact Pd.
    + apply skip_token_progress; [lia | exact Hc].
  - destruct (ParseExtern strtod fuel st) as [[[F|] st1]| |];
      cbn [bind related] in *; [ | | exact I | contradiction De; reflexivity ].
    + cbn [progress]. rewrite pending_fprintf. exact Pe.
    + apply skip_token_progress; [lia | exact Hc].
  - destruct not_more_pending_facts as (Hrefl & Htrans & Htok & Hprint).
    pose proof (ParseTopLevelExpr_related strtod not_more_pending
                  Hrefl Htrans Htok Hprint fuel st) as Hle.
    pose proof (ParseExpression_answers strtod st fuel Hf) as Ha.
    unfold ParseTopLevelExpr in *.
    destruct (ParseExpression strtod fuel st) as [[[e|] st1]| |];
      cbn [bind related answers progress] in *;
      [ | | exact I | contradiction ].
    + rewrite pending_fprintf. exact Ha.
    + apply skip_token_progress; [exact Hle | exact Hc].
Qed.

Lemma MainLoop_answers (fuel : nat) : forall st,
  (4 * pending st + 5 <= fuel)%nat ->
  MainLoop strtod fuel st <> OutOfFuel.
Proof.
  induction fuel as [|fuel IH]; intros st Hf; [lia|].
  cbn [MainLoop].
  set (st0 := fprintf_stderr st "ready> ").
  assert (Hp0 : pending st0 = pending st) by reflexivity.
  destruct (Z.eqb_spec (CurTok st0) tok_eof) as [_|Hc]; [discriminate|].
  assert (Hnext : forall h, progress st0 h ->
            bind h (fun st1 => MainLoop strtod fuel st1) <> OutOfFuel).
  { intros h Hh. destruct h as [st1| |]; cbn [bind progress] in *;
      [ | discriminate | contradiction ].
    apply IH. lia. }
  destruct (CurTok st0 =? chr ";").
  { pose proof (getNextToken_defined strtod st0) as Hd.
    destruct (getNextToken strtod st0) as [[t st1]| |] eqn:E; cbn [bind];
      [ | discriminate | contradiction Hd; reflexivity ].
    apply getNextToken_pending in E. destruct E as (_ & _ & Hlt & _).
    specialize (Hlt Hc). apply IH. lia. }
  destruct (handlers_progress fuel st0 Hc) as (Hd & He & Ht);
    [unfold enough_fuel; lia|].
  destruct (CurTok st0 =? tok_def); [apply Hnext; exact Hd|].
  destruct (CurTok st0 =? tok_extern); apply Hnext; assumption.
Qed.

End DriverTermination.

(** *** [main] reads the whole input *)

Lemma skip_whitespace_eof (input : string) : forall lc,
  (lc = EOF -> input = EmptyString) ->
  fst (skip_whitespace lc input) = EOF ->
  snd (skip_whitespace lc input) = EmptyString.
Proof.
  induction input as [|c input IH]; intros lc Hin; cbn [skip_whitespace];
    destruct (isspace lc); cbn [fst snd]; trivial.
  apply IH. intros E. pose proof (int_of_char_range c). unfold EOF in E. lia.
Qed.

Lemma read_identifier_eof (input : string) : forall buf i lc' input' buf' n,
  read_identifier input buf i = Ok (lc', input', buf', n) ->
  lc' = EOF -> input' = EmptyString.
Proof.
  induction input as [|c input IH]; intros buf i lc' input' buf' n;
    cbn [read_identifier].
  - intros [= <- <- _ _]. trivial.
  - destruct (isalnum _).
    + destruct (i <? BUFSZ)%nat; [apply IH | discriminate].
    + intros [= <- <- _ _] E. pose proof (int_of_char_range c).
      unfold EOF in E. lia.
Qed.

Lemma read_number_eof (input : string) : forall lc buf i lc' input' buf' n,
  read_number lc input buf i = Ok (lc', input', buf', n) ->
  lc' = EOF -> input' = EmptyString.
Proof.
  induction input as [|c input IH]; intros lc buf i lc' input' buf' n;
    cbn [read_number]; destruct (i <? BUFSZ)%nat; try discriminate.
  - intros [= <- <- _ _]. trivial.
  - destruct (_ || _)%bool; [apply IH|].
    intros [= <- <- _ _] E. pose proof (int_of_char_range c).
    unfold EOF in E. lia.
Qed.

Lemma skip_comment_at_eof (input : string) :
  fst (skip_comment input) = EOF -> snd (skip_comment input) = EmptyString.
Proof.
  induction input as [|c input IH]; cbn [skip_comment]; [trivial|].
  destruct (negb _ && negb _)%bool; cbn [fst snd]; [exact IH|].
  intros E. pose proof (int_of_char_range c). unfold EOF in E. lia.
Qed.

Section MainProperties.

Context {double : Type} (strtod : string -> double) (zero : double).

Implicit Types st : globals double.

Lemma gettok_rest_at_eof st lc input t st' :
  (lc = EOF -> input = EmptyString) ->
  gettok_rest st lc input = Ok (t, st') -> at_eof_consistent st'.
Proof.
  unfold gettok_rest, at_eof_consistent. intros Hin.
  destruct (Z.eqb_spec lc EOF) as [E|_].
  - intros [= <- <-]. cbn [LastChar stdin set_lexer]. intros _. auto.
  - destruct input as [|c r]; cbn [getchar]; intros [= <- <-];
      cbn [LastChar stdin set_lexer]; trivial.
    intros E. pose proof (int_of_char_range c). unfold EOF in E. lia.
Qed.

Lemma gettok_rec_at_eof (fuel : nat) : forall st t st',
  at_eof_consistent st ->
  gettok_rec strtod fuel st = Ok (t, st') -> at_eof_consistent st'.
Proof.
  induction fuel as [|fuel IH]; intros st t st' Hst; cbn [gettok_rec];
    [discriminate|].
  pose proof (skip_whitespace_eof (stdin st) (LastChar st) Hst) as Hws.
  destruct (skip_whitespace (LastChar st) (stdin st)) as [lc input].
  cbn [fst snd] in Hws.
  destruct (isalpha lc).
  { destruct (read_identifier _ _ _) as [[[[lc' input'] buf] n]| |] eqn:Hr;
      cbn [bind]; try discriminate.
    pose proof (read_identifier_eof _ _ _ _ _ _ _ Hr) as He.
    destruct (n <? BUFSZ)%nat; [|discriminate].
    destruct (read_cstr _) as [name| |]; cbn [bind]; try discriminate.
    destruct (streq name "def"); [intros [= <- <-]; exact He|].
    destruct (streq name "extern"); intros [= <- <-]; exact He. }
  destruct (isdigit lc || (lc =? chr "."))%bool.
  { unfold declare_NumStr.
    destruct (read_number _ _ _ _) as [[[[lc' input'] buf] n]| |] eqn:Hr;
      cbn [bind]; try discriminate.
    pose proof (read_number_eof _ _ _ _ _ _ _ _ Hr) as He.
    destruct (n <? BUFSZ)%nat; [|discriminate].
    intros [= <- <-]. exact He. }
  destruct (lc =? chr "#"); [|apply gettok_rest_at_eof; exact Hws].
  pose proof (skip_comment_at_eof input) as Hc.
  destruct (skip_comment input) as [lc' input']. cbn [fst snd] in Hc.
  destruct (negb (lc' =? EOF)).
  - apply IH. exact Hc.
  - apply gettok_rest_at_eof. exact Hc.
Qed.

Lemma eof_invariant_facts :
  (forall st, keeps eof_invariant st st) /\
  (forall st1 st2 st3,
      keeps eof_invariant st1 st2 -> keeps eof_invariant st2 st3 ->
      keeps eof_invariant st1 st3) /\
  (forall st t st',
      getNextToken strtod st = Ok (t, st') -> keeps eof_invariant st st') /\
  (forall st text,
      driver_text text -> keeps eof_invariant st (fprintf_stderr st text)).
Proof.
  unfold keeps. split; [auto|]. split; [auto|]. split.
  - intros st t st' H (Hat & Hcur). apply getNextToken_inv in H.
    destruct H as (st0 & H & ->). unfold gettok in H. split.
    + change (at_eof_consistent st0).
      eapply gettok_rec_at_eof; [exact Hat | exact H].
    + cbn [CurTok LastChar set_CurTok]. intros ->.
      apply gettok_rec_eof_form in H. exact H.
  - intros st text _ H. exact H.
Qed.

(** X15: [main] runs to the end of the input: with fuel [main_fuel] it
    returns (short of undefined behaviour); and when it returns, it
    returns 0, the current token is the end-of-file token, nothing is
    left unread, the last thing printed is a prompt and everything
    printed is a prompt, an acknowledgement or an error line. *)
Theorem main_reads_everything fuel input junk :
  ((main_fuel input <= fuel)%nat ->
   main strtod zero fuel input junk <> OutOfFuel) /\
  (forall rc st,
     main strtod zero fuel input junk = Ok (rc, st) ->
     rc = 0 /\ CurTok st = tok_eof /\ LastChar st = EOF /\
     stdin st = EmptyString /\
     last (stderr st) = Some "ready> " /\
     Forall driver_text (stderr st)).
Proof.
  unfold main, main_prelude.
  change (install_binops (load zero input junk))
    with (Ok (set_binops (load zero input junk)
                ["<"; "+"; "-"; "*"]%char [10; 20; 30; 40])).
  cbn [bind].
  set (st2 := fprintf_stderr _ "ready> ").
  assert (Hinv2 : eof_invariant st2)
    by (split; [intros E; discriminate E | intros E; discriminate E]).
  assert (Hpend2 : pending st2 = (2 * String.length input + 3)%nat).
  { unfold pending, unread, st2.
    cbn [stdin LastChar CurTok fprintf_stderr set_binops load].
    change (lookahead_weight (chr " ")) with 1%nat.
    change (0 =? tok_eof) with false. cbv iota. lia. }
  pose proof (getNextToken_defined strtod st2) as Hd.
  destruct (getNextToken strtod st2) as [[t st3]| |] eqn:E; cbn [bind];
    [ | split; [discriminate | intros ? ? [=]]
      | contradiction Hd; reflexivity ].
  destruct eof_invariant_facts as (Irefl & Itrans & Itok & Iprint).
  pose proof (Itok _ _ _ E Hinv2) as Hinv3.
  pose proof (getNextToken_stderr strtod _ _ _ E) as Herr3.
  apply getNextToken_pending in E. destruct E as (_ & Hle & _).
  split.
  - intros Hf. unfold main_fuel in Hf.
    pose proof (MainLoop_answers strtod fuel st3 ltac:(lia)) as Hm.
    destruct (MainLoop strtod fuel st3); cbn [bind];
      [discriminate | discriminate | contradiction Hm; reflexivity].
  - intros rc st.
    destruct (MainLoop strtod fuel st3) as [st4| |] eqn:Hm; cbn [bind];
      try discriminate.
    intros [= <- <-].
    pose proof (MainLoop_related strtod (keeps eof_invariant)
                  Irefl Itrans Itok Iprint fuel st3) as Hk.
    rewrite Hm in Hk. cbn [related_state] in Hk.
    destruct (Hk Hinv3) as [Hat Hcur].
    destruct (prints_only_facts strtod) as (Prefl & Ptrans & Ptok & Pprint).
    pose proof (MainLoop_related strtod prints_only
                  Prefl Ptrans Ptok Pprint fuel st3) as Hp.
    rewrite Hm in Hp. destruct Hp as (lines & Hlines & Hall).
    apply MainLoop_ends_at_eof in Hm. destruct Hm as (Hc & Hl).
    split; [reflexivity|]. split; [exact Hc|].
    split; [exact (Hcur Hc)|]. split; [exact (Hat (Hcur Hc))|].
    split; [exact Hl|].
    rewrite Hlines, Herr3. apply Forall_app. split; [|exact Hall].
    unfold st2. cbn [stderr fprintf_stderr set_binops load app].
    constructor; [left; reflexivity | constructor].
Qed.

End MainProperties.

(** The spec's recovery example: "def 1 2" fails on its first token, one
    token is skipped, and both "2" and "3+4" are parsed as top-level
    expressions. *)
Lemma main_recovers :
  match main Decimal.strtod Decimal.zero 100 "def 1 2 3+4" all_blank with
  | Ok (rc, st) =>
      rc = 0 /\
      stderr st =
        ["ready> "; "ready> ";
         error_line "Expected function name in prototype"; "ready> ";
         ("Parsed a top-level expr" ++ newline)%string; "ready> ";
         ("Parsed a top-level expr" ++ newline)%string; "ready> "]
  | Undefined | OutOfFuel => False
  end.
Proof. vm_compute. split; reflexivity. Qed.

(** *** The trees the parser builds *)

Lemma wf_expr_call {double} (ops : list ascii) Callee
    (Args : list (ExprAST double)) NumArgs :
  wf_expr ops (CallExprAST Callee Args NumArgs) <->
  NumArgs = length Args /\ (NumArgs <= BUFSZ)%nat /\
  Forall (wf_expr ops) Args.
Proof.
  cbn [wf_expr].
  assert (E : forall l : list (ExprAST double),
            (fix all (l : list (ExprAST double)) : Prop :=
               match l with
               | [] => True
               | a :: l => wf_expr ops a /\ all l
               end) l <-> Forall (wf_expr ops) l).
  { induction l as [|a l IH].
    - split; constructor.
    - split.
      + intros [Ha Hl]. constructor; [exact Ha | apply IH; exact Hl].
      + intros H. inversion H; subst.
        split; [assumption | apply IH; assumption]. }
  specialize (E Args). tauto.
Qed.

Section WellFormed.

Context {double : Type} (strtod : string -> double).

Implicit Types st : globals double.

Variable ops : list ascii.

Lemma getNextToken_ops st t st' :
  getNextToken strtod st = Ok (t, st') ->
  BinopPrecedenceOperators st' = BinopPrecedenceOperators st.
Proof.
  intros H. destruct (same_tables_facts strtod) as (_ & _ & Htok & _).
  apply (Htok _ _ _ H).
Qed.

(** Steps over a call of [getNextToken] in front of the goal. *)
Ltac token_step :=
  match goal with
  | |- builds _ (bind (getNextToken strtod ?s) _) =>
      let E := fresh "E" in
      destruct (getNextToken strtod s) as [[? ?]| |] eqn:E; cbn [bind builds];
      [ apply getNextToken_ops in E | exact I | exact I ]
  end.

Lemma Error_builds st msg :
  BinopPrecedenceOperators st = ops -> builds ops (Error msg st).
Proof. intros H. exact H. Qed.

Lemma ParseNumberExpr_builds st :
  BinopPrecedenceOperators st = ops -> builds ops (ParseNumberExpr strtod st).
Proof.
  intros H. unfold ParseNumberExpr. cbv zeta. token_step.
  split; [congruence | exact I].
Qed.

Section WellFormedStep.

Variable fuel : nat.
Hypothesis IHExpression : forall st,
  BinopPrecedenceOperators st = ops ->
  builds ops (ParseExpression strtod fuel st).
Hypothesis IHPrimary : forall st,
  BinopPrecedenceOperators st = ops ->
  builds ops (ParsePrimary strtod fuel st).
Hypothesis IHParen : forall st,
  BinopPrecedenceOperators st = ops ->
  builds ops (ParseParenExpr strtod fuel st).
Hypothesis IHIdentifier : forall st,
  BinopPrecedenceOperators st = ops ->
  builds ops (ParseIdentifierExpr strtod fuel st).
Hypothesis IHCallArgs : forall Callee Args NumArgs st,
  BinopPrecedenceOperators st = ops ->
  NumArgs = length Args -> Forall (wf_expr ops) Args ->
  builds ops (ParseCallArgs strtod fuel Callee Args NumArgs st).
Hypothesis IHBinOpRHS : forall ExprPrec LHS st,
  BinopPrecedenceOperators st = ops ->
  0 <= ExprPrec -> wf_expr ops LHS ->
  builds ops (ParseBinOpRHS strtod fuel ExprPrec LHS st).

Lemma ParseExpression_builds_step st :
  BinopPrecedenceOperators st = ops ->
  builds ops (ParseExpression strtod (S fuel) st).
Proof.
  intros H. rewrite ParseExpression_eq. specialize (IHPrimary st H).
  destruct (ParsePrimary strtod fuel st) as [[[LHS|] st1]| |];
    cbn [bind builds] in *; trivial.
  destruct IHPrimary as [H1 Hw]. apply IHBinOpRHS; [exact H1 | lia | exact Hw].
Qed.

Lemma ParsePrimary_builds_step st :
  BinopPrecedenceOperators st = ops ->
  builds ops (ParsePrimary strtod (S fuel) st).
Proof.
  intros H. rewrite ParsePrimary_eq.
  destruct (_ =? tok_identifier); [apply IHIdentifier; exact H|].
  destruct (_ =? tok_number); [apply ParseNumberExpr_builds; exact H|].
  destruct (_ =? chr "("); [apply IHParen; exact H|].
  apply Error_builds. exact H.
Qed.

Lemma ParseParenExpr_builds_step st :
  BinopPrecedenceOperators st = ops ->
  builds ops (ParseParenExpr strtod (S fuel) st).
Proof.
  intros H. rewrite ParseParenExpr_unfold. token_step.
  match goal with
  | |- builds _ (bind (ParseExpression strtod fuel ?s) _) =>
      pose proof (IHExpression s ltac:(congruence)) as He;
      destruct (ParseExpression strtod fuel s) as [[[V|] st2]| |]
  end; cbn [bind builds] in *; trivial.
  destruct He as [H2 Hw].
  destruct (negb _); [apply Error_builds; exact H2|].
  token_step. split; [congruence | exact Hw].
Qed.

Lemma ParseIdentifierExpr_builds_step st :
  BinopPrecedenceOperators st = ops ->
  builds ops (ParseIdentifierExpr strtod (S fuel) st).
Proof.
  intros H. rewrite ParseIdentifierExpr_eq.
  destruct (read_cstr _) as [IdName| |]; cbn [bind]; try exact I.
  token_step.
  destruct (negb _); [split; [congruence | exact I]|].
  token_step.
  match goal with
  | |- builds _ (bind ?c _) =>
      assert (Hc : builds ops c); [|destruct c as [[[Result|] st3]| |]]
  end; cbn [bind builds] in *; trivial.
  - destruct (negb _).
    + apply IHCallArgs; [congruence | reflexivity | constructor].
    + split; [congruence|]. apply wf_expr_call.
      split; [reflexivity|]. split; [unfold BUFSZ; lia | constructor].
  - destruct Hc as [H3 Hw]. token_step. split; [congruence | exact Hw].
Qed.

Lemma ParseCallArgs_builds_step Callee Args NumArgs st :
  BinopPrecedenceOperators st = ops ->
  NumArgs = length Args -> Forall (wf_expr ops) Args ->
  builds ops (ParseCallArgs strtod (S fuel) Callee Args NumArgs st).
Proof.
  intros H Hn Hargs. rewrite ParseCallArgs_eq.
  specialize (IHExpression st H).
  destruct (ParseExpression strtod fuel st) as [[[Arg|] st1]| |];
    cbn [bind builds] in *; trivial.
  destruct IHExpression as [H1 Hw].
  destruct (Nat.ltb_spec NumArgs BUFSZ); [|exact I]. cbv zeta.
  assert (Hall : Forall (wf_expr ops) (Args ++ [Arg]))
    by (apply Forall_app; split; [exact Hargs | constructor; [exact Hw|constructor]]).
  assert (Hlen : S NumArgs = length (Args ++ [Arg]))
    by (rewrite length_app; cbn [length]; lia).
  destruct (_ =? chr ")").
  { split; [exact H1|]. apply wf_expr_call.
    split; [exact Hlen|]. split; [lia | exact Hall]. }
  destruct (negb _); [apply Error_builds; exact H1|].
  token_step. apply IHCallArgs; [congruence | exact Hlen | exact Hall].
Qed.

Lemma ParseBinOpRHS_builds_step ExprPrec LHS st :
  BinopPrecedenceOperators st = ops ->
  0 <= ExprPrec -> wf_expr ops LHS ->
  builds ops (ParseBinOpRHS strtod (S fuel) ExprPrec LHS st).
Proof.
  intros H Hprec Hlhs. rewrite ParseBinOpRHS_eq.
  destruct (GetTokPrecedence st) as [TokPrec| |] eqn:Htok; cbn [bind];
    try exact I.
  destruct (Z.ltb_spec TokPrec ExprPrec) as [_|Hge];
    [split; [exact H | exact Hlhs]|].
  cbv zeta.
  assert (Hop : In (char_of_int (CurTok st)) ops /\
                int_of_char (char_of_int (CurTok st)) < 128 /\ 0 < TokPrec).
  { destruct (GetTokPrecedence_operator _ _ Htok)
      as [->|(Hpos & op & Hin & Hc & Hascii)]; [lia|].
    rewrite Hc, char_of_int_of_char. rewrite <- H. auto. }
  destruct Hop as (Hin & Hascii & Hpos).
  token_step.
  match goal with
  | |- builds _ (bind (ParsePrimary strtod fuel ?s) _) =>
      pose proof (IHPrimary s ltac:(congruence)) as Hp;
      destruct (ParsePrimary strtod fuel s) as [[[RHS|] st2]| |]
  end; cbn [bind builds] in *; trivial.
  destruct Hp as [H2 Hrhs].
  destruct (GetTokPrecedence st2) as [NextPrec| |]; cbn [bind]; try exact I.
  match goal with
  | |- builds _ (bind ?c _) =>
      assert (Hc : builds ops c); [|destruct c as [[[RHS'|] st3]| |]]
  end; cbn [bind builds] in *; trivial.
  - destruct (TokPrec <? NextPrec).
    + apply IHBinOpRHS; [exact H2 | lia | exact Hrhs].
    + split; [exact H2 | exact Hrhs].
  - destruct Hc as [H3 Hrhs']. apply IHBinOpRHS; [exact H3 | exact Hprec|].
    cbn [wf_expr]. auto.
Qed.

End WellFormedStep.

Lemma parser_builds fuel :
  (forall st, BinopPrecedenceOperators st = ops ->
     builds ops (ParseExpression strtod fuel st)) /\
  (forall st, BinopPrecedenceOperators st = ops ->
     builds ops (ParsePrimary strtod fuel st)) /\
  (forall st, BinopPrecedenceOperators st = ops ->
     builds ops (ParseParenExpr strtod fuel st)) /\
  (forall st, BinopPrecedenceOperators st = ops ->
     builds ops (ParseIdentifierExpr strtod fuel st)) /\
  (forall Callee Args NumArgs st,
     BinopPrecedenceOperators st = ops ->
     NumArgs = length Args -> Forall (wf_expr ops) Args ->
     builds ops (ParseCallArgs strtod fuel Callee Args NumArgs st)) /\
  (forall ExprPrec LHS st,
     BinopPrecedenceOperators st = ops ->
     0 <= ExprPrec -> wf_expr ops LHS ->
     builds ops (ParseBinOpRHS strtod fuel ExprPrec LHS st)).
Proof.
  induction fuel as [|fuel (IHe & IHp & IHpar & IHid & IHargs & IHrhs)].
  - repeat split; intros; exact I.
  - repeat split; intros.
    + apply ParseExpression_builds_step; assumption.
    + apply ParsePrimary_builds_step; assumption.
    + apply ParseParenExpr_builds_step; assumption.
    + apply ParseIdentifierExpr_builds_step; assumption.
    + apply ParseCallArgs_builds_step; assumption.
    + apply ParseBinOpRHS_builds_step; assumption.
Qed.

Lemma ParsePrototype_args_counts fuel : forall Args NumArgs st Args' NumArgs' st',
  ParsePrototype_args strtod fuel Args NumArgs st = Ok (Args', NumArgs', st') ->
  NumArgs = length Args -> (NumArgs <= BUFSZ)%nat ->
  NumArgs' = length Args' /\ (NumArgs' <= BUFSZ)%nat.
Proof.
  induction fuel as [|fuel IH]; intros Args NumArgs st Args' NumArgs' st';
    cbn [ParsePrototype_args]; [discriminate|].
  destruct (getNextToken strtod st) as [[t st1]| |]; cbn [bind];
    try discriminate.
  destruct (t =? tok_identifier).
  - destruct (Nat.ltb_spec NumArgs BUFSZ); [|discriminate].
    destruct (read_cstr _) as [arg| |]; cbn [bind]; try discriminate.
    intros Hr Hn Hle. apply IH in Hr; [exact Hr | | lia].
    rewrite length_app. cbn [length]. lia.
  - intros [= <- <- _]. auto.
Qed.

Lemma ParsePrototype_wf fuel st P st' :
  ParsePrototype strtod fuel st = Ok (Some P, st') -> wf_proto P.
Proof.
  unfold ParsePrototype, ErrorP, Error.
  destruct (negb _); cbn [bind]; [discriminate|].
  destruct (read_cstr _) as [Name| |]; cbn [bind]; try discriminate.
  destruct (getNextToken strtod st) as [[t st1]| |]; cbn [bind];
    try discriminate.
  destruct (negb _); cbn [bind]; [discriminate|].
  destruct (ParsePrototype_args strtod fuel [] 0 st1)
    as [[[Args NumArgs] st2]| |] eqn:Ea; cbn [bind]; try discriminate.
  destruct (negb _); cbn [bind]; [discriminate|].
  destruct (getNextToken strtod st2) as [[t2 st3]| |]; cbn [bind];
    try discriminate.
  intros [= <- _]. unfold wf_proto. cbn [ProtoNumArgs ProtoArgs].
  eapply ParsePrototype_args_counts; [exact Ea | reflexivity|].
  unfold BUFSZ. lia.
Qed.

End WellFormed.

Section Trees.

Context {double : Type} (strtod : string -> double).

Implicit Types st : globals double.

Lemma ParseExpression_wf fuel st e st' :
  ParseExpression strtod fuel st = Ok (Some e, st') ->
  wf_expr (BinopPrecedenceOperators st) e.
Proof.
  intros H.
  destruct (parser_builds strtod (BinopPrecedenceOperators st) fuel)
    as (He & _).
  specialize (He st eq_refl). rewrite H in He. apply He.
Qed.

(** X16: The trees the parser returns are well formed: in every call node
    [NumArgs] is the number of its arguments and at most 64, and in
    every binary node the operator is an ASCII character of the operator
    table; in every prototype [NumArgs] is the number of its argument
    names and at most 64. *)
Theorem parser_builds_well_formed fuel st :
  (forall e st', ParseExpression strtod fuel st = Ok (Some e, st') ->
     wf_expr (BinopPrecedenceOperators st) e) /\
  (forall P st', ParsePrototype strtod fuel st = Ok (Some P, st') ->
     wf_proto P) /\
  (forall F st', ParseDefinition strtod fuel st = Ok (Some F, st') ->
     wf_proto (Proto F) /\ wf_expr (BinopPrecedenceOperators st) (Body F)) /\
  (forall P st', ParseExtern strtod fuel st = Ok (Some P, st') ->
     wf_proto P) /\
  (forall F st', ParseTopLevelExpr strtod fuel st = Ok (Some F, st') ->
     wf_proto (Proto F) /\ wf_expr (BinopPrecedenceOperators st) (Body F)).
Proof.
  destruct (same_tables_facts strtod) as (Hrefl & Htrans & Htok & Hprint).
  split; [intros e st'; apply ParseExpression_wf|].
  split; [intros P st'; apply ParsePrototype_wf|].
  split; [|split].
  - intros F st'. unfold ParseDefinition.
    destruct (getNextToken strtod st) as [[t st1]| |] eqn:E1; cbn [bind];
      try discriminate.
    apply Htok in E1.
    pose proof (ParsePrototype_related strtod same_tables
                  Hrefl Htrans Htok Hprint fuel st1) as Hp.
    destruct (ParsePrototype strtod fuel st1) as [[[P|] st2]| |] eqn:E2;
      cbn [bind related] in *; try discriminate.
    apply ParsePrototype_wf in E2.
    destruct (ParseExpression strtod fuel st2) as [[[e|] st3]| |] eqn:E3;
      cbn [bind]; try discriminate.
    apply ParseExpression_wf in E3.
    intros [= <- _]. cbn [Proto Body]. split; [exact E2|].
    destruct E1 as [E1 _], Hp as [Hp _]. rewrite <- E1, <- Hp. exact E3.
  - intros P st'. unfold ParseExtern.
    destruct (getNextToken strtod st) as [[t st1]| |]; cbn [bind];
      try discriminate.
    apply ParsePrototype_wf.
  - intros F st'. unfold ParseTopLevelExpr.
    destruct (ParseExpression strtod fuel st) as [[[e|] st1]| |] eqn:E;
      cbn [bind]; try discriminate.
    apply ParseExpression_wf in E.
    intros [= <- _]. cbn [Proto Body]. split; [|exact E].
    split; [reflexivity | cbn; unfold BUFSZ; lia].
Qed.

End Trees.

(** *** Recovery and progress *)

Section Recovery.

Context {double : Type} (strtod : string -> double).

Implicit Types st : globals double.

(** X17: A token that cannot start an expression is reported and skipped:
    on a current token that is no identifier, no number and no '(',
    [HandleTopLevelExpression] prints "Error: unknown token when
    expecting an expression" and does nothing but read the next token. *)
Theorem HandleTopLevelExpression_skips_bad_token fuel st :
  (2 <= fuel)%nat ->
  CurTok st <> tok_identifier ->
  CurTok st <> tok_number ->
  CurTok st <> chr "(" ->
  HandleTopLevelExpression strtod fuel st =
    let* (_, st') :=
      getNextToken strtod
        (fprintf_stderr st
           (error_line "unknown token when expecting an expression")) in
    Ok st'.
Proof.
  intros Hf Hid Hnum Hpar.
  destruct fuel as [|[|fuel]]; try lia.
  unfold HandleTopLevelExpression, ParseTopLevelExpr.
  rewrite ParseExpression_eq, ParsePrimary_eq.
  destruct (Z.eqb_spec (CurTok st) tok_identifier); [contradiction|].
  destruct (Z.eqb_spec (CurTok st) tok_number); [contradiction|].
  destruct (Z.eqb_spec (CurTok st) (chr "(")); [contradiction|].
  reflexivity.
Qed.

(** X18: [ParseExpression] comes to an end, and an expression is never empty:
    with fuel for what is left to read the call returns, and when it
    returns a tree, less is pending than before. *)
Theorem ParseExpression_consumes fuel st :
  (enough_fuel st <= fuel)%nat ->
  ParseExpression strtod fuel st <> OutOfFuel /\
  forall e st',
    ParseExpression strtod fuel st = Ok (Some e, st') ->
    (pending st' < pending st)%nat.
Proof.
  intros Hf. pose proof (ParseExpression_answers strtod st fuel Hf) as Ha.
  split.
  - intros E. rewrite E in Ha. exact Ha.
  - intros e st' E. rewrite E in Ha. exact Ha.
Qed.

(** X19: The main loop comes to an end: with fuel for what is left to read,
    [MainLoop] returns (short of undefined behaviour), whatever the
    input holds. *)
Theorem MainLoop_terminates fuel st :
  (4 * pending st + 5 <= fuel)%nat ->
  MainLoop strtod fuel st <> OutOfFuel.
Proof. apply MainLoop_answers. Qed.

End Recovery.

(** ** Instances of the further conditional statements *)

(** Two blanks in front of "x", behind the blank look-ahead of the start. *)
Lemma gettok_skips_whitespace_witness :
  gettok Decimal.strtod
    (with_stdin (load Decimal.zero "" all_NUL) ("  " ++ "x")) =
  gettok Decimal.strtod (with_stdin (load Decimal.zero "" all_NUL) "x").
Proof.
  apply (gettok_skips_whitespace Decimal.strtod
           (load Decimal.zero "" all_NUL) "  " "x"); reflexivity.
Defined.

(** The empty program: the first call answers [tok_eof], and so does the
    second. *)
Lemma gettok_eof_sticky_witness :
  let st := load Decimal.zero "" all_NUL in
  gettok Decimal.strtod st = Ok (tok_eof, set_lexer st "" EOF) /\
  gettok Decimal.strtod (set_lexer st "" EOF) =
    Ok (tok_eof, set_lexer st "" EOF).
Proof.
  split; [reflexivity|].
  apply (gettok_eof_sticky Decimal.strtod (load Decimal.zero "" all_NUL)).
  reflexivity.
Defined.

(** The first token of "+1". *)
Lemma gettok_token_kinds_witness :
  let st := load Decimal.zero "+1" all_NUL in
  let st' := set_lexer st "" (chr "1") in
  gettok Decimal.strtod st = Ok (chr "+", st') /\
  getchar_value (LastChar st') /\
  suffix_of (stdin st') (stdin st) /\
  (getchar_value (LastChar st) ->
   chr "+" = tok_eof \/ chr "+" = tok_def \/ chr "+" = tok_extern \/
   chr "+" = tok_identifier \/ chr "+" = tok_number \/
   character_token (chr "+")).
Proof.
  split; [reflexivity|].
  apply (gettok_token_kinds Decimal.strtod
           (load Decimal.zero "+1" all_NUL) (chr "+")).
  reflexivity.
Defined.

(** ')' in front of "x". *)
Lemma gettok_character_witness :
  let st := load Decimal.zero ")x" all_NUL in
  gettok Decimal.strtod st = Ok (chr ")", set_lexer st "" (chr "x")).
Proof.
  apply (gettok_character Decimal.strtod
           (load Decimal.zero ")x" all_NUL) ")" "x").
  - reflexivity.
  - unfold character_token. repeat split; try reflexivity; try discriminate.
Defined.

(** A name of 64 letters. *)
Lemma gettok_identifier_overflow_witness :
  gettok Decimal.strtod
    (load Decimal.zero
       (String "a" ("aaaaaaaaaaaaaaaaaaaaaaaaaaaaaaaaaaaaaaaaaaaaaaaaaaaaaaaaaaaaaaa" ++ ""))
       all_NUL) = Undefined.
Proof.
  apply (gettok_identifier_overflow Decimal.strtod
           (load Decimal.zero (String "a" ("aaaaaaaaaaaaaaaaaaaaaaaaaaaaaaaaaaaaaaaaaaaaaaaaaaaaaaaaaaaaaaa" ++ "")) all_NUL)
           "a" "aaaaaaaaaaaaaaaaaaaaaaaaaaaaaaaaaaaaaaaaaaaaaaaaaaaaaaaaaaaaaaa" "").
  - reflexivity.
  - reflexivity.
  - reflexivity.
  - vm_compute. repeat constructor.
Defined.

(** A literal of 63 digits. *)
Lemma gettok_number_overflow_witness :
  gettok Decimal.strtod
    (load Decimal.zero
       (String "1" ("11111111111111111111111111111111111111111111111111111111111111" ++ ""))
       all_NUL) = Undefined.
Proof.
  apply (gettok_number_overflow Decimal.strtod
           (load Decimal.zero (String "1" ("11111111111111111111111111111111111111111111111111111111111111" ++ "")) all_NUL)
           "1" "11111111111111111111111111111111111111111111111111111111111111" "").
  - reflexivity.
  - reflexivity.
  - reflexivity.
  - vm_compute. repeat constructor.
Defined.

(** "3.14" in front of a blank, with a blank in [NumStr[0]]: [strtod] is
    given " 3.14". *)
Lemma gettok_number_witness :
  let st := load Decimal.zero "3.14 " all_blank in
  gettok Decimal.strtod st =
    Ok (tok_number,
        set_NumVal
          (set_lexer (snd (declare_NumStr st)) "" (chr " "))
          (Decimal.strtod (NumStr_text " " "3.14"))).
Proof.
  apply (gettok_number Decimal.strtod
           (load Decimal.zero "3.14 " all_blank) "3" ".14" " ").
  - reflexivity.
  - reflexivity.
  - reflexivity.
  - reflexivity.
  - vm_compute. repeat constructor.
Defined.

(** '+' as the current token of the program as primed. *)
Lemma GetTokPrecedence_range_witness :
  let st := primed "+" all_NUL in
  20 = -1 \/
  (0 < 20 /\ 0 <= CurTok st < 128 /\
   exists k op, (k < NUM_BINOPS)%nat /\
     BinopPrecedenceOperators st !! k = Some op /\
     BinopPrecedencePrecedence st !! k = Some 20 /\
     CurTok st = int_of_char op).
Proof.
  apply (GetTokPrecedence_range (primed "+" all_NUL) 20). reflexivity.
Defined.

(** "+b)" behind the operand [a]: climbing stops on ')'. *)
Lemma ParseBinOpRHS_stops_below_witness :
  exists e st' p,
    ParseBinOpRHS Decimal.strtod 20 0 (VariableExprAST "a")
      (primed "+b)" all_NUL) = Ok (Some e, st') /\
    GetTokPrecedence st' = Ok p /\ p < 0.
Proof.
  destruct (ParseBinOpRHS Decimal.strtod 20 0 (VariableExprAST "a")
              (primed "+b)" all_NUL)) as [[[e|] st']| |] eqn:E;
    [ | exfalso; vm_compute in E; discriminate E ..].
  destruct (ParseBinOpRHS_stops_below Decimal.strtod 20 0
              (VariableExprAST "a") (primed "+b)" all_NUL) e st' E)
    as (p & Hp & Hlt).
  exists e, st', p. split; [reflexivity | split; assumption].
Defined.

(** "a+b" in front of ";". *)
Lemma ParseExpression_stops_at_non_operator_witness :
  exists e st',
    ParseExpression Decimal.strtod 20 (primed "a+b;" all_NUL)
      = Ok (Some e, st') /\
    GetTokPrecedence st' = Ok (-1).
Proof.
  destruct (ParseExpression Decimal.strtod 20 (primed "a+b;" all_NUL))
    as [[[e|] st']| |] eqn:E;
    [ | exfalso; vm_compute in E; discriminate E ..].
  exists e, st'. split; [reflexivity|].
  exact (ParseExpression_stops_at_non_operator Decimal.strtod 20
           (primed "a+b;" all_NUL) e st' E).
Defined.

(** "a+b" once more: the call returns, and less is pending after it. *)
Lemma ParseExpression_consumes_witness :
  let st := primed "a+b;" all_NUL in
  (enough_fuel st <= 40)%nat /\
  ParseExpression Decimal.strtod 40 st <> OutOfFuel /\
  forall e st',
    ParseExpression Decimal.strtod 40 st = Ok (Some e, st') ->
    (pending st' < pending st)%nat.
Proof.
  assert (H : (enough_fuel (primed "a+b;" all_NUL) <= 40)%nat)
    by (vm_compute; repeat constructor).
  split; [exact H|].
  exact (ParseExpression_consumes Decimal.strtod 40
           (primed "a+b;" all_NUL) H).
Defined.

(** ")" where an expression should start. *)
Lemma HandleTopLevelExpression_skips_bad_token_witness :
  let st := primed ") x" all_NUL in
  HandleTopLevelExpression Decimal.strtod 2 st =
    let* (_, st') :=
      getNextToken Decimal.strtod
        (fprintf_stderr st
           (error_line "unknown token when expecting an expression")) in
    Ok st'.
Proof.
  apply (HandleTopLevelExpression_skips_bad_token Decimal.strtod 2
           (primed ") x" all_NUL)).
  - repeat constructor.
  - discriminate.
  - discriminate.
  - discriminate.
Defined.

(** The loop on "a+b; c". *)
Lemma MainLoop_returns_at_eof_witness :
  exists st',
    MainLoop Decimal.strtod 60 (primed "a+b; c" all_NUL) = Ok st' /\
    CurTok st' = tok_eof /\
    last (stderr st') = Some "ready> " /\
    prints_only (primed "a+b; c" all_NUL) st'.
Proof.
  destruct (MainLoop Decimal.strtod 60 (primed "a+b; c" all_NUL))
    as [st'| |] eqn:E;
    [ | exfalso; vm_compute in E; discriminate E ..].
  exists st'. split; [reflexivity|].
  exact (MainLoop_returns_at_eof Decimal.strtod 60
           (primed "a+b; c" all_NUL) st' E).
Defined.

(** The loop on "a+b; c" has fuel enough with 60. *)
Lemma MainLoop_terminates_witness :
  (4 * pending (primed "a+b; c" all_NUL) + 5 <= 60)%nat /\
  MainLoop Decimal.strtod 60 (primed "a+b; c" all_NUL) <> OutOfFuel.
Proof.
  assert (H : (4 * pending (primed "a+b; c" all_NUL) + 5 <= 60)%nat)
    by (vm_compute; repeat constructor).
  split; [exact H|].
  exact (MainLoop_terminates Decimal.strtod 60
           (primed "a+b; c" all_NUL) H).
Defined.

(** ** Parentheses

    The parse of a text between parentheses against the parse of the
    text alone. *)

Lemma comments_closed_step (c : ascii) (s : string) :
  (int_of_char c =? chr "#") = false ->
  comments_closed false (String c s) = comments_closed false s.
Proof. intros H. cbn [comments_closed]. rewrite H. reflexivity. Qed.

Lemma isspace_not_hash (z : Z) : isspace z = true -> (z =? chr "#") = false.
Proof.
  intros H. destruct (Z.eqb_spec z (chr "#")) as [->|]; [|reflexivity].
  discriminate H.
Qed.

Lemma isalnum_not_hash (z : Z) : isalnum z = true -> (z =? chr "#") = false.
Proof.
  intros H. destruct (Z.eqb_spec z (chr "#")) as [->|]; [|reflexivity].
  discriminate H.
Qed.

Lemma isnumchar_not_hash (z : Z) :
  isnumchar z = true -> (z =? chr "#") = false.
Proof.
  intros H. destruct (Z.eqb_spec z (chr "#")) as [->|]; [|reflexivity].
  discriminate H.
Qed.

Lemma lexer_text_getchar (s : string) :
  lexer_text (fst (getchar s)) (snd (getchar s)) s.
Proof. destruct s; cbn; auto. Qed.

Section TextInParentheses.

Variable rest : string.

Lemma lexer_text_getchar_wrapped (s : string) :
  lexer_text (fst (getchar (s ++ String ")" rest)))
             (snd (getchar (s ++ String ")" rest)))
             (s ++ String ")" rest).
Proof. apply lexer_text_getchar. Qed.

Lemma skip_whitespace_wrapped (s : string) : forall c,
  comments_closed false (String c s) = true ->
  exists t,
    lexer_text (fst (skip_whitespace (int_of_char c) s))
               (snd (skip_whitespace (int_of_char c) s)) t /\
    lexer_text
      (fst (skip_whitespace (int_of_char c) (s ++ String ")" rest)))
      (snd (skip_whitespace (int_of_char c) (s ++ String ")" rest)))
      (t ++ String ")" rest) /\
    comments_closed false t = true.
Proof.
  induction s as [|c' s IH]; intros c Hc.
  - cbn [skip_whitespace String.append].
    destruct (isspace (int_of_char c)) eqn:Hsp.
    + exists EmptyString. rewrite skip_whitespace_nonblank by reflexivity.
      cbn. auto.
    + exists (String c EmptyString). cbn [fst snd lexer_text String.append].
      auto.
  - cbn [skip_whitespace String.append].
    destruct (isspace (int_of_char c)) eqn:Hsp.
    + apply IH. rewrite comments_closed_step in Hc
        by (apply isspace_not_hash; exact Hsp).
      exact Hc.
    + exists (String c (String c' s)).
      cbn [fst snd lexer_text String.append]. auto.
Qed.

Lemma read_identifier_wrapped (s : string) : forall buf i lcB inB buf' n,
  comments_closed false s = true ->
  read_identifier s buf i = Ok (lcB, inB, buf', n) ->
  exists lcA inA t,
    read_identifier (s ++ String ")" rest) buf i = Ok (lcA, inA, buf', n) /\
    lexer_text lcB inB t /\
    lexer_text lcA inA (t ++ String ")" rest) /\
    comments_closed false t = true.
Proof.
  induction s as [|c s IH]; intros buf i lcB inB buf' n Hc;
    cbn [read_identifier String.append].
  - intros [= <- <- <- <-].
    exists (int_of_char ")"), rest, EmptyString. cbn. auto.
  - destruct (isalnum (int_of_char c)) eqn:Ha.
    + destruct (i <? BUFSZ)%nat; [|discriminate].
      apply IH. rewrite comments_closed_step in Hc
        by (apply isalnum_not_hash; exact Ha).
      exact Hc.
    + intros [= <- <- <- <-].
      exists (int_of_char c), (s ++ String ")" rest)%string, (String c s).
      cbn [lexer_text String.append]. auto.
Qed.

Lemma read_number_wrapped (s : string) :
  forall lc bufA bufB i lcB inB bB n,
  comments_closed false s = true ->
  read_number lc s bufB i = Ok (lcB, inB, bB, n) ->
  exists lcA inA bA t,
    read_number lc (s ++ String ")" rest) bufA i = Ok (lcA, inA, bA, n) /\
    (bufA = bufB -> bA = bB) /\
    lexer_text lcB inB t /\
    lexer_text lcA inA (t ++ String ")" rest) /\
    comments_closed false t = true.
Proof.
  induction s as [|c s IH]; intros lc bufA bufB i lcB inB bB n Hc;
    cbn [read_number String.append];
    destruct (i <? BUFSZ)%nat; try discriminate.
  - intros [= <- <- <- <-].
    change (isdigit (int_of_char ")") || (int_of_char ")" =? chr "."))%bool
      with false. cbv iota.
    eexists _, _, _, EmptyString. split; [reflexivity|].
    split; [intros ->; reflexivity|]. cbn. auto.
  - destruct (isdigit (int_of_char c) || (int_of_char c =? chr "."))%bool
      eqn:Hn.
    + intros H.
      destruct (IH (int_of_char c) (<[i := char_of_int lc]> bufA)
                  (<[i := char_of_int lc]> bufB) (S i) lcB inB bB n)
        as (lcA & inA & bA & t & E & Hb & Ht);
        [ rewrite comments_closed_step in Hc
            by (apply isnumchar_not_hash; exact Hn); exact Hc
        | exact H | ].
      exists lcA, inA, bA, t. split; [exact E|].
      split; [intros ->; apply Hb; reflexivity | exact Ht].
    + intros [= <- <- <- <-].
      eexists _, _, _, (String c s). split; [reflexivity|].
      split; [intros ->; reflexivity|].
      cbn [lexer_text String.append]. auto.
Qed.

Lemma skip_comment_wrapped (s : string) :
  comments_closed true s = true ->
  exists c s',
    skip_comment s = (int_of_char c, s') /\
    skip_comment (s ++ String ")" rest) =
      (int_of_char c, (s' ++ String ")" rest)%string) /\
    comments_closed false (String c s') = true.
Proof.
  induction s as [|c s IH]; cbn [comments_closed skip_comment String.append];
    [discriminate|].
  fold (incomment (int_of_char c)).
  destruct (incomment (int_of_char c)) eqn:Hin; [exact IH|].
  intros Hc. exists c, s. split; [reflexivity|]. split; [reflexivity|].
  destruct (Z.eqb_spec (int_of_char c) (chr "#")) as [E|]; [|exact Hc].
  rewrite E in Hin. discriminate Hin.
Qed.

End TextInParentheses.

Section LexerInParentheses.

Context {double B : Type} (strtod : string -> double) (f : double -> B).

Variable rest : string.

Implicit Types stA stB : globals double.

(** A call of [gettok] inside the parentheses follows the call on the
    text alone: it returns the same token and leaves the lexers as they
    were, one before the other's text and the closing parenthesis —
    until the text is used up, where one returns [tok_eof] and the other
    the parenthesis. *)
Lemma gettok_rec_wrapped (n : nat) : forall stA stB tB stB',
  lexer_wrapped rest stA stB ->
  IdentifierStr stA = IdentifierStr stB ->
  numbers_agree f stA stB ->
  gettok_rec strtod n stB = Ok (tB, stB') ->
  exists tA stA',
    gettok_rec strtod n stA = Ok (tA, stA') /\
    IdentifierStr stA' = IdentifierStr stB' /\
    numbers_agree f stA' stB' /\
    (tB = tok_number -> f (NumVal stA') = f (NumVal stB')) /\
    ((tB <> tok_eof /\ tA = tB /\ lexer_wrapped rest stA' stB') \/
     (tB = tok_eof /\ tA = chr ")")).
Proof.
  induction n as [|n IH]; intros stA stB tB stB' (t & HB & HA & Hc) Hid Hnum;
    cbn [gettok_rec]; [discriminate|].
  assert (Hskip : exists t',
    lexer_text (fst (skip_whitespace (LastChar stB) (stdin stB)))
               (snd (skip_whitespace (LastChar stB) (stdin stB))) t' /\
    lexer_text (fst (skip_whitespace (LastChar stA) (stdin stA)))
               (snd (skip_whitespace (LastChar stA) (stdin stA)))
               (t' ++ String ")" rest) /\
    comments_closed false t' = true).
  { destruct t as [|c s]; cbn [lexer_text String.append] in HB, HA;
      destruct HB as [EB1 EB2], HA as [EA1 EA2];
      rewrite EB1, EB2, EA1, EA2.
    - exists EmptyString.
      rewrite !skip_whitespace_nonblank by reflexivity. cbn. auto.
    - apply skip_whitespace_wrapped. exact Hc. }
  clear t HB HA Hc. destruct Hskip as (t & HB & HA & Hc).
  destruct (skip_whitespace (LastChar stB) (stdin stB)) as [lcB inB].
  destruct (skip_whitespace (LastChar stA) (stdin stA)) as [lcA inA].
  cbn [fst snd] in HB, HA.
  destruct t as [|c s]; cbn [lexer_text String.append] in HB, HA;
    destruct HB as [-> ->], HA as [-> ->].
  { (* the text is used up *)
    change (isalpha EOF) with false.
    change (isdigit EOF || (EOF =? chr "."))%bool with false.
    change (EOF =? chr "#") with false.
    change (isalpha (int_of_char ")")) with false.
    change (isdigit (int_of_char ")") || (int_of_char ")" =? chr "."))%bool
      with false.
    change (int_of_char ")" =? chr "#") with false. cbv iota.
    unfold gettok_rest. change (EOF =? EOF) with true.
    change (int_of_char ")" =? EOF) with false. cbv iota.
    intros [= <- <-]. destruct (getchar rest) as [lc1 in1].
    eexists _, _. split; [reflexivity|].
    split; [exact Hid|]. split; [exact Hnum|].
    split; [discriminate|]. right. split; reflexivity. }
  destruct (isalpha (int_of_char c)) eqn:Halpha.
  { (* a name *)
    rewrite comments_closed_step in Hc
      by (apply isalnum_not_hash; unfold isalnum; rewrite Halpha;
          reflexivity).
    rewrite Hid.
    destruct (read_identifier s _ 1) as [[[[lcB' inB'] buf'] k]| |] eqn:Hr;
      cbn [bind]; try discriminate.
    destruct (read_identifier_wrapped rest s _ _ _ _ _ _ Hc Hr)
      as (lcA' & inA' & t' & Hr' & HtB & HtA & Hc').
    rewrite Hr'. cbn [bind].
    destruct (k <? BUFSZ)%nat; [|discriminate].
    destruct (read_cstr _) as [name| |]; cbn [bind]; try discriminate.
    assert (Hw : lexer_wrapped rest
              (set_IdentifierStr (set_lexer stA inA' lcA') (<[k := NUL]> buf'))
              (set_IdentifierStr (set_lexer stB inB' lcB') (<[k := NUL]> buf')))
      by (exists t'; cbn; auto).
    destruct (streq name "def");
      [|destruct (streq name "extern")];
      intros [= <- <-]; eexists _, _; (split; [reflexivity|]);
      (split; [reflexivity|]); (split; [exact Hnum|]);
      (split; [discriminate|]); left;
      (split; [discriminate|]); (split; [reflexivity | exact Hw]). }
  destruct (isdigit (int_of_char c) || (int_of_char c =? chr "."))%bool
    eqn:Hdigit.
  { (* a number *)
    rewrite comments_closed_step in Hc
      by (apply isnumchar_not_hash; exact Hdigit).
    unfold declare_NumStr.
    destruct (read_number (int_of_char c) s
                (map (indeterminate stB (NumStr_decls stB)) (seq 0 BUFSZ)) 1)
      as [[[[lcB' inB'] bB] k]| |] eqn:Hr; cbn [bind]; try discriminate.
    destruct (read_number_wrapped rest s (int_of_char c)
                (map (indeterminate stA (NumStr_decls stA)) (seq 0 BUFSZ))
                _ _ _ _ _ _ Hc Hr)
      as (lcA' & inA' & bA & t' & Hr' & Hbuf & HtB & HtA & Hc').
    rewrite Hr'. cbn [bind].
    destruct (k <? BUFSZ)%nat; [|discriminate].
    intros [= <- <-]. eexists _, _. split; [reflexivity|].
    split; [exact Hid|].
    split.
    { destruct Hnum as [Hconst|[Hi Hd]]; [left; exact Hconst|].
      right. split; cbn; congruence. }
    split.
    { intros _. cbn [NumVal set_NumVal].
      destruct Hnum as [Hconst|[Hi Hd]]; [apply Hconst|].
      rewrite Hbuf by (rewrite Hi, Hd; reflexivity). reflexivity. }
    left. split; [discriminate|]. split; [reflexivity|].
    exists t'. cbn. auto. }
  destruct (Z.eqb_spec (int_of_char c) (chr "#")) as [Hhash|Hhash].
  { (* a comment, which ends inside the text *)
    cbn [comments_closed] in Hc. rewrite Hhash in Hc.
    change (chr "#" =? chr "#") with true in Hc.
    destruct (skip_comment_wrapped rest s Hc) as (c' & s' & E1 & E2 & Hc').
    rewrite E1, E2. rewrite int_of_char_not_EOF. cbn [negb].
    apply IH.
    - exists (String c' s'). cbn. auto.
    - exact Hid.
    - destruct Hnum as [Hconst|[Hi Hd]]; [left; exact Hconst|].
      right. split; cbn; congruence. }
  (* a character *)
  apply Z.eqb_neq in Hhash. rewrite comments_closed_step in Hc by exact Hhash.
  unfold gettok_rest. rewrite int_of_char_not_EOF.
  pose proof (int_of_char_range c) as Hrange.
  assert (Hw : lexer_wrapped rest
            (set_lexer stA (snd (getchar (s ++ String ")" rest)))
                       (fst (getchar (s ++ String ")" rest))))
            (set_lexer stB (snd (getchar s)) (fst (getchar s)))).
  { exists s. cbn [LastChar stdin set_lexer].
    split; [apply lexer_text_getchar|].
    split; [apply lexer_text_getchar | exact Hc]. }
  destruct (getchar s) as [lc1 in1].
  destruct (getchar (s ++ String ")" rest)) as [lc2 in2].
  intros [= <- <-]. eexists _, _. split; [reflexivity|].
  split; [exact Hid|]. split; [exact Hnum|].
  split; [intros E; unfold tok_number in E; lia|].
  left. split; [unfold tok_eof; lia|]. split; [reflexivity | exact Hw].
Qed.

End LexerInParentheses.

Section ParserInParentheses.

Context {double B : Type} (strtod : string -> double) (f : double -> B).

Variable rest : string.

Implicit Types stA stB : globals double.

Lemma GetTokPrecedence_table (st : globals double) :
  standard_binops st ->
  GetTokPrecedence st =
    Ok (if CurTok st =? chr "<" then 10
        else if CurTok st =? chr "+" then 20
        else if CurTok st =? chr "-" then 30
        else if CurTok st =? chr "*" then 40
        else -1).
Proof.
  intros [Eo Ep]. unfold GetTokPrecedence.
  destruct (isascii (CurTok st)) eqn:Hascii; cbn [negb].
  - unfold NUM_BINOPS, chr. cbn [GetTokPrecedence_loop]. rewrite Eo, Ep. cbn.
    repeat match goal with
           | |- context [?a =? ?b] => destruct (a =? b); [reflexivity|]
           end.
    reflexivity.
  - rewrite !(isascii_false_not (CurTok st)) by (exact Hascii || reflexivity).
    reflexivity.
Qed.

Lemma GetTokPrecedence_at_eof (st : globals double) :
  CurTok st = tok_eof -> GetTokPrecedence st = Ok (-1).
Proof. intros H. unfold GetTokPrecedence. rewrite H. reflexivity. Qed.

Lemma GetTokPrecedence_wrapped stA stB :
  parsing_wrapped f rest stA stB ->
  GetTokPrecedence stA = GetTokPrecedence stB.
Proof.
  intros (_ & HA & HB & _ & _ & [(_ & Hc & _)|[HcB HcA]]).
  - rewrite (GetTokPrecedence_table stA HA), (GetTokPrecedence_table stB HB).
    rewrite Hc. reflexivity.
  - rewrite (GetTokPrecedence_table stA HA), (GetTokPrecedence_at_eof stB HcB).
    rewrite HcA. reflexivity.
Qed.

Lemma getNextToken_lexer_wrapped stA stB tB stB' :
  lexer_wrapped rest stA stB ->
  IdentifierStr stA = IdentifierStr stB ->
  standard_binops stA -> standard_binops stB ->
  numbers_agree f stA stB ->
  getNextToken strtod stB = Ok (tB, stB') ->
  exists tA stA',
    getNextToken strtod stA = Ok (tA, stA') /\
    parsing_wrapped f rest stA' stB'.
Proof.
  intros Hlex Hid HA HB Hnum. unfold getNextToken.
  destruct (gettok strtod stB) as [[t stB1]| |] eqn:EB; cbn [bind];
    try discriminate.
  intros [= <- <-]. unfold gettok in EB.
  assert (Hlen : (String.length (stdin stB) <= String.length (stdin stA))%nat).
  { destruct Hlex as ([|c s] & HtB & HtA & _);
      cbn [lexer_text String.append] in HtB, HtA;
      destruct HtB as [_ ->], HtA as [_ ->]; cbn [String.length];
      rewrite ?length_append; lia. }
  rewrite (gettok_rec_fuel strtod _ (S (String.length (stdin stA)))) in EB
    by lia.
  pose proof (gettok_rec_frame strtod _ _ _ _ EB) as FB.
  destruct (gettok_rec_wrapped strtod f rest _ _ _ _ _ Hlex Hid Hnum EB)
    as (tA & stA1 & EA & Hid1 & Hnum1 & Hval & Htok).
  pose proof (gettok_rec_frame strtod _ _ _ _ EA) as FA.
  unfold gettok. rewrite EA. cbn [bind].
  eexists _, _. split; [reflexivity|].
  destruct FA as (_ & _ & FAo & FAp & _), FB as (_ & _ & FBo & FBp & _).
  destruct HA as [HAo HAp], HB as [HBo HBp].
  unfold parsing_wrapped, standard_binops.
  cbn [IdentifierStr BinopPrecedenceOperators BinopPrecedencePrecedence
       NumVal CurTok set_CurTok].
  split; [exact Hid1|].
  split; [split; congruence|]. split; [split; congruence|].
  split; [exact Hnum1|]. split; [exact Hval|].
  destruct Htok as [(Hne & -> & Hlex1)|[-> ->]].
  - left. split; [|split; [reflexivity | exact Hne]].
    destruct Hlex1 as (t1 & H1 & H2 & H3). exists t1. auto.
  - right. split; reflexivity.
Qed.

Lemma getNextToken_wrapped stA stB tB stB' :
  parsing_wrapped f rest stA stB ->
  CurTok stB <> tok_eof ->
  getNextToken strtod stB = Ok (tB, stB') ->
  exists tA stA',
    getNextToken strtod stA = Ok (tA, stA') /\
    parsing_wrapped f rest stA' stB'.
Proof.
  intros (Hid & HA & HB & Hnum & _ & [(Hlex & _ & _)|[HcB _]]) Hne;
    [|contradiction].
  apply getNextToken_lexer_wrapped; assumption.
Qed.

(** Steps over the call of [getNextToken] that both runs make next;
    [Hw] relates their states and [Hne] tells that the run on the text
    alone is not at its end. *)
Ltac token_in_parens Hw Hne :=
  match goal with
  | |- follows _ _ (bind (getNextToken strtod ?sA) _)
                   (bind (getNextToken strtod ?sB) _) =>
      let EB := fresh "EB" in
      let EA := fresh "EA" in
      let Hw' := fresh "Hw" in
      destruct (getNextToken strtod sB) as [[? ?]| |] eqn:EB; cbn [bind];
      [ | exact I | exact I ];
      destruct (getNextToken_wrapped _ _ _ _ Hw Hne EB)
        as (? & ? & EA & Hw');
      rewrite EA; cbn [bind]
  end.

Lemma parsing_wrapped_token stA stB :
  parsing_wrapped f rest stA stB ->
  CurTok stB <> tok_eof -> CurTok stA = CurTok stB.
Proof.
  intros (_ & _ & _ & _ & _ & [(_ & Hc & _)|[HcB _]]) Hne;
    [exact Hc | contradiction].
Qed.

Lemma ParseNumberExpr_wrapped stA stB :
  parsing_wrapped f rest stA stB ->
  CurTok stB = tok_number ->
  follows f rest (ParseNumberExpr strtod stA) (ParseNumberExpr strtod stB).
Proof.
  intros Hw Hc. unfold ParseNumberExpr. cbv zeta.
  assert (Hne : CurTok stB <> tok_eof) by (rewrite Hc; discriminate).
  assert (Hval : f (NumVal stA) = f (NumVal stB))
    by (destruct Hw as (_ & _ & _ & _ & Hv & _); exact (Hv Hc)).
  token_in_parens Hw Hne.
  eexists _, _. split; [reflexivity|]. split; [|assumption].
  cbn [map_Val]. rewrite Hval. reflexivity.
Qed.

(** At the end of the input no expression starts. *)
Lemma ParsePrimary_at_eof fuel (st : globals double) V st' :
  CurTok st = tok_eof -> ParsePrimary strtod fuel st <> Ok (Some V, st').
Proof.
  intros Hc. destruct fuel as [|fuel]; [discriminate|].
  rewrite ParsePrimary_eq, Hc. discriminate.
Qed.

Lemma ParseExpression_at_eof fuel (st : globals double) V st' :
  CurTok st = tok_eof -> ParseExpression strtod fuel st <> Ok (Some V, st').
Proof.
  intros Hc. destruct fuel as [|fuel]; [discriminate|].
  rewrite ParseExpression_eq.
  pose proof (fun W s => ParsePrimary_at_eof fuel st W s Hc) as Hp.
  destruct (ParsePrimary strtod fuel st) as [[[LHS|] st1]| |]; cbn [bind];
    try discriminate.
  contradiction (Hp LHS st1). reflexivity.
Qed.

Lemma ParseCallArgs_at_eof fuel Callee Args NumArgs (st : globals double)
    V st' :
  CurTok st = tok_eof ->
  ParseCallArgs strtod fuel Callee Args NumArgs st <> Ok (Some V, st').
Proof.
  intros Hc. destruct fuel as [|fuel]; [discriminate|].
  rewrite ParseCallArgs_eq.
  pose proof (fun W s => ParseExpression_at_eof fuel st W s Hc) as Hp.
  destruct (ParseExpression strtod fuel st) as [[[Arg|] st1]| |]; cbn [bind];
    try discriminate.
  contradiction (Hp Arg st1). reflexivity.
Qed.

(** The argument list of a call ends on ')'. *)
Lemma ParseCallArgs_stops (fuel : nat) :
  forall Callee Args NumArgs (st : globals double) V st',
  ParseCallArgs strtod fuel Callee Args NumArgs st = Ok (Some V, st') ->
  CurTok st' = chr ")".
Proof.
  induction fuel as [|fuel IH]; intros Callee Args NumArgs st V st';
    [discriminate|].
  rewrite ParseCallArgs_eq.
  destruct (ParseExpression strtod fuel st) as [[[Arg|] st1]| |]; cbn [bind];
    try discriminate.
  destruct (NumArgs <? BUFSZ)%nat; [|discriminate]. cbv zeta.
  destruct (Z.eqb_spec (CurTok st1) (chr ")")) as [Hc|_].
  { intros [= _ <-]. exact Hc. }
  destruct (negb _); [discriminate|].
  destruct (getNextToken strtod st1) as [[t st2]| |]; cbn [bind];
    try discriminate.
  apply IH.
Qed.

Section InParenthesesStep.

Variable fuel : nat.
Hypothesis IHExpression : forall stA stB,
  parsing_wrapped f rest stA stB ->
  follows f rest (ParseExpression strtod fuel stA)
                 (ParseExpression strtod fuel stB).
Hypothesis IHPrimary : forall stA stB,
  parsing_wrapped f rest stA stB ->
  follows f rest (ParsePrimary strtod fuel stA) (ParsePrimary strtod fuel stB).
Hypothesis IHParen : forall stA stB,
  parsing_wrapped f rest stA stB -> CurTok stB = chr "(" ->
  follows f rest (ParseParenExpr strtod fuel stA)
                 (ParseParenExpr strtod fuel stB).
Hypothesis IHIdentifier : forall stA stB,
  parsing_wrapped f rest stA stB -> CurTok stB = tok_identifier ->
  follows f rest (ParseIdentifierExpr strtod fuel stA)
                 (ParseIdentifierExpr strtod fuel stB).
Hypothesis IHCallArgs : forall Callee ArgsA ArgsB NumArgs stA stB,
  parsing_wrapped f rest stA stB ->
  List.map (map_Val f) ArgsA = List.map (map_Val f) ArgsB ->
  follows f rest (ParseCallArgs strtod fuel Callee ArgsA NumArgs stA)
                 (ParseCallArgs strtod fuel Callee ArgsB NumArgs stB).
Hypothesis IHBinOpRHS : forall ExprPrec LHSA LHSB stA stB,
  parsing_wrapped f rest stA stB ->
  0 <= ExprPrec -> map_Val f LHSA = map_Val f LHSB ->
  follows f rest (ParseBinOpRHS strtod fuel ExprPrec LHSA stA)
                 (ParseBinOpRHS strtod fuel ExprPrec LHSB stB).

Lemma ParseExpression_wrapped_step stA stB :
  parsing_wrapped f rest stA stB ->
  follows f rest (ParseExpression strtod (S fuel) stA)
                 (ParseExpression strtod (S fuel) stB).
Proof.
  intros Hw. rewrite !ParseExpression_eq.
  pose proof (IHPrimary stA stB Hw) as Hp.
  destruct (ParsePrimary strtod fuel stB) as [[[LHS|] stB1]| |];
    cbn [bind]; try exact I.
  destruct Hp as (LHS' & stA1 & -> & Hv & Hw1). cbn [bind].
  apply IHBinOpRHS; [exact Hw1 | lia | exact Hv].
Qed.

Lemma ParsePrimary_wrapped_step stA stB :
  parsing_wrapped f rest stA stB ->
  follows f rest (ParsePrimary strtod (S fuel) stA)
                 (ParsePrimary strtod (S fuel) stB).
Proof.
  intros Hw. rewrite !ParsePrimary_eq.
  destruct (Z.eq_dec (CurTok stB) tok_eof) as [He|Hne].
  { rewrite He. exact I. }
  rewrite (parsing_wrapped_token stA stB Hw Hne).
  destruct (Z.eqb_spec (CurTok stB) tok_identifier) as [Hc|_];
    [apply IHIdentifier; assumption|].
  destruct (Z.eqb_spec (CurTok stB) tok_number) as [Hc|_];
    [apply ParseNumberExpr_wrapped; assumption|].
  destruct (Z.eqb_spec (CurTok stB) (chr "(")) as [Hc|_];
    [apply IHParen; assumption|].
  exact I.
Qed.

Lemma ParseParenExpr_wrapped_step stA stB :
  parsing_wrapped f rest stA stB -> CurTok stB = chr "(" ->
  follows f rest (ParseParenExpr strtod (S fuel) stA)
                 (ParseParenExpr strtod (S fuel) stB).
Proof.
  intros Hw Hc. rewrite !ParseParenExpr_unfold.
  assert (Hne : CurTok stB <> tok_eof) by (rewrite Hc; discriminate).
  token_in_parens Hw Hne.
  match goal with
  | |- follows _ _ (bind (ParseExpression strtod fuel ?sA) _)
                   (bind (ParseExpression strtod fuel ?sB) _) =>
      pose proof (IHExpression sA sB ltac:(assumption)) as He;
      destruct (ParseExpression strtod fuel sB) as [[[V|] stB2]| |]
  end; cbn [bind]; try exact I.
  destruct He as (V' & stA2 & -> & Hv & Hw2). cbn [bind].
  destruct (Z.eqb_spec (CurTok stB2) (chr ")")) as [Hc2|_]; cbn [negb];
    [|exact I].
  assert (Hne2 : CurTok stB2 <> tok_eof) by (rewrite Hc2; discriminate).
  rewrite (parsing_wrapped_token _ _ Hw2 Hne2), Hc2, Z.eqb_refl. cbn [negb].
  token_in_parens Hw2 Hne2.
  eexists _, _. split; [reflexivity|]. split; assumption.
Qed.

Lemma ParseIdentifierExpr_wrapped_step stA stB :
  parsing_wrapped f rest stA stB -> CurTok stB = tok_identifier ->
  follows f rest (ParseIdentifierExpr strtod (S fuel) stA)
                 (ParseIdentifierExpr strtod (S fuel) stB).
Proof.
  intros Hw Hc. rewrite !ParseIdentifierExpr_eq.
  assert (Hne : CurTok stB <> tok_eof) by (rewrite Hc; discriminate).
  destruct Hw as (Hid & Hrest). rewrite Hid.
  pose proof (conj Hid Hrest : parsing_wrapped f rest stA stB) as Hw.
  destruct (read_cstr (IdentifierStr stB)) as [IdName| |]; cbn [bind];
    try exact I.
  token_in_parens Hw Hne.
  match goal with
  | Hw1 : parsing_wrapped f rest ?sA ?sB |- context [CurTok ?sB =? chr "("] =>
      rename Hw1 into Hw1'; rename sA into stA1; rename sB into stB1
  end.
  destruct (Z.eq_dec (CurTok stB1) tok_eof) as [He1|Hne1].
  { (* the name ends the text *)
    assert (HcA : CurTok stA1 = chr ")")
      by (destruct Hw1' as (_ & _ & _ & _ & _ & [(_ & _ & H)|[_ H]]);
          [contradiction | exact H]).
    rewrite He1, HcA. cbn [negb Z.eqb].
    eexists _, _. split; [reflexivity|]. split; [reflexivity | exact Hw1']. }
  rewrite (parsing_wrapped_token _ _ Hw1' Hne1).
  destruct (Z.eqb_spec (CurTok stB1) (chr "(")) as [Hc1|_]; cbn [negb].
  2:{ eexists _, _. split; [reflexivity|].
      split; [reflexivity | exact Hw1']. }
  token_in_parens Hw1' Hne1.
  match goal with
  | Hw2 : parsing_wrapped f rest ?sA ?sB |- context [CurTok ?sB =? chr ")"] =>
      rename Hw2 into Hw2'; rename sA into stA2; rename sB into stB2
  end.
  destruct (Z.eq_dec (CurTok stB2) tok_eof) as [He2|Hne2].
  { (* the text ends behind the '(': no argument list parses *)
    rewrite He2. cbn [negb Z.eqb].
    pose proof (fun W s => ParseCallArgs_at_eof fuel IdName [] 0 stB2 W s He2)
      as Hno.
    destruct (ParseCallArgs strtod fuel IdName [] 0 stB2)
      as [[[R|] stB3]| |]; cbn [bind]; try exact I.
    contradiction (Hno R stB3). reflexivity. }
  rewrite (parsing_wrapped_token _ _ Hw2' Hne2).
  destruct (Z.eqb_spec (CurTok stB2) (chr ")")) as [Hc2|Hc2]; cbn [negb].
  - cbn [bind]. token_in_parens Hw2' Hne2.
    eexists _, _. split; [reflexivity|]. split; [reflexivity | assumption].
  - pose proof (IHCallArgs IdName [] [] 0%nat stA2 stB2 Hw2' eq_refl) as Ha.
    destruct (ParseCallArgs strtod fuel IdName [] 0 stB2)
      as [[[R|] stB3]| |] eqn:EB3; cbn [bind]; try exact I.
    destruct Ha as (R' & stA3 & -> & Hv & Hw3). cbn [bind].
    apply ParseCallArgs_stops in EB3.
    assert (Hne3 : CurTok stB3 <> tok_eof) by (rewrite EB3; discriminate).
    token_in_parens Hw3 Hne3.
    eexists _, _. split; [reflexivity|]. split; assumption.
Qed.

Lemma ParseCallArgs_wrapped_step Callee ArgsA ArgsB NumArgs stA stB :
  parsing_wrapped f rest stA stB ->
  List.map (map_Val f) ArgsA = List.map (map_Val f) ArgsB ->
  follows f rest (ParseCallArgs strtod (S fuel) Callee ArgsA NumArgs stA)
                 (ParseCallArgs strtod (S fuel) Callee ArgsB NumArgs stB).
Proof.
  intros Hw Hargs. rewrite !ParseCallArgs_eq.
  pose proof (IHExpression stA stB Hw) as He.
  destruct (ParseExpression strtod fuel stB) as [[[Arg|] stB1]| |];
    cbn [bind]; try exact I.
  destruct He as (Arg' & stA1 & -> & Hv & Hw1). cbn [bind].
  destruct (NumArgs <? BUFSZ)%nat; [|exact I]. cbv zeta.
  assert (Hargs1 : List.map (map_Val f) (ArgsA ++ [Arg']) =
                   List.map (map_Val f) (ArgsB ++ [Arg]))
    by (rewrite !List.map_app; cbn [List.map]; congruence).
  destruct (Z.eq_dec (CurTok stB1) tok_eof) as [He1|Hne1].
  { rewrite He1. exact I. }
  rewrite (parsing_wrapped_token _ _ Hw1 Hne1).
  destruct (CurTok stB1 =? chr ")").
  { eexists _, _. split; [reflexivity|]. split; [|exact Hw1].
    cbn [map_Val]. rewrite Hargs1. reflexivity. }
  destruct (negb _); [exact I|].
  token_in_parens Hw1 Hne1.
  apply IHCallArgs; assumption.
Qed.

Lemma ParseBinOpRHS_wrapped_step ExprPrec LHSA LHSB stA stB :
  parsing_wrapped f rest stA stB ->
  0 <= ExprPrec -> map_Val f LHSA = map_Val f LHSB ->
  follows f rest (ParseBinOpRHS strtod (S fuel) ExprPrec LHSA stA)
                 (ParseBinOpRHS strtod (S fuel) ExprPrec LHSB stB).
Proof.
  intros Hw Hprec Hlhs. rewrite !ParseBinOpRHS_eq.
  rewrite (GetTokPrecedence_wrapped stA stB Hw).
  destruct (GetTokPrecedence stB) as [TokPrec| |] eqn:Htok; cbn [bind];
    try exact I.
  destruct (Z.ltb_spec TokPrec ExprPrec) as [_|Hge].
  { eexists _, _. split; [reflexivity|]. split; assumption. }
  cbv zeta.
  assert (Hne : CurTok stB <> tok_eof).
  { intros He. rewrite (GetTokPrecedence_at_eof stB He) in Htok.
    injection Htok as <-. lia. }
  rewrite (parsing_wrapped_token stA stB Hw Hne).
  token_in_parens Hw Hne.
  match goal with
  | Hw1 : parsing_wrapped f rest ?sA ?sB
    |- follows _ _ (bind (ParsePrimary strtod fuel ?sA) _) _ =>
      pose proof (IHPrimary sA sB Hw1) as Hp;
      destruct (ParsePrimary strtod fuel sB) as [[[RHS|] stB2]| |]
  end; cbn [bind]; try exact I.
  destruct Hp as (RHS' & stA2 & -> & Hv & Hw2). cbn [bind].
  rewrite (GetTokPrecedence_wrapped stA2 stB2 Hw2).
  destruct (GetTokPrecedence stB2) as [NextPrec| |]; cbn [bind]; try exact I.
  assert (Hrhs : follows f rest
            (if TokPrec <? NextPrec
             then ParseBinOpRHS strtod fuel (TokPrec + 1) RHS' stA2
             else Ok (Some RHS', stA2))
            (if TokPrec <? NextPrec
             then ParseBinOpRHS strtod fuel (TokPrec + 1) RHS stB2
             else Ok (Some RHS, stB2))).
  { destruct (TokPrec <? NextPrec).
    - apply IHBinOpRHS; [exact Hw2 | lia | exact Hv].
    - eexists _, _. split; [reflexivity|]. split; assumption. }
  destruct (if TokPrec <? NextPrec
            then ParseBinOpRHS strtod fuel (TokPrec + 1) RHS stB2
            else Ok (Some RHS, stB2)) as [[[RHS2|] stB3]| |];
    cbn [bind]; try exact I.
  destruct Hrhs as (RHS2' & stA3 & -> & Hv3 & Hw3). cbn [bind].
  apply IHBinOpRHS; [exact Hw3 | exact Hprec|].
  cbn [map_Val]. rewrite Hlhs, Hv3. reflexivity.
Qed.

End InParenthesesStep.

Lemma parser_wrapped (fuel : nat) :
  (forall stA stB,
     parsing_wrapped f rest stA stB ->
     follows f rest (ParseExpression strtod fuel stA)
                    (ParseExpression strtod fuel stB)) /\
  (forall stA stB,
     parsing_wrapped f rest stA stB ->
     follows f rest (ParsePrimary strtod fuel stA)
                    (ParsePrimary strtod fuel stB)) /\
  (forall stA stB,
     parsing_wrapped f rest stA stB -> CurTok stB = chr "(" ->
     follows f rest (ParseParenExpr strtod fuel stA)
                    (ParseParenExpr strtod fuel stB)) /\
  (forall stA stB,
     parsing_wrapped f rest stA stB -> CurTok stB = tok_identifier ->
     follows f rest (ParseIdentifierExpr strtod fuel stA)
                    (ParseIdentifierExpr strtod fuel stB)) /\
  (forall Callee ArgsA ArgsB NumArgs stA stB,
     parsing_wrapped f rest stA stB ->
     List.map (map_Val f) ArgsA = List.map (map_Val f) ArgsB ->
     follows f rest (ParseCallArgs strtod fuel Callee ArgsA NumArgs stA)
                    (ParseCallArgs strtod fuel Callee ArgsB NumArgs stB)) /\
  (forall ExprPrec LHSA LHSB stA stB,
     parsing_wrapped f rest stA stB ->
     0 <= ExprPrec -> map_Val f LHSA = map_Val f LHSB ->
     follows f rest (ParseBinOpRHS strtod fuel ExprPrec LHSA stA)
                    (ParseBinOpRHS strtod fuel ExprPrec LHSB stB)).
Proof.
  induction fuel as [|fuel (IHe & IHp & IHpar & IHid & IHargs & IHrhs)].
  - repeat split; intros; exact I.
  - repeat split; intros.
    + apply ParseExpression_wrapped_step; assumption.
    + apply ParsePrimary_wrapped_step; assumption.
    + apply ParseParenExpr_wrapped_step; assumption.
    + apply ParseIdentifierExpr_wrapped_step; assumption.
    + apply ParseCallArgs_wrapped_step; assumption.
    + apply ParseBinOpRHS_wrapped_step; assumption.
Qed.

End ParserInParentheses.

Lemma map_Val_id {double : Type} :
  forall e : ExprAST double, map_Val (fun x => x) e = e.
Proof.
  fix IH 1. intros [Val|Name|Op LHS RHS|Callee Args NumArgs]; cbn [map_Val].
  - reflexivity.
  - reflexivity.
  - rewrite !IH. reflexivity.
  - f_equal. induction Args as [|a Args IHArgs]; cbn [List.map];
      [reflexivity|]. rewrite IH, IHArgs. reflexivity.
Qed.

Section Parentheses.

Context {double : Type} (strtod : string -> double).

Implicit Types stA stB : globals double.


End Parentheses.


(** The same text with and without parentheses in one run, "42 (42)":
    the two numbers are read into two buffers, and with a blank in the
    first and NUL in the second the trees are 42 and 0. *)
Lemma parentheses_and_bytes :
  let junk := fun (k _ : nat) =>
                match k with O => " "%char | S _ => NUL end in
  match ParseExpression Decimal.strtod 20 (primed "42 (42)" junk) with
  | Ok (Some V, st1) =>
      V = NumberExprAST 42%Q /\
      match ParseParenExpr Decimal.strtod 20 st1 with
      | Ok (Some V', _) => V' = NumberExprAST 0%Q
      | Ok (None, _) | Undefined | OutOfFuel => False
      end
  | Ok (None, _) | Undefined | OutOfFuel => False
  end.
Proof. vm_compute. split; reflexivity. Qed.
